(** * Speech Dispatcher audio delivery pipeline: a shallow embedding

    The development follows two translation units of the repository:

    - [Baratinoo]: the synthesis session of [src/modules/baratinoo.c]
      ([module_speak], [module_stop], [module_pause], the engine output
      callback [baratinoo_output_signal_cb]);
    - [AudioServer]: the audio server of [spd_audio.c]
      ([spd_audio_play], [spd_audio_set_volume], [play_audio],
      [audio_process_incoming], [free_fd_set]).

    Global C variables become fields of an explicit state record that every
    operation takes and returns.  Calls into code that is not part of these
    files (the Baratinoo engine, [module_tts_output], the audio backend's
    [play]) are recorded in traces kept in the state, so that "was it called,
    with what, how often" is a statement about a list. *)

From Stdlib Require Import ZArith Lia.
From stdpp Require Import gmap list strings.

Local Open Scope Z_scope.

(** ** C integers and bytes *)

(** A byte of a [char] or [unsigned char] buffer.  Only equality with a few
    character constants and moves are ever performed on them. *)
Abbreviation byte := Z.

Definition INT_MIN : Z := - 2 ^ 31.
Definition INT_MAX : Z := 2 ^ 31 - 1.
Definition LONG_MIN : Z := - 2 ^ 63.
Definition LONG_MAX : Z := 2 ^ 63 - 1.

(** Conversion of a wider integer to [int] (two's complement wrap-around,
    as gcc and clang define it). *)
Definition to_int (z : Z) : Z := (z + 2 ^ 31) mod 2 ^ 32 - 2 ^ 31.

(** Conversion of a signed integer to [size_t] (64 bits). *)
Definition to_size_t (z : Z) : Z := z mod 2 ^ 64.

Definition in_int_range (z : Z) : bool := (INT_MIN <=? z) && (z <=? INT_MAX).

(** Bytes of a Rocq string, to write protocol lines legibly. *)
Fixpoint bytes_of_string (s : string) : list byte :=
  match s with
  | EmptyString => []
  | String a r => Z.of_nat (Ascii.nat_of_ascii a) :: bytes_of_string r
  end.

Definition CR : byte := 13.
Definition LF : byte := 10.
Definition NUL : byte := 0.
Definition QUESTION_MARK : byte := 63.
Definition COLON : byte := 58.

(** The content of a NUL-terminated C string stored in a buffer. *)
Fixpoint cstr (buf : list byte) : list byte :=
  match buf with
  | [] => []
  | c :: r => if c =? NUL then [] else c :: cstr r
  end.

(** ** The track descriptor shared by both units

    [AudioTrack], with the members both files assign: four [int] fields and
    the sample pointer.  The pointed-to buffer is carried by value:
    [samples] is the content of the allocation, byte by byte, and its length
    is the size of the allocation. *)
Record AudioTrack := mkAudioTrack {
  bits : Z;
  num_channels : Z;
  sample_rate : Z;
  num_samples : Z;
  samples : list byte
}.

(** Modelled from the spec: the enumeration [AudioFormat] is declared in a
    header that is not among the sources; the formats are 16-bit linear PCM,
    little- or big-endian.  Only their being distinct values is used. *)
Definition AudioFormat := Z.
Definition SPD_AUDIO_LE : AudioFormat := 0.
Definition SPD_AUDIO_BE : AudioFormat := 1.

(** ** The synthesis session: [baratinoo.c]

    The repository holds a later revision of this file as well, in which
    [module_speak] builds the engine's proprietary markup itself; the busy
    test, [module_stop], [module_pause] and the output callback are the same
    in both.  The module follows [src/modules/baratinoo.c]. *)
Module Baratinoo.

(** Handle of an engine input buffer ([BCinputTextBuffer]). *)
Definition BCinputTextBuffer := Z.

(** The file's global variables, plus the traces of the calls it makes. *)
Record Session := mkSession {
  baratinoo_stop_requested : bool;
  baratinoo_close_requested : bool;
  baratinoo_semaphore : nat;
  (** [None] is the NULL pointer. *)
  baratinoo_text_buffer : option BCinputTextBuffer;
  baratinoo_voice : Z;
  (** buffers handed to the engine with their text, in order *)
  submitted : list (BCinputTextBuffer * string);
  (** buffers passed to [BCinputTextBufferDelete] *)
  deleted : list BCinputTextBuffer;
  (** calls of [module_tts_output] *)
  tts_output : list (AudioTrack * AudioFormat)
}.

Definition set_stop_requested (b : bool) (s : Session) : Session :=
  mkSession b (baratinoo_close_requested s) (baratinoo_semaphore s)
    (baratinoo_text_buffer s) (baratinoo_voice s) (submitted s) (deleted s)
    (tts_output s).

Definition set_text_buffer (t : option BCinputTextBuffer) (s : Session) : Session :=
  mkSession (baratinoo_stop_requested s) (baratinoo_close_requested s)
    (baratinoo_semaphore s) t (baratinoo_voice s) (submitted s) (deleted s)
    (tts_output s).

Definition set_voice (v : Z) (s : Session) : Session :=
  mkSession (baratinoo_stop_requested s) (baratinoo_close_requested s)
    (baratinoo_semaphore s) (baratinoo_text_buffer s) v (submitted s)
    (deleted s) (tts_output s).

Definition sem_post (s : Session) : Session :=
  mkSession (baratinoo_stop_requested s) (baratinoo_close_requested s)
    (S (baratinoo_semaphore s)) (baratinoo_text_buffer s) (baratinoo_voice s)
    (submitted s) (deleted s) (tts_output s).

Definition push_submitted (b : BCinputTextBuffer) (text : string) (s : Session) : Session :=
  mkSession (baratinoo_stop_requested s) (baratinoo_close_requested s)
    (baratinoo_semaphore s) (baratinoo_text_buffer s) (baratinoo_voice s)
    (submitted s ++ [(b, text)]) (deleted s) (tts_output s).

Definition BCinputTextBufferDelete (b : BCinputTextBuffer) (s : Session) : Session :=
  mkSession (baratinoo_stop_requested s) (baratinoo_close_requested s)
    (baratinoo_semaphore s) (baratinoo_text_buffer s) (baratinoo_voice s)
    (submitted s) (deleted s ++ [b]) (tts_output s).

Definition push_tts_output (t : AudioTrack) (f : AudioFormat) (s : Session) : Session :=
  mkSession (baratinoo_stop_requested s) (baratinoo_close_requested s)
    (baratinoo_semaphore s) (baratinoo_text_buffer s) (baratinoo_voice s)
    (submitted s) (deleted s) (tts_output s ++ [(t, f)]).

Section Engine.

(** What the surroundings answer.  The engine may fail to allocate or to
    initialise an input buffer; the [UPDATE_PARAMETER] macros
    (module_utils.h) re-run the voice selection, whose net effect on
    [baratinoo_voice] is [update_voice]. *)
Variable BCinputTextBufferNew : Z -> option BCinputTextBuffer.
Variable BCinputTextBufferInit : BCinputTextBuffer -> string -> bool.
Variable module_strip_ssml : string -> string.
Variable update_voice : Z -> Z.

Definition baratinoo_speaking (s : Session) : bool :=
  match baratinoo_text_buffer s with
  | Some _ => true
  | None => false
  end.

(** [module_speak(data, bytes, msgtype)].  The message type is not looked at
    by this version of the function.  On the error path the buffer is deleted
    but the global keeps pointing at it, as in the source. *)
Definition module_speak (data : string) (bytes : Z) (msgtype : Z)
    (s : Session) : Z * Session :=
  if baratinoo_speaking s then (0, s)
  else
    let s := set_stop_requested false s in
    let s := set_voice (update_voice (baratinoo_voice s)) s in
    let s := set_text_buffer (BCinputTextBufferNew (baratinoo_voice s)) s in
    match baratinoo_text_buffer s with
    | None => (0, s)
    | Some b =>
        let stripped := module_strip_ssml data in
        if BCinputTextBufferInit b stripped then
          (to_int bytes, sem_post (push_submitted b stripped s))
        else (0, BCinputTextBufferDelete b s)
    end.

Definition module_stop (s : Session) : Z * Session :=
  if baratinoo_stop_requested s then (0, s)
  else (0, sem_post (set_stop_requested true s)).

(** [size_t module_pause(void)]: [-1] is returned as the largest [size_t]. *)
Definition module_pause (s : Session) : Z * Session :=
  if baratinoo_speaking s then (to_size_t (-1), snd (module_stop s))
  else (0, s).

(** The engine's output callback.  [address] is the engine's buffer and
    [length] its size in bytes; [/] on [int] truncates towards zero.  The
    status of [module_tts_output] only selects a debug message, the callback
    returns 0 on every path. *)
Definition baratinoo_output_signal_cb (address : list byte) (length : Z)
    (s : Session) : Z * Session :=
  if baratinoo_stop_requested s then (0, s)
  else
    let track := mkAudioTrack 16 1 16000 (Z.quot length 2) address in
    (0, push_tts_output track SPD_AUDIO_LE s).

End Engine.

(** Sample sessions: one in the middle of an utterance with a stop pending,
    the same one without the stop, and an idle one; and a stub engine that
    always hands out buffer 1 and accepts every text. *)
Definition session_stopping : Session :=
  mkSession true false 1 (Some 1) 0 [(1, "hello"%string)] [] [].
Definition session_speaking : Session :=
  mkSession false false 0 (Some 1) 0 [(1, "hello"%string)] [] [].
Definition session_idle : Session :=
  mkSession false false 0 None 0 [] [] [].

Definition stub_new : Z -> option BCinputTextBuffer := fun _ => Some 1.
Definition stub_init : BCinputTextBuffer -> string -> bool := fun _ _ => true.
Definition stub_strip : string -> string := fun t => t.
Definition stub_voice : Z -> Z := fun v => v.

(** Four bytes of alternating content, two samples. *)
Definition chunk_0102 : list byte := [1; 2; 1; 2].

End Baratinoo.

(** ** The audio server: [spd_audio.c] *)
Module AudioServer.

(** *** Library functions the decoder relies on *)

Definition isspace (c : byte) : bool := (c =? 32) || ((9 <=? c) && (c <=? 13)).
Definition isdigit (c : byte) : bool := (48 <=? c) && (c <=? 57).

Fixpoint skip_spaces (s : list byte) : list byte :=
  match s with
  | c :: r => if isspace c then skip_spaces r else s
  | [] => []
  end.

Fixpoint strtol_digits (acc : Z) (s : list byte) : Z :=
  match s with
  | c :: r => if isdigit c then strtol_digits (acc * 10 + (c - 48)) r else acc
  | [] => acc
  end.

(** [strtol(s, NULL, 10)] on a machine with 64-bit [long]: white space, an
    optional sign, the longest run of digits; 0 when there is no digit, the
    nearest bound when the value does not fit. *)
Definition strtol (s : list byte) : Z :=
  match skip_spaces s with
  | c :: r =>
      if c =? 45 then Z.max LONG_MIN (- strtol_digits 0 r)
      else if c =? 43 then Z.min LONG_MAX (strtol_digits 0 r)
      else Z.min LONG_MAX (strtol_digits 0 (c :: r))
  | [] => 0
  end.

(** [strchr]-like search: the bytes before the first [delim] and those
    after it. *)
Fixpoint split_at (delim : byte) (s : list byte) : option (list byte * list byte) :=
  match s with
  | [] => None
  | c :: r =>
      if c =? delim then Some ([], r)
      else match split_at delim r with
           | Some (a, b) => Some (c :: a, b)
           | None => None
           end
  end.

Fixpoint g_strsplit_from (delim : byte) (splits : nat) (remainder : list byte)
    : list (list byte) :=
  match splits with
  | O => [remainder]
  | S k =>
      match split_at delim remainder with
      | Some (tok, rest) => tok :: g_strsplit_from delim k rest
      | None => [remainder]
      end
  end.

(** GLib's [g_strsplit(string, delimiter, max_tokens)] for a one-byte
    delimiter: at most [max_tokens] pieces, the last one holding the
    remainder; no limit when [max_tokens < 1]; the empty string gives the
    empty vector.  The result is the vector without its terminating NULL,
    so "[metadata[i] == NULL] for some [i < 5]" is "fewer than 5 pieces". *)
Definition g_strsplit (s : list byte) (delim : byte) (max_tokens : Z) : list (list byte) :=
  match s with
  | [] => []
  | _ =>
      g_strsplit_from delim
        (if max_tokens <? 1 then length s else Z.to_nat (max_tokens - 1)) s
  end.

(** *** State of the server *)

(** The kernel's side of a connected stream socket: the bytes delivered and
    not yet read, and whether the peer has closed its end. *)
Record Socket := mkSocket {
  pending : list byte;
  peer_closed : bool
}.

(** [TAudioFDSetElement], with the members this file uses. *)
Record TAudioFDSetElement := mkFDSet {
  fd : Z;
  (** the attached [GSource], NULL when absent *)
  source : option Z;
  output_module : option string
}.

(** [AudioID], with the members this file uses: the plugin's [play] entry
    (NULL when the plugin has none; the function gives the status the
    backend returns), the device's native format and the volume. *)
Record AudioID := mkAudioID {
  function_play : option (AudioTrack -> Z);
  format : AudioFormat;
  volume : Z
}.

Definition ptr := Z.

Record Server := mkServer {
  (** open descriptors *)
  sockets : gmap Z Socket;
  (** live [TAudioFDSetElement] allocations, by address *)
  heap : gmap ptr TAudioFDSetElement;
  (** the [GQueue] of record addresses *)
  module_data_list : list ptr;
  audio_id : option AudioID;
  (** tracks handed to the backend's [play], in order *)
  played : list AudioTrack;
  (** byte offsets at which the swap loop exchanged a pair *)
  swaps : list Z;
  (** descriptors passed to [close] *)
  closed : list Z;
  (** sources passed to [g_source_destroy] *)
  destroyed : list Z;
  (** messages given to [MSG] that report an error or a disconnect; the
      progress messages of level 5 are left out *)
  log : list string
}.

Definition set_sockets (m : gmap Z Socket) (s : Server) : Server :=
  mkServer m (heap s) (module_data_list s) (audio_id s) (played s) (swaps s)
    (closed s) (destroyed s) (log s).

Definition set_heap (h : gmap ptr TAudioFDSetElement) (s : Server) : Server :=
  mkServer (sockets s) h (module_data_list s) (audio_id s) (played s) (swaps s)
    (closed s) (destroyed s) (log s).

Definition set_module_data_list (l : list ptr) (s : Server) : Server :=
  mkServer (sockets s) (heap s) l (audio_id s) (played s) (swaps s)
    (closed s) (destroyed s) (log s).

Definition set_played (l : list AudioTrack) (s : Server) : Server :=
  mkServer (sockets s) (heap s) (module_data_list s) (audio_id s) l (swaps s)
    (closed s) (destroyed s) (log s).

Definition set_swaps (l : list Z) (s : Server) : Server :=
  mkServer (sockets s) (heap s) (module_data_list s) (audio_id s) (played s) l
    (closed s) (destroyed s) (log s).

Definition set_closed (l : list Z) (s : Server) : Server :=
  mkServer (sockets s) (heap s) (module_data_list s) (audio_id s) (played s)
    (swaps s) l (destroyed s) (log s).

Definition set_destroyed (l : list Z) (s : Server) : Server :=
  mkServer (sockets s) (heap s) (module_data_list s) (audio_id s) (played s)
    (swaps s) (closed s) l (log s).

Definition set_log (l : list string) (s : Server) : Server :=
  mkServer (sockets s) (heap s) (module_data_list s) (audio_id s) (played s)
    (swaps s) (closed s) (destroyed s) l.

(** *** Outcomes

    A call returns a value and a new state, or does not return because a
    [read] waits for bytes the peer has not sent, or has no defined
    behaviour (an access outside an allocation, arithmetic overflow on
    [int], a dangling or uninitialised value). *)
Inductive Fault :=
  | OutOfBounds (offset : Z) (allocated : nat)
  | IntOverflow
  | Dangling (p : ptr)
  | Uninitialised.

Inductive Outcome (A : Type) :=
  | Ok (a : A) (s : Server)
  | Blocked
  | Undefined (f : Fault).
Arguments Ok {A} a s.
Arguments Blocked {A}.
Arguments Undefined {A} f.

Definition M (A : Type) := Server -> Outcome A.

Definition ret {A} (a : A) : M A := fun s => Ok a s.

Definition bind {A B} (m : M A) (k : A -> M B) : M B :=
  fun s =>
    match m s with
    | Ok a s' => k a s'
    | Blocked => Blocked
    | Undefined f => Undefined f
    end.

Notation "x <- m ;; k" := (bind m (fun x => k))
  (at level 100, m at next level, right associativity).
Notation "m ;;; k" := (bind m (fun _ => k))
  (at level 100, right associativity).

Definition modify (f : Server -> Server) : M unit := fun s => Ok tt (f s).
Definition gets {A} (f : Server -> A) : M A := fun s => Ok (f s) s.
Definition fault {A} (f : Fault) : M A := fun _ => Undefined f.

Definition MSG (msg : string) : M unit :=
  modify (fun s => set_log (log s ++ [msg]) s).

(** *** System calls *)

(** [read(fd, buf, count)] on a stream socket: the bytes available, at most
    [count] of them; 0 at end of stream; it waits when nothing is pending and
    the peer is still there; -1 on a descriptor that is not open.  The result
    is the count with the bytes stored. *)
Definition sys_read (fd : Z) (count : Z) : M (Z * list byte) := fun s =>
  match sockets s !! fd with
  | None => Ok (-1, []) s
  | Some sk =>
      match pending sk with
      | [] => if (count =? 0) || peer_closed sk then Ok (0, []) s else Blocked
      | _ =>
          let got := take (Z.to_nat count) (pending sk) in
          Ok (Z.of_nat (length got), got)
             (set_sockets
                (<[fd := mkSocket (drop (Z.to_nat count) (pending sk))
                                  (peer_closed sk)]> (sockets s)) s)
      end
  end.

(** [ioctl(fd, FIONREAD, &nread)]: the number of pending bytes.  On a
    descriptor that is not open the call fails and [nread] keeps its
    indeterminate value. *)
Definition ioctl_FIONREAD (fd : Z) : M Z := fun s =>
  match sockets s !! fd with
  | Some sk => Ok (Z.of_nat (length (pending sk))) s
  | None => Undefined Uninitialised
  end.

Definition sys_close (fd : Z) : M unit :=
  modify (fun s => set_closed (closed s ++ [fd])
                     (set_sockets (delete fd (sockets s)) s)).



(** *** [spd_audio_play] and [spd_audio_set_volume] *)

Inductive SwapResult :=
  | SwapDone (buf : list byte) (offsets : list Z)
  | SwapFault (f : Fault).

(** The loop [while (out_ptr < out_end) { c = out_ptr[0]; out_ptr[0] =
    out_ptr[1]; out_ptr[1] = c; out_ptr += 2; }], [out_ptr] counted as an
    offset into the allocation [buf]; [trips] is the number of times the
    condition holds.  [offsets] collects where a pair was exchanged. *)
Fixpoint swap_loop (trips : nat) (out_ptr : Z) (buf : list byte)
    (offsets : list Z) : SwapResult :=
  match trips with
  | O => SwapDone buf offsets
  | S k =>
      match buf !! Z.to_nat out_ptr, buf !! Z.to_nat (out_ptr + 1) with
      | Some c0, Some c1 =>
          swap_loop k (out_ptr + 2)
            (<[Z.to_nat (out_ptr + 1) := c0]> (<[Z.to_nat out_ptr := c1]> buf))
            (offsets ++ [out_ptr])
      | Some _, None => SwapFault (OutOfBounds (out_ptr + 1) (length buf))
      | None, _ => SwapFault (OutOfBounds out_ptr (length buf))
      end
  end.

(** What the loop is expected to compute, for stating its correctness: the
    first [k] pairs of a buffer with their two bytes exchanged, and the
    offsets of [k] consecutive pairs from [start]. *)
Fixpoint swap_pairs (k : nat) (l : list byte) : list byte :=
  match k, l with
  | S k', a :: b :: r => b :: a :: swap_pairs k' r
  | _, _ => l
  end.

Definition pair_offsets (start k : nat) : list Z :=
  (fun i => Z.of_nat (start + 2 * i)) <$> seq 0 k.

(** Trip count of the loop started at offset 0 with bound [out_end]. *)
Definition swap_trips (out_end : Z) : nat := Z.to_nat ((out_end + 1) / 2).

(** The conversion block of [spd_audio_play]; the bound is computed on
    [int]. *)
Definition swap_samples (track : AudioTrack) : M AudioTrack :=
  let twice := num_samples track * 2 in
  if negb (in_int_range twice) then fault IntOverflow
  else
    let out_end := twice * num_channels track in
    if negb (in_int_range out_end) then fault IntOverflow
    else
      match swap_loop (swap_trips out_end) 0 (samples track) [] with
      | SwapDone buf offsets =>
          modify (fun s => set_swaps (swaps s ++ offsets) s);;;
          ret (mkAudioTrack (bits track) (num_channels track)
                 (sample_rate track) (num_samples track) buf)
      | SwapFault f => fault f
      end.

Definition spd_audio_play (id : option AudioID) (track : AudioTrack)
    (fmt : AudioFormat) : M Z :=
  match id with
  | Some dev =>
      match function_play dev with
      | Some play =>
          track <- (if fmt =? format dev then ret track else swap_samples track);;
          modify (fun s => set_played (played s ++ [track]) s);;;
          ret (play track)
      | None => ret (-1)
      end
  | None => ret (-1)
  end.

Definition spd_audio_set_volume (id : option AudioID) (vol : Z)
    : Z * option AudioID :=
  if (vol >? 100) || (vol <? -100) then (-1, id)
  else
    match id with
    | None => (-1, None)
    | Some dev => (0, Some (mkAudioID (function_play dev) (format dev) vol))
    end.

(** *** The decoder: [play_audio] *)

Inductive Line :=
  | LineDone (buf : list byte) (rest : list byte)
  | LineEnd
  | LineOverflow.

(** The header loop, one [read(fd, buf + bytes, 1)] per step; [buflen] is the
    [int] that holds the size of the buffer, [input] is what the socket still
    holds and [buf] the [bytes] bytes stored so far.  When [++bytes] reaches
    [buflen] (compared as [size_t], which changes nothing for a count of
    stored bytes) the loop runs [buflen *= 2] and reallocates; a product
    outside the range of [int] is a signed overflow.  [LineDone] carries
    the buffer with its terminating NUL and the bytes left in the socket;
    [LineEnd] is a [read] that finds nothing; [LineOverflow] is the overflow
    of [buflen]. *)
Fixpoint read_line (buflen : Z) (input : list byte) (buf : list byte) : Line :=
  match input with
  | [] => LineEnd
  | c :: rest =>
      if (c =? LF) && bool_decide (1 <= length buf)%nat
         && bool_decide (last buf = Some CR)
      then LineDone (buf ++ [c; NUL]) rest
      else
        let buf' := buf ++ [if c =? NUL then QUESTION_MARK else c] in
        if Z.of_nat (length buf') =? buflen
        then
          if in_int_range (buflen * 2) then read_line (buflen * 2) rest buf'
          else LineOverflow
        else read_line buflen rest buf'
  end.

Section Decoder.

(** The value of the macro [BUF_SIZE], the size the header buffer starts
    with; the macro is defined in a header that is not among the sources. *)
Variable BUF_SIZE : Z.

Definition read_header (fd : Z) : M (option (list byte)) := fun s =>
  match sockets s !! fd with
  | None => Ok None s
  | Some sk =>
      match read_line BUF_SIZE (pending sk) [] with
      | LineDone buf rest =>
          Ok (Some buf)
             (set_sockets (<[fd := mkSocket rest (peer_closed sk)]> (sockets s)) s)
      | LineEnd =>
          if peer_closed sk
          then Ok None (set_sockets (<[fd := mkSocket [] true]> (sockets s)) s)
          else Blocked
      | LineOverflow => Undefined IntOverflow
      end
  end.

(** Modelled from the spec: the macro [NEWLINE] is defined in a header that
    is not among the sources; the keep-alive line is the literal ACK followed
    by CR LF. *)
Definition ACK_NEWLINE : list byte := bytes_of_string "ACK" ++ [CR; LF].

(** The five header fields as [play_audio] stores them: the format and the
    four [int] members of the track. *)
Record Metadata := mkMetadata {
  md_format : AudioFormat;
  md_bits : Z;
  md_num_channels : Z;
  md_sample_rate : Z;
  md_num_samples : Z
}.

Definition parse_metadata (line : list byte) : option Metadata :=
  match g_strsplit line COLON 5 with
  | m0 :: m1 :: m2 :: m3 :: m4 :: _ =>
      Some (mkMetadata (to_int (strtol m0)) (to_int (strtol m1))
              (to_int (strtol m2)) (to_int (strtol m3)) (to_int (strtol m4)))
  | _ => None
  end.

(** [g_malloc0_n(n, 2)] followed by a [read] that stored [got]. *)
Definition fill_samples (n : Z) (got : list byte) : list byte :=
  got ++ replicate (Z.to_nat (n * 2) - length got)%nat 0.

Definition play_audio (fd : Z) : M Z :=
  line <- read_header fd;;
  match line with
  | None => MSG "ERROR: Read 0 bytes from fd";;; ret (-1)
  | Some buf =>
      if bool_decide (cstr buf = ACK_NEWLINE) then ret 0
      else
        match parse_metadata (cstr buf) with
        | None => MSG "Error: Unable to read Audiotrack metadata!";;; ret (-1)
        | Some md =>
            if md_num_samples md <=? 0
            then MSG "Error: num_samples is invalid";;; ret (-1)
            else
              r <- sys_read fd (md_num_samples md * 2);;
              let '(n, got) := r in
              let bytes_read := to_int n in
              let track :=
                mkAudioTrack (md_bits md) (md_num_channels md)
                  (md_sample_rate md) (md_num_samples md)
                  (fill_samples (md_num_samples md) got) in
              if negb (to_size_t bytes_read =? md_num_samples md * 2)
              then MSG "Error: num_samples doesn't match bytes read";;; ret (-1)
              else
                id <- gets audio_id;;
                status <- spd_audio_play id track (md_format md);;
                if status <? 0
                then MSG "Error: unable to play audio";;; ret (-1)
                else ret 0
        end
  end.

(** *** Connections *)

(** [g_queue_remove]: drops the first element equal to [p]. *)
Fixpoint g_queue_remove (p : ptr) (q : list ptr) : list ptr :=
  match q with
  | [] => []
  | x :: r => if x =? p then r else x :: g_queue_remove p r
  end.

Definition deref (p : ptr) : M TAudioFDSetElement := fun s =>
  match heap s !! p with
  | Some r => Ok r s
  | None => Undefined (Dangling p)
  end.

Definition free_fd_set (data : option ptr) : M unit :=
  match data with
  | None => ret tt
  | Some p =>
      fd_set <- deref p;;
      sys_close (fd fd_set);;;
      match source fd_set with
      | Some src => modify (fun s => set_destroyed (destroyed s ++ [src]) s)
      | None => ret tt
      end;;;
      modify (fun s => set_heap (delete p (heap s)) s)
  end.

(** The readability handler of an accepted connection.  Its result tells
    the main loop whether to keep the source ([TRUE]) or to drop it. *)
Definition audio_process_incoming (fd0 : Z) (user_data : ptr) : M bool :=
  fd_set <- deref user_data;;
  nread <- ioctl_FIONREAD (fd fd_set);;
  if nread =? 0 then
    MSG "Info: Module has gone.";;;
    modify (fun s => set_module_data_list
                       (g_queue_remove user_data (module_data_list s)) s);;;
    free_fd_set (Some user_data);;;
    ret false
  else
    status <- play_audio (fd fd_set);;
    (if status =? -1 then MSG "Error: Failed to serve client on fd!" else ret tt);;;
    ret true.

End Decoder.

(** [g_queue_free_full(module_data_list, free_fd_set)], the sweep over the
    remaining records when the playback thread ends. *)
Fixpoint g_queue_free_full (q : list ptr) : M unit :=
  match q with
  | [] => ret tt
  | p :: r => free_fd_set (Some p);;; g_queue_free_full r
  end.

(** *** Relations used to state what an operation leaves alone *)

Definition keeps_connections (s s' : Server) : Prop :=
  heap s' = heap s /\
  module_data_list s' = module_data_list s /\
  closed s' = closed s /\
  destroyed s' = destroyed s /\
  audio_id s' = audio_id s /\
  dom (sockets s') = dom (sockets s).

Definition preserves {A} (m : M A) : Prop :=
  forall s a s', m s = Ok a s' -> keeps_connections s s'.

(** The descriptor of the record at [p], when there is one. *)
Definition fd_at (s : Server) (p : ptr) : option Z := fd <$> heap s !! p.

(** *** Sample data

    A little-endian device whose backend reports success, a server with one
    accepted connection (descriptor 7, record at address 100, source 55)
    whose socket holds [data], and a few protocol lines. *)
Definition dev_le : AudioID := mkAudioID (Some (fun _ => 0)) SPD_AUDIO_LE 85.

Definition server_with (data : list byte) (peer_gone : bool) : Server :=
  mkServer {[ 7 := mkSocket data peer_gone ]}
    {[ 100 := mkFDSet 7 (Some 55) None ]} [100] (Some dev_le) [] [] [] [] [].

Definition header (fields : string) : list byte :=
  bytes_of_string fields ++ [CR; LF].


End AudioServer.

(** ** The audio server: accepting connections, the final sweep, and
    relations for stating what the decoder does to a socket *)
Module ServerLoop.
Import AudioServer.

(** The byte the header loop stores for a byte it reads. *)
Definition stored (c : byte) : byte := if c =? NUL then QUESTION_MARK else c.

(** Number of occurrences of a byte. *)
Fixpoint count_byte (d : byte) (l : list byte) : nat :=
  match l with
  | [] => O
  | c :: r => if c =? d then S (count_byte d r) else count_byte d r
  end.

(** [respects R m]: whenever [m] returns, the states before and after are
    related by [R]. *)
Definition respects {A} (R : Server -> Server -> Prop) (m : M A) : Prop :=
  forall s a s', m s = Ok a s' -> R s s'.

(** The socket [fd], if open, is still open, holds no more pending bytes than
    before, and its peer is in the same condition. *)
Definition drains (fd : Z) (s s' : Server) : Prop :=
  forall sk, sockets s !! fd = Some sk ->
    exists sk', sockets s' !! fd = Some sk' /\
      (length (pending sk') <= length (pending sk))%nat /\
      peer_closed sk' = peer_closed sk.

(** [speechd_audio_connection_new(audio_server_socket)].  What [accept]
    answers is [accepted]: nothing when it fails, otherwise the new
    descriptor with the kernel's side of the connection.
    [default_audio_fd_set] (defined outside this file) answers [fresh]: NULL,
    or the address of a new record with its default content;
    [new_source] is the source [g_unix_fd_source_new] creates. *)
Definition speechd_audio_connection_new (audio_server_socket : Z)
    (accepted : option (Z * Socket))
    (fresh : option (ptr * TAudioFDSetElement)) (new_source : Z) : M Z :=
  match accepted with
  | None =>
      MSG "Error: Can't handle connection request of a module for audio";;;
      ret (-1)
  | Some (module_socket, sk) =>
      modify (fun s => set_sockets (<[module_socket := sk]> (sockets s)) s);;;
      match fresh with
      | None =>
          MSG "Error: Failed to create a record in fd_settings for the module for audio";;;
          ret (-1)
      | Some (new_fd_set, defaults) =>
          modify (fun s =>
                    set_heap
                      (<[new_fd_set := mkFDSet module_socket (Some new_source)
                                         (output_module defaults)]> (heap s)) s);;;
          modify (fun s =>
                    set_module_data_list (module_data_list s ++ [new_fd_set]) s);;;
          ret 0
      end
  end.

(** The connection set is consistent: no record is queued twice, every
    queued record is allocated and its descriptor open, and two queued
    records never share a descriptor. *)
Definition connections_wf (s : Server) : Prop :=
  NoDup (module_data_list s) /\
  (forall p, p ∈ module_data_list s ->
     exists rec, heap s !! p = Some rec /\ is_Some (sockets s !! fd rec)) /\
  (forall p q rp rq,
     p ∈ module_data_list s -> q ∈ module_data_list s ->
     heap s !! p = Some rp -> heap s !! q = Some rq ->
     fd rp = fd rq -> p = q).

(** A server that found no backend to open. *)
Definition set_audio_id_none (s : Server) : Server :=
  mkServer (sockets s) (heap s) (module_data_list s) None (played s) (swaps s)
    (closed s) (destroyed s) (log s).

(** Sample data: a server with two connections, descriptors 7 and 8. *)
Definition server_two (data7 data8 : list byte) : Server :=
  mkServer {[ 7 := mkSocket data7 false; 8 := mkSocket data8 true ]}
    {[ 100 := mkFDSet 7 (Some 55) None; 101 := mkFDSet 8 (Some 56) None ]}
    [100; 101] (Some dev_le) [] [] [] [] [].

End ServerLoop.

(** ** Voice selection: [baratinoo.c] *)
Module Voices.

(** [BaratinooVoiceInfo], with the members the file reads. *)
Record BaratinooVoiceInfo := mkVoiceInfo {
  name : string;
  language : string;
  iso639 : string;
  gender : string;
  (** 0 when the engine does not tell *)
  age : Z;
  variant : string
}.

(** [SPDVoiceType]; [SPD_VOICE_OTHER] stands for any value that is none of
    the eight named ones (the [default] label of the switches). *)
Inductive SPDVoiceType :=
  | SPD_MALE1 | SPD_MALE2 | SPD_MALE3
  | SPD_FEMALE1 | SPD_FEMALE2 | SPD_FEMALE3
  | SPD_CHILD_MALE | SPD_CHILD_FEMALE
  | SPD_VOICE_OTHER.

(** [strcmp(a, b) == 0]. *)
Definition streq (a b : string) : bool := String.eqb a b.

(** The gender a voice code asks for. *)
Definition wanted_gender (voice_code : SPDVoiceType) : string :=
  match voice_code with
  | SPD_FEMALE1 | SPD_FEMALE2 | SPD_FEMALE3 | SPD_CHILD_FEMALE => "female"
  | _ => "male"
  end.

(** [sort_voice(a, b, lang, voice_code)]: negative when [a] is the better
    match, positive when [b] is. *)
Definition sort_voice (a b : BaratinooVoiceInfo) (lang : string)
    (voice_code : SPDVoiceType) : Z :=
  let cmp := 0 in
  let cmp := if streq lang (iso639 a) then cmp - 1 else cmp in
  let cmp := if streq lang (iso639 b) then cmp + 1 else cmp in
  let cmp :=
    if negb (streq (gender a) (gender b)) then
      let g := wanted_gender voice_code in
      let cmp := if streq g (gender a) then cmp - 1 else cmp in
      if streq g (gender b) then cmp + 1 else cmp
    else cmp in
  match voice_code with
  | SPD_CHILD_MALE | SPD_CHILD_FEMALE =>
      let cmp := if negb (age a =? 0) && (age a <=? 15) then cmp - 1 else cmp in
      if negb (age b =? 0) && (age b <=? 15) then cmp + 1 else cmp
  | _ =>
      if negb (age a =? 0) && negb (age b =? 0) then
        let cmp := if age a >? 15 then cmp - 1 else cmp in
        if age b >? 15 then cmp + 1 else cmp
      else cmp
  end.

(** The first switch of [baratinoo_set_language_and_voice], with its
    fall-through: which of the equally good voices is wanted. *)
Definition voice_offset (voice_code : SPDVoiceType) : Z :=
  match voice_code with
  | SPD_MALE3 | SPD_FEMALE3 => 2
  | SPD_MALE2 | SPD_FEMALE2 => 1
  | _ => 0
  end.

(** State of the selection loop after its first round. *)
Record Selection := mkSelection {
  best_match : Z;
  best_info : BaratinooVoiceInfo;
  nth_match : Z
}.

(** One round of the loop for [i > 0], [info] being voice [i]. *)
Definition selection_step (lang : string) (voice_code : SPDVoiceType)
    (offset : Z) (i : Z) (info : BaratinooVoiceInfo) (st : Selection)
    : Selection :=
  let cmp := sort_voice (best_info st) info lang voice_code in
  if cmp >=? 0 then
    let nth := if cmp >? 0 then 0 else nth_match st in
    if nth <=? offset
    then mkSelection i info (nth + 1)
    else mkSelection (best_match st) (best_info st) (nth + 1)
  else st.

(** The rounds [i], [i + 1], ... over the remaining voices. *)
Fixpoint selection_loop (lang : string) (voice_code : SPDVoiceType)
    (offset : Z) (i : Z) (voices : list BaratinooVoiceInfo) (st : Selection)
    : Selection :=
  match voices with
  | [] => st
  | info :: rest =>
      selection_loop lang voice_code offset (i + 1) rest
        (selection_step lang voice_code offset i info st)
  end.

(** [baratinoo_set_language_and_voice(lang, voice_code)]: [voices] is what
    the engine enumerates, the result is the new [baratinoo_voice].  The
    round for [i == 0] takes the first voice; without any voice
    [best_match] stays -1 and the voice is not changed. *)
Definition baratinoo_set_language_and_voice (voices : list BaratinooVoiceInfo)
    (lang : string) (voice_code : SPDVoiceType) (baratinoo_voice : Z) : Z :=
  let offset := voice_offset voice_code in
  match voices with
  | [] => baratinoo_voice
  | first :: rest =>
      let st := selection_loop lang voice_code offset 1 rest
                  (mkSelection 0 first 1) in
      if best_match st <? 0 then baratinoo_voice else best_match st
  end.

(** The loop of [baratinoo_set_synthesis_voice] from index [i]. *)
Fixpoint find_voice_named (synthesis_voice : string) (i : Z)
    (voices : list BaratinooVoiceInfo) : option Z :=
  match voices with
  | [] => None
  | info :: rest =>
      if streq synthesis_voice (name info) then Some i
      else find_voice_named synthesis_voice (i + 1) rest
  end.

(** [baratinoo_set_synthesis_voice(synthesis_voice)]; [None] is NULL. *)
Definition baratinoo_set_synthesis_voice (voices : list BaratinooVoiceInfo)
    (synthesis_voice : option string) (baratinoo_voice : Z) : Z :=
  match synthesis_voice with
  | None => baratinoo_voice
  | Some wanted =>
      match find_voice_named wanted 0 voices with
      | Some i => i
      | None => baratinoo_voice
      end
  end.

(** What a voice scores for a request when ages need no pairing: one point
    each for the language, for the gender and for the age class. *)
Definition score (lang : string) (voice_code : SPDVoiceType)
    (v : BaratinooVoiceInfo) : Z :=
  (if streq lang (iso639 v) then 1 else 0)
  + (if streq (wanted_gender voice_code) (gender v) then 1 else 0)
  + match voice_code with
    | SPD_CHILD_MALE | SPD_CHILD_FEMALE =>
        if negb (age v =? 0) && (age v <=? 15) then 1 else 0
    | _ => if age v >? 15 then 1 else 0
    end.

(** Number of voices of a list that score exactly [m]. *)
Fixpoint count_scoring (lang : string) (voice_code : SPDVoiceType) (m : Z)
    (l : list BaratinooVoiceInfo) : nat :=
  match l with
  | [] => O
  | v :: r =>
      if score lang voice_code v =? m
      then S (count_scoring lang voice_code m r)
      else count_scoring lang voice_code m r
  end.

(** Two voices whose ages [sort_voice] can compare one by one: always for a
    child voice code, otherwise when both ages are known or neither voice is
    counted as an adult. *)
Definition ages_comparable (voice_code : SPDVoiceType)
    (a b : BaratinooVoiceInfo) : Prop :=
  voice_code = SPD_CHILD_MALE \/ voice_code = SPD_CHILD_FEMALE \/
  (age a <> 0 /\ age b <> 0) \/ (age a <= 15 /\ age b <= 15).

(** Sample voices. *)
Definition voice_fr_f : BaratinooVoiceInfo :=
  mkVoiceInfo "Agnes" "French" "fr" "female" 30 "".
Definition voice_fr_m : BaratinooVoiceInfo :=
  mkVoiceInfo "Philippe" "French" "fr" "male" 40 "".
Definition voice_en_m : BaratinooVoiceInfo :=
  mkVoiceInfo "Marc" "English" "en" "male" 40 "".
Definition voice_fr_child : BaratinooVoiceInfo :=
  mkVoiceInfo "Loic" "French" "fr" "male" 10 "".
Definition voice_fr_m2 : BaratinooVoiceInfo :=
  mkVoiceInfo "Yann" "French" "fr" "male" 35 "".
Definition sample_voices : list BaratinooVoiceInfo :=
  [voice_en_m; voice_fr_f; voice_fr_m; voice_fr_child; voice_fr_m2].

End Voices.

(** ** The synthesis thread: [_baratinoo_speak] *)
Module EngineLoop.
Import Baratinoo.

(** [BARATINOOC_STATE]: the four states the file names, and any other. *)
Inductive BARATINOOC_STATE :=
  | BARATINOO_INITIALIZED
  | BARATINOO_READY
  | BARATINOO_RUNNING
  | BARATINOO_EVENT
  | BARATINOO_OTHER_STATE.

Definition still_running (state : BARATINOOC_STATE) : bool :=
  match state with
  | BARATINOO_RUNNING | BARATINOO_EVENT => true
  | _ => false
  end.

(** What takes effect while one [BCprocessLoop] call runs: the engine hands a
    chunk to the output callback, or a request thread runs [module_stop]. *)
Inductive Happening :=
  | Chunk (address : list byte) (length : Z)
  | StopRequest.

(** One [BCprocessLoop] call: what happens during it and the state it
    returns. *)
Record Slice := mkSlice {
  happenings : list Happening;
  outcome : BARATINOOC_STATE
}.

(** The engine's answers that do not depend on the text being processed. *)
Record Engine := mkEngine {
  BCinputTextBufferSetInEngine : BCinputTextBuffer -> BARATINOOC_STATE;
  BCpurge : BARATINOOC_STATE
}.

Inductive SpeechEvent := EventBegin | EventEnd.

(** The thread's view: the session, the events reported with
    [module_report_event_begin] and [module_report_event_end], and how often
    [BCpurge] was called. *)
Record Thread := mkThread {
  session : Session;
  events : list SpeechEvent;
  purges : nat
}.

Definition with_session (f : Session -> Session) (t : Thread) : Thread :=
  mkThread (f (session t)) (events t) (purges t).

Definition report (e : SpeechEvent) (t : Thread) : Thread :=
  mkThread (session t) (events t ++ [e]) (purges t).

Definition happen (h : Happening) (t : Thread) : Thread :=
  match h with
  | Chunk address length =>
      with_session (fun s => snd (baratinoo_output_signal_cb address length s)) t
  | StopRequest => with_session (fun s => snd (module_stop s)) t
  end.

Definition sem_wait_taken (s : Session) : Session :=
  mkSession (baratinoo_stop_requested s) (baratinoo_close_requested s)
    (Nat.pred (baratinoo_semaphore s)) (baratinoo_text_buffer s)
    (baratinoo_voice s) (submitted s) (deleted s) (tts_output s).

(** The [do ... while] loop.  [script] holds the [BCprocessLoop] calls still
    to come and [state] the last state obtained.  The result is [None] when
    [fuel] rounds do not reach the end of the loop or when the script has no
    slice for a call. *)
Fixpoint tts_loop (fuel : nat) (engine : Engine) (script : list Slice)
    (state : BARATINOOC_STATE) (t : Thread)
    : option (BARATINOOC_STATE * list Slice * Thread) :=
  match fuel with
  | O => None
  | S fuel' =>
      if baratinoo_close_requested (session t) then Some (state, script, t)
      else if baratinoo_stop_requested (session t) then
        let t := mkThread (set_stop_requested false (session t)) (events t)
                   (S (purges t)) in
        let state := BCpurge engine in
        if still_running state then tts_loop fuel' engine script state t
        else Some (state, script, t)
      else
        match script with
        | [] => None
        | slice :: script' =>
            let t := foldl (fun t h => happen h t) t (happenings slice) in
            let state := outcome slice in
            if still_running state then tts_loop fuel' engine script' state t
            else Some (state, script', t)
        end
  end.

Inductive Pass :=
  (** the loop test found the close flag set: the thread leaves *)
  | ThreadLeaves
  (** [sem_wait] finds the semaphore at 0 *)
  | ThreadWaits
  (** the loop body ran to its end; the script left over *)
  | PassDone (script : list Slice) (t : Thread)
  (** the inner loop does not end on this script *)
  | PassUnfinished.

(** One round of [while (!baratinoo_close_requested) { ... }]. *)
Definition speak_thread_pass (engine : Engine) (script : list Slice)
    (t : Thread) : Pass :=
  if baratinoo_close_requested (session t) then ThreadLeaves
  else
    match baratinoo_semaphore (session t) with
    | O => ThreadWaits
    | S _ =>
        let t := with_session sem_wait_taken t in
        match baratinoo_text_buffer (session t) with
        | None => PassDone script t
        | Some buffer =>
            let state := BCinputTextBufferSetInEngine engine buffer in
            match state with
            | BARATINOO_READY =>
                let t := report EventBegin t in
                match tts_loop (2 * length script + 2) engine script state t with
                | None => PassUnfinished
                | Some (_, script', t) =>
                    let t := report EventEnd t in
                    let t := with_session (BCinputTextBufferDelete buffer) t in
                    let t := with_session (set_text_buffer None) t in
                    PassDone script' t
                end
            | _ => PassDone script t
            end
        end
    end.

(** The chunks of a list of happenings, as the tracks the output callback
    builds from them. *)
Definition track_of (address : list byte) (length : Z) : AudioTrack * AudioFormat :=
  (mkAudioTrack 16 1 16000 (Z.quot length 2) address, SPD_AUDIO_LE).

Fixpoint tracks_of (hs : list Happening) : list (AudioTrack * AudioFormat) :=
  match hs with
  | [] => []
  | Chunk address length :: r => track_of address length :: tracks_of r
  | StopRequest :: r => tracks_of r
  end.

(** The session with some more tracks handed to [module_tts_output]. *)
Definition push_tracks (l : list (AudioTrack * AudioFormat)) (t : Thread) : Thread :=
  with_session
    (fun s => mkSession (baratinoo_stop_requested s) (baratinoo_close_requested s)
                (baratinoo_semaphore s) (baratinoo_text_buffer s)
                (baratinoo_voice s) (submitted s) (deleted s)
                (tts_output s ++ l)) t.

Definition only_chunks (hs : list Happening) : Prop :=
  forall h, h ∈ hs -> h <> StopRequest.

(** Sample data: an engine that accepts every buffer and stops when purged,
    and an utterance of two slices. *)
Definition engine_ok : Engine :=
  mkEngine (fun _ => BARATINOO_READY) BARATINOO_INITIALIZED.
Definition thread_of (s : Session) : Thread := mkThread s [] 0.
Definition script_two : list Slice :=
  [mkSlice [Chunk [1; 2; 3; 4] 4] BARATINOO_RUNNING;
   mkSlice [Chunk [5; 6] 2] BARATINOO_INITIALIZED].
Definition script_stopped : list Slice :=
  [mkSlice [Chunk [1; 2; 3; 4] 4; StopRequest; Chunk [7; 8] 2] BARATINOO_RUNNING;
   mkSlice [Chunk [5; 6] 2] BARATINOO_INITIALIZED].
Definition session_queued : Session :=
  mkSession false false 1 (Some 1) 0 [(1, "hello"%string)] [] [].

End EngineLoop.

(** ** Conversion of SSML to the engine's markup: the later revision of
    [baratinoo.c] *)
Module Markup.

Definition BACKSLASH : byte := 92.

(** The loop of [attribute_index] from index [i]. *)
Fixpoint attribute_index_from (i : Z) (names : list (list byte))
    (name : list byte) : Z :=
  match names with
  | [] => -1
  | n :: r =>
      if bool_decide (n = name) then i
      else attribute_index_from (i + 1) r name
  end.

(** [attribute_index(names, name)]: [names] is a NULL-terminated array of
    strings, or NULL. *)
Definition attribute_index (names : option (list (list byte)))
    (name : list byte) : Z :=
  match names with
  | None => -1
  | Some l => attribute_index_from 0 l name
  end.

(** What [ssml2baratinoo_text] appends for one byte of text. *)
Definition escaped (c : byte) : list byte :=
  if c =? BACKSLASH then bytes_of_string "\\{}" else [c].

(** [ssml2baratinoo_text(ctx, text, len, buffer, error)]: [text] holds the
    [len] bytes, the result is the buffer afterwards. *)
Fixpoint ssml2baratinoo_text (text : list byte) (buffer : list byte)
    : list byte :=
  match text with
  | [] => buffer
  | c :: r => ssml2baratinoo_text r (buffer ++ escaped c)
  end.

(** [ssml2baratinoo_start_element]: the attributes are given as the pairs of
    the two parallel arrays. *)
Definition ssml2baratinoo_start_element (element : list byte)
    (attributes : list (list byte * list byte)) (buffer : list byte)
    : list byte :=
  let value_of name :=
    let i := attribute_index (Some (fst <$> attributes)) name in
    if i <? 0 then []
    else default [] (snd <$> attributes !! Z.to_nat i) in
  if bool_decide (element = bytes_of_string "mark") then
    buffer ++ bytes_of_string "\mark{" ++ value_of (bytes_of_string "name")
           ++ bytes_of_string "}"
  else if bool_decide (element = bytes_of_string "emphasis") then
    buffer ++ bytes_of_string "\emph<{" ++ value_of (bytes_of_string "level")
           ++ bytes_of_string "}"
  else buffer.

Definition ssml2baratinoo_end_element (element : list byte)
    (buffer : list byte) : list byte :=
  if bool_decide (element = bytes_of_string "emphasis")
  then buffer ++ bytes_of_string "\emph>{}"
  else buffer.

End Markup.

(** * Start of the playback thread

    The part of [_speechd_play] that runs before the main loop: the
    configured output methods are tried in order with [spd_audio_open] until
    one opens.  The dynamic loader and the plugins are outside this file;
    they appear as a [Loader] that says what each call gives. *)
Module Startup.
Import AudioServer.

Definition COMMA : byte := 44.

(** [spd_audio_plugin_t], with the members [spd_audio_open] uses: the name
    (NULL when the plugin has none) and what [open(pars)] returns. *)
Record spd_audio_plugin_t := mkPlugin {
  plugin_name : option string;
  plugin_open : option AudioID
}.

(** What the libltdl calls give: the two status codes, the handle
    [my_dlopenextglobal] finds for a library name (NULL when it finds none)
    and, for a handle, the entry point [lt_dlsym] finds (NULL when the symbol
    is missing) together with what calling it returns (NULL or a plugin). *)
Record Loader := mkLoader {
  lt_dlinit : Z;
  lt_dlsetsearchpath : Z;
  my_dlopenextglobal : list byte -> option Z;
  lt_dlsym : Z -> option (option spd_audio_plugin_t)
}.

(** The reasons [spd_audio_open] stores in [*error]. *)
Inductive OpenError :=
  | DlinitFailed
  | SetsearchpathFailed
  | CannotOpenPlugin (name : list byte)
  | CannotFindSymbol
  | PluginNotFound (name : list byte)
  | CouldntOpenPlugin (name : list byte).

Section Open.

(** The value of the macro [SPD_AUDIO_LIB_PREFIX]. *)
Variable SPD_AUDIO_LIB_PREFIX : list byte.
Variable loader : Loader.
(** Whether the build has [BYTE_ORDER == BIG_ENDIAN]. *)
Variable big_endian_host : bool.

(** [spd_audio_open(name, pars, &error)]: the device, or NULL with the
    reason.  The device's format is set to the host's byte order whatever
    the plugin stored there. *)
Definition spd_audio_open (name : list byte) : option AudioID * option OpenError :=
  if negb (lt_dlinit loader =? 0) then (None, Some DlinitFailed)
  else if negb (lt_dlsetsearchpath loader =? 0) then (None, Some SetsearchpathFailed)
  else
    match my_dlopenextglobal loader (SPD_AUDIO_LIB_PREFIX ++ name) with
    | None => (None, Some (CannotOpenPlugin name))
    | Some lt_h =>
        match lt_dlsym loader lt_h with
        | None => (None, Some CannotFindSymbol)
        | Some p =>
            match p with
            | None => (None, Some (PluginNotFound name))
            | Some plugin =>
                match plugin_name plugin with
                | None => (None, Some (PluginNotFound name))
                | Some _ =>
                    match plugin_open plugin with
                    | None => (None, Some (CouldntOpenPlugin name))
                    | Some id =>
                        (Some (mkAudioID (function_play id)
                                 (if big_endian_host then SPD_AUDIO_BE
                                  else SPD_AUDIO_LE)
                                 (volume id)),
                         None)
                    end
                end
            end
        end
    end.

Definition set_audio_id (id : option AudioID) (s : Server) : Server :=
  mkServer (sockets s) (heap s) (module_data_list s) id (played s) (swaps s)
    (closed s) (destroyed s) (log s).

(** The loop [while (NULL != outputs[i])] of [_speechd_play]: every turn
    stores the result of [spd_audio_open] in [audio_id]; the first device
    that opens gets volume 85 and ends the loop.  [tried] collects the names
    given to [spd_audio_open]; the result says whether a device was found,
    with the names tried and the last [error]. *)
Fixpoint open_outputs (outputs : list (list byte)) (tried : list (list byte))
    (error : option OpenError) : M (bool * list (list byte) * option OpenError) :=
  match outputs with
  | [] => ret (false, tried, error)
  | name :: rest =>
      let '(id, error) := spd_audio_open name in
      modify (set_audio_id id);;;
      match id with
      | Some _ =>
          modify (fun s => set_audio_id (spd_audio_set_volume (audio_id s) 85).2 s);;;
          ret (true, tried ++ [name], error)
      | None => open_outputs rest (tried ++ [name]) error
      end
  end.

(** [_speechd_play] up to [g_main_loop_run]: the queue of connections starts
    empty; without a configured output method the thread returns at once
    ([None]); otherwise the methods of the comma-separated list are tried and
    the thread enters its main loop whether or not a device was found.  The
    result carries the names tried. *)
Definition speechd_play_start (audio_output_method : option (list byte))
    : M (option (list (list byte))) :=
  modify (set_module_data_list []);;;
  match audio_output_method with
  | None =>
      MSG "Sound output method specified in configuration not supported. Please choose 'oss', 'alsa', 'nas', 'libao' or 'pulse'.";;;
      ret None
  | Some methods =>
      r <- open_outputs (g_strsplit methods COMMA 0) [] None;;
      let '(found_audio_module, tried, _) := r in
      (if found_audio_module : bool then ret tt
       else MSG "Opening sound device failed.");;;
      ret (Some tried)
  end.

End Open.

(** Sample data: a loader that knows three libraries; the first has no entry
    point, the second opens a big-endian device at volume 0, the third would
    open too. *)
Definition loader_three : Loader :=
  mkLoader 0 0
    (fun libname =>
       if bool_decide (libname = bytes_of_string "spd_oss") then Some 1
       else if bool_decide (libname = bytes_of_string "spd_alsa") then Some 2
       else if bool_decide (libname = bytes_of_string "spd_pulse") then Some 3
       else None)
    (fun lt_h =>
       if lt_h =? 1 then None
       else if lt_h =? 2
       then Some (Some (mkPlugin (Some "alsa"%string)
                          (Some (mkAudioID (Some (fun _ => 0)) SPD_AUDIO_BE 0))))
       else Some (Some (mkPlugin (Some "pulse"%string)
                          (Some (mkAudioID (Some (fun _ => 0)) SPD_AUDIO_LE 0))))).

Definition server_fresh : Server :=
  mkServer ∅ ∅ [] None [] [] [] [] [].

End Startup.

(** * Properties of the synthesis session *)
Module BaratinooFacts.
Import Baratinoo.

Section Engine.

Variable BCinputTextBufferNew : Z -> option BCinputTextBuffer.
Variable BCinputTextBufferInit : BCinputTextBuffer -> string -> bool.
Variable module_strip_ssml : string -> string.
Variable update_voice : Z -> Z.

Local Abbreviation speak :=
  (module_speak BCinputTextBufferNew BCinputTextBufferInit module_strip_ssml
     update_voice).

(** An accepted request, for contrast with the rejection below: the text is
    handed to the engine, the semaphore is posted once and the byte count is
    returned. *)
Lemma module_speak_accepted data bytes msgtype s b :
  baratinoo_speaking s = false ->
  BCinputTextBufferNew (update_voice (baratinoo_voice s)) = Some b ->
  BCinputTextBufferInit b (module_strip_ssml data) = true ->
  let '(r, s') := speak data bytes msgtype s in
  r = to_int bytes /\
  baratinoo_text_buffer s' = Some b /\
  baratinoo_stop_requested s' = false /\
  submitted s' = submitted s ++ [(b, module_strip_ssml data)] /\
  baratinoo_semaphore s' = S (baratinoo_semaphore s).
Proof.
  intros Hidle Hnew Hinit. unfold module_speak. rewrite Hidle. simpl.
  rewrite Hnew, Hinit. simpl. auto.
Qed.

(** C5: [module_speak] called while a message is being spoken (an input
    buffer is pending) returns 0 and changes nothing: the text is not handed
    to the engine nor queued, the pending buffer and the stop flag are as
    before, and the semaphore is not posted. *)
Theorem module_speak_busy_rejected data bytes msgtype s :
  baratinoo_speaking s = true ->
  let '(r, s') := speak data bytes msgtype s in
  r = 0 /\ s' = s /\
  submitted s' = submitted s /\
  baratinoo_text_buffer s' = baratinoo_text_buffer s /\
  baratinoo_stop_requested s' = baratinoo_stop_requested s /\
  baratinoo_semaphore s' = baratinoo_semaphore s.
Proof.
  intros Hbusy. unfold module_speak. rewrite Hbusy. repeat split.
Qed.

End Engine.

Lemma module_speak_busy_rejected_witness :
  baratinoo_speaking session_stopping = true /\
  let '(r, s') :=
    module_speak stub_new stub_init stub_strip stub_voice "again" 5 0
      session_stopping in
  r = 0 /\ s' = session_stopping /\
  submitted s' = submitted session_stopping /\
  baratinoo_text_buffer s' = baratinoo_text_buffer session_stopping /\
  baratinoo_stop_requested s' = baratinoo_stop_requested session_stopping /\
  baratinoo_semaphore s' = baratinoo_semaphore session_stopping.
Proof.
  split; [reflexivity|].
  apply (module_speak_busy_rejected stub_new stub_init stub_strip stub_voice
           "again" 5 0 session_stopping).
  reflexivity.
Defined.

(** C6: [module_stop] always returns 0 and leaves the stop flag set; it posts
    the semaphore exactly once when the flag was clear and not at all when it
    was already set (then the state is untouched); a second call right after
    the first changes neither the flag nor the semaphore count. *)
Theorem module_stop_idempotent (s : Session) :
  fst (module_stop s) = 0 /\
  fst (module_stop (snd (module_stop s))) = 0 /\
  baratinoo_stop_requested (snd (module_stop s)) = true /\
  baratinoo_semaphore (snd (module_stop s))
    = (baratinoo_semaphore s + if baratinoo_stop_requested s then 0 else 1)%nat /\
  snd (module_stop s)
    = (if baratinoo_stop_requested s then s
       else sem_post (set_stop_requested true s)) /\
  snd (module_stop (snd (module_stop s))) = snd (module_stop s).
Proof.
  unfold module_stop.
  destruct (baratinoo_stop_requested s) eqn:Hstop; simpl.
  - rewrite Hstop. simpl. repeat split; lia.
  - repeat split; lia.
Qed.

(** [module_pause] while speaking is a stop reported as a failure. *)
Lemma module_pause_speaking_stops (s : Session) :
  baratinoo_speaking s = true ->
  module_pause s = (2 ^ 64 - 1, snd (module_stop s)).
Proof. intros H. unfold module_pause. rewrite H. reflexivity. Qed.

(** The callback returns 0 whether it drops or forwards the chunk. *)
Lemma output_signal_cb_returns_0 address length s :
  fst (baratinoo_output_signal_cb address length s) = 0.
Proof.
  unfold baratinoo_output_signal_cb.
  destruct (baratinoo_stop_requested s); reflexivity.
Qed.

(** C8, as the code has it: with a stop pending the callback drops the chunk
    ([module_tts_output] is not called, the session is unchanged) and returns
    0; without one it forwards the chunk as one mono 16-bit 16 kHz
    little-endian track of [length / 2] samples and returns 0 as well. *)
Theorem output_signal_cb_drops_when_stopping address length s :
  (baratinoo_stop_requested s = true ->
   baratinoo_output_signal_cb address length s = (0, s) /\
   tts_output (snd (baratinoo_output_signal_cb address length s)) = tts_output s) /\
  (baratinoo_stop_requested s = false ->
   fst (baratinoo_output_signal_cb address length s) = 0 /\
   tts_output (snd (baratinoo_output_signal_cb address length s))
     = tts_output s
       ++ [(mkAudioTrack 16 1 16000 (Z.quot length 2) address, SPD_AUDIO_LE)]).
Proof.
  unfold baratinoo_output_signal_cb.
  split; intros ->; simpl; auto.
Qed.

Lemma output_signal_cb_drops_when_stopping_witness :
  (baratinoo_output_signal_cb chunk_0102 4 session_stopping = (0, session_stopping) /\
   tts_output (snd (baratinoo_output_signal_cb chunk_0102 4 session_stopping)) = []) /\
  (fst (baratinoo_output_signal_cb chunk_0102 4 session_speaking) = 0 /\
   tts_output (snd (baratinoo_output_signal_cb chunk_0102 4 session_speaking))
     = [(mkAudioTrack 16 1 16000 2 chunk_0102, SPD_AUDIO_LE)]).
Proof.
  split.
  - apply (output_signal_cb_drops_when_stopping chunk_0102 4 session_stopping).
    reflexivity.
  - apply (output_signal_cb_drops_when_stopping chunk_0102 4 session_speaking).
    reflexivity.
Defined.

(** C8, as stated, fails: the value returned for a dropped chunk is not
    distinct from the one returned for a forwarded chunk. *)
Lemma output_signal_cb_return_not_distinct :
  baratinoo_stop_requested session_stopping = true /\
  baratinoo_stop_requested session_speaking = false /\
  ~ (fst (baratinoo_output_signal_cb chunk_0102 4 session_stopping)
     <> fst (baratinoo_output_signal_cb chunk_0102 4 session_speaking)).
Proof.
  split; [reflexivity|]. split; [reflexivity|].
  intros Hne. apply Hne. reflexivity.
Qed.

End BaratinooFacts.

(** * Properties of the audio server *)
Module AudioServerFacts.
Import AudioServer.

(** ** Integer conversions *)

#[local] Arguments to_int : simpl never.
#[local] Arguments to_size_t : simpl never.


Lemma to_int_id z : INT_MIN <= z <= INT_MAX -> to_int z = z.
Proof.
  unfold to_int, INT_MIN, INT_MAX. intros H.
  rewrite Z.mod_small by lia. lia.
Qed.


(** ** The library functions on sample inputs *)

Example strtol_samples :
  strtol (bytes_of_string "16000") = 16000 /\
  strtol (bytes_of_string "  -123x") = -123 /\
  strtol (bytes_of_string "+7:") = 7 /\
  strtol (bytes_of_string "abc") = 0 /\
  strtol (bytes_of_string "99999999999999999999") = LONG_MAX /\
  to_int (strtol (bytes_of_string "4294967297")) = 1.
Proof. repeat split. Qed.

Example g_strsplit_samples :
  g_strsplit (bytes_of_string "a:b") COLON 5
    = [bytes_of_string "a"; bytes_of_string "b"] /\
  g_strsplit (bytes_of_string "a:b:c:d:e:f") COLON 5
    = [bytes_of_string "a"; bytes_of_string "b"; bytes_of_string "c";
       bytes_of_string "d"; bytes_of_string "e:f"] /\
  g_strsplit (bytes_of_string "::") COLON 5 = [[]; []; []] /\
  g_strsplit [] COLON 5 = [].
Proof. repeat split. Qed.

(** An embedded NUL is stored as a question mark and a bare LF does not end
    the line. *)
Example read_line_sample :
  read_line 4 ([65; 0; 10; 66; 13; 10; 67]) []
  = LineDone [65; 63; 10; 66; 13; 10; 0] [67].
Proof. reflexivity. Qed.

(** ** [spd_audio_set_volume] *)

(** C4: a volume outside [-100, 100] is refused with -1 and the handle keeps
    its volume; a volume inside the range is stored in a valid handle and 0
    is returned. *)
Theorem set_volume_bounds (dev : AudioID) (id : option AudioID) (vol : Z) :
  ((vol > 100 \/ vol < -100) -> spd_audio_set_volume id vol = (-1, id)) /\
  (-100 <= vol <= 100 ->
   exists dev', spd_audio_set_volume (Some dev) vol = (0, Some dev') /\
     volume dev' = vol /\ format dev' = format dev /\
     function_play dev' = function_play dev).
Proof.
  unfold spd_audio_set_volume. split.
  - intros Hout.
    destruct (vol >? 100) eqn:Hhi; [reflexivity|].
    destruct (vol <? -100) eqn:Hlo; [reflexivity|]. lia.
  - intros Hin.
    destruct (vol >? 100) eqn:Hhi; [lia|].
    destruct (vol <? -100) eqn:Hlo; [lia|].
    simpl. eexists. split; [reflexivity|]. auto.
Qed.

Lemma set_volume_bounds_witness :
  (spd_audio_set_volume (Some dev_le) 101 = (-1, Some dev_le) /\
   spd_audio_set_volume (Some dev_le) (-101) = (-1, Some dev_le)) /\
  (exists dev', spd_audio_set_volume (Some dev_le) 100 = (0, Some dev') /\
     volume dev' = 100 /\ format dev' = format dev_le /\
     function_play dev' = function_play dev_le) /\
  (exists dev', spd_audio_set_volume (Some dev_le) (-100) = (0, Some dev') /\
     volume dev' = -100 /\ format dev' = format dev_le /\
     function_play dev' = function_play dev_le).
Proof.
  split; [split|split].
  - apply (set_volume_bounds dev_le (Some dev_le) 101). lia.
  - apply (set_volume_bounds dev_le (Some dev_le) (-101)). lia.
  - apply (set_volume_bounds dev_le None 100). lia.
  - apply (set_volume_bounds dev_le None (-100)). lia.
Defined.

(** ** The byte-swapping loop *)

Lemma pair_offsets_S start k :
  pair_offsets start (S k) = Z.of_nat start :: pair_offsets (start + 2) k.
Proof.
  unfold pair_offsets. simpl. f_equal; [f_equal; lia|].
  rewrite <- fmap_S_seq, <- list_fmap_compose.
  apply list_fmap_ext. intros _ i _. simpl. f_equal. lia.
Qed.




(** The loop entered at the end of [done] with enough room for [k] pairs
    exchanges exactly the next [k] pairs, each once and in order, and touches
    nothing else. *)
Lemma swap_loop_spec k : forall done todo offsets,
  (2 * k <= length todo)%nat ->
  swap_loop k (Z.of_nat (length done)) (done ++ todo) offsets
  = SwapDone (done ++ swap_pairs k todo)
             (offsets ++ pair_offsets (length done) k).
Proof.
  induction k as [|k IH]; intros done todo offsets Hlen.
  - simpl. unfold pair_offsets. simpl. by rewrite app_nil_r.
  - destruct todo as [|a [|b r]]; simpl in Hlen; try lia.
    cbn [swap_loop swap_pairs].
    replace (Z.to_nat (Z.of_nat (length done) + 1)) with (S (length done)) by lia.
    rewrite Nat2Z.id.
    rewrite (list_lookup_middle done (b :: r) a (length done) eq_refl).
    replace (done ++ a :: b :: r) with ((done ++ [a]) ++ b :: r)
      by (by rewrite <- app_assoc).
    rewrite (list_lookup_middle (done ++ [a]) r b (S (length done)))
      by (rewrite length_app; simpl; lia).
    replace ((done ++ [a]) ++ b :: r) with (done ++ a :: b :: r)
      by (by rewrite <- app_assoc).
    rewrite (insert_app_r_alt done _ (length done)) by lia.
    rewrite Nat.sub_diag. cbn [insert list_insert].
    rewrite (insert_app_r_alt done _ (S (length done))) by lia.
    replace (S (length done) - length done)%nat with 1%nat by lia.
    cbn [insert list_insert].
    replace (done ++ b :: a :: r) with ((done ++ [b; a]) ++ r)
      by (by rewrite <- app_assoc).
    replace (Z.of_nat (length done) + 2)
      with (Z.of_nat (length (done ++ [b; a])))
      by (rewrite length_app; simpl; lia).
    rewrite IH by lia.
    rewrite pair_offsets_S, length_app. simpl.
    rewrite <- !app_assoc. reflexivity.
Qed.

Lemma swap_loop_from_start k (buf : list byte) :
  (2 * k <= length buf)%nat ->
  swap_loop k 0 buf [] = SwapDone (swap_pairs k buf) (pair_offsets 0 k).
Proof. exact (swap_loop_spec k [] buf []). Qed.

(** With less room than [k] pairs the loop leaves the allocation: the first
    access it makes past an even-sized buffer is at offset [length buf]. *)
Lemma swap_loop_overrun k : forall done todo offsets,
  (length todo < 2 * k)%nat -> Nat.even (length todo) = true ->
  swap_loop k (Z.of_nat (length done)) (done ++ todo) offsets
  = SwapFault (OutOfBounds (Z.of_nat (length (done ++ todo)))
                 (length (done ++ todo))).
Proof.
  induction k as [|k IH]; intros done todo offsets Hlen Heven; [lia|].
  destruct todo as [|a [|b r]]; simpl in Heven; try discriminate.
  - cbn [swap_loop]. rewrite Nat2Z.id, app_nil_r.
    rewrite (lookup_ge_None_2 done (length done)) by lia. reflexivity.
  - cbn [swap_loop].
    replace (Z.to_nat (Z.of_nat (length done) + 1)) with (S (length done)) by lia.
    rewrite Nat2Z.id.
    rewrite (list_lookup_middle done (b :: r) a (length done) eq_refl).
    replace (done ++ a :: b :: r) with ((done ++ [a]) ++ b :: r)
      by (by rewrite <- app_assoc).
    rewrite (list_lookup_middle (done ++ [a]) r b (S (length done)))
      by (rewrite length_app; simpl; lia).
    replace ((done ++ [a]) ++ b :: r) with (done ++ a :: b :: r)
      by (by rewrite <- app_assoc).
    rewrite (insert_app_r_alt done _ (length done)) by lia.
    rewrite Nat.sub_diag. cbn [insert list_insert].
    rewrite (insert_app_r_alt done _ (S (length done))) by lia.
    replace (S (length done) - length done)%nat with 1%nat by lia.
    cbn [insert list_insert].
    replace (done ++ b :: a :: r) with ((done ++ [b; a]) ++ r)
      by (by rewrite <- app_assoc).
    replace (Z.of_nat (length done) + 2)
      with (Z.of_nat (length (done ++ [b; a])))
      by (rewrite length_app; simpl; lia).
    simpl in Hlen. rewrite IH by (lia || done).
    rewrite !length_app. simpl.
    do 2 f_equal; lia.
Qed.

(** ** [spd_audio_play] *)

Lemma swap_trips_even k : 0 <= k -> swap_trips (k * 2) = Z.to_nat k.
Proof.
  intros Hk. unfold swap_trips. f_equal.
  symmetry. apply (Z.div_unique_pos _ _ _ 1); lia.
Qed.

(** The conversion block on a buffer holding exactly the
    [num_samples * num_channels] 16-bit samples the descriptor announces. *)
Lemma swap_samples_spec (track : AudioTrack) (s : Server) :
  0 <= num_samples track -> 0 <= num_channels track ->
  num_samples track * 2 <= INT_MAX ->
  num_samples track * 2 * num_channels track <= INT_MAX ->
  Z.of_nat (length (samples track))
    = num_samples track * 2 * num_channels track ->
  let k := Z.to_nat (num_samples track * num_channels track) in
  swap_samples track s
  = Ok (mkAudioTrack (bits track) (num_channels track) (sample_rate track)
          (num_samples track) (swap_pairs k (samples track)))
       (set_swaps (swaps s ++ pair_offsets 0 k) s).
Proof.
  intros Hn Hc Hn2 Hnc Hlen k. unfold swap_samples, in_int_range.
  assert (INT_MIN <= 0) by (unfold INT_MIN; lia).
  assert (0 <= num_samples track * 2 * num_channels track) by nia.
  rewrite !(proj2 (Z.leb_le _ _)) by lia. simpl.
  replace (num_samples track * 2 * num_channels track)
    with (num_samples track * num_channels track * 2) by lia.
  rewrite swap_trips_even by nia. fold k.
  rewrite swap_loop_from_start by (subst k; nia).
  reflexivity.
Qed.



(** ** What the decoder leaves alone

    [play_audio] and everything it calls only consume bytes from sockets that
    are open, append to the log and to the traces of played tracks and
    swaps: the connection set, the records, the set of open descriptors and
    the device are the same afterwards ([keeps_connections]). *)

Lemma keeps_refl s : keeps_connections s s.
Proof. repeat split. Qed.

Lemma keeps_trans s1 s2 s3 :
  keeps_connections s1 s2 -> keeps_connections s2 s3 -> keeps_connections s1 s3.
Proof.
  unfold keeps_connections.
  intros (?&?&?&?&?&?) (?&?&?&?&?&?). repeat split; congruence.
Qed.

Lemma keeps_insert_open s fd sk sk' :
  sockets s !! fd = Some sk ->
  keeps_connections s (set_sockets (<[fd := sk']> (sockets s)) s).
Proof.
  intros Hfd. repeat split. simpl. rewrite dom_insert_L.
  assert (fd ∈ dom (sockets s)) as Hin by (apply elem_of_dom; eauto).
  apply leibniz_equiv. intros x. rewrite elem_of_union, elem_of_singleton.
  split; [intros [->|]; assumption|auto].
Qed.

Lemma preserves_ret {A} (a : A) : preserves (ret a).
Proof. intros s a' s' [= _ <-]. apply keeps_refl. Qed.

Lemma preserves_bind {A B} (m : M A) (k : A -> M B) :
  preserves m -> (forall a, preserves (k a)) -> preserves (bind m k).
Proof.
  intros Hm Hk s b s'. unfold bind.
  destruct (m s) as [a s1| |] eqn:Hms; try discriminate.
  intros Hks. eapply keeps_trans; [eapply Hm|eapply Hk]; eassumption.
Qed.

Lemma preserves_fault {A} f : preserves (@fault A f).
Proof. intros s a s'. discriminate. Qed.

Lemma preserves_gets {A} (f : Server -> A) : preserves (gets f).
Proof. intros s a s' [= _ <-]. apply keeps_refl. Qed.

Lemma preserves_MSG msg : preserves (MSG msg).
Proof. intros s a s' [= _ <-]. repeat split. Qed.

Lemma preserves_push_played t :
  preserves (modify (fun s => set_played (played s ++ [t]) s)).
Proof. intros s a s' [= _ <-]. repeat split. Qed.

Lemma preserves_push_swaps l :
  preserves (modify (fun s => set_swaps (swaps s ++ l) s)).
Proof. intros s a s' [= _ <-]. repeat split. Qed.

Lemma preserves_sys_read fd count : preserves (sys_read fd count).
Proof.
  intros s a s'. unfold sys_read.
  destruct (sockets s !! fd) as [sk|] eqn:Hfd.
  - destruct (pending sk) as [|c r].
    + destruct ((count =? 0) || peer_closed sk); [|discriminate].
      intros [= _ <-]. apply keeps_refl.
    + intros [= _ <-]. eapply keeps_insert_open, Hfd.
  - intros [= _ <-]. apply keeps_refl.
Qed.

Lemma preserves_read_header (BUF_SIZE : Z) fd : preserves
    (read_header BUF_SIZE fd).
Proof.
  intros s a s'. unfold read_header.
  destruct (sockets s !! fd) as [sk|] eqn:Hfd.
  - destruct (read_line BUF_SIZE (pending sk) []) as [buf rest| |].
    + intros [= _ <-]. eapply keeps_insert_open, Hfd.
    + destruct (peer_closed sk); [|discriminate].
      intros [= _ <-]. eapply keeps_insert_open, Hfd.
    + discriminate.
  - intros [= _ <-]. apply keeps_refl.
Qed.

Create HintDb frame.
#[local] Hint Resolve preserves_ret preserves_fault preserves_gets preserves_MSG
  preserves_push_played preserves_push_swaps preserves_sys_read
  preserves_read_header : frame.

Ltac frame :=
  repeat first
    [ apply preserves_bind; [|intros ?]
    | solve [auto with frame]
    | match goal with
      | |- preserves (if ?b then _ else _) => destruct b
      | |- preserves (match ?x with _ => _ end) => destruct x
      | |- preserves (let '(_, _) := ?x in _) => destruct x
      end ].

Lemma preserves_swap_samples track : preserves (swap_samples track).
Proof. unfold swap_samples. frame. Qed.

Lemma preserves_spd_audio_play id track fmt :
  preserves (spd_audio_play id track fmt).
Proof.
  pose proof preserves_swap_samples.
  unfold spd_audio_play. frame.
Qed.

Lemma preserves_play_audio (BUF_SIZE : Z) fd : preserves
    (play_audio BUF_SIZE fd).
Proof.
  pose proof preserves_spd_audio_play.
  unfold play_audio. frame.
Qed.

(** ** The decoder *)

(** The header loop never leaves a NUL inside the line, so the C string it
    hands to [strcmp] and [g_strsplit] is the whole line. *)
Lemma read_line_no_nul : forall input buflen buf line rest,
  Forall (fun c => c <> NUL) buf ->
  read_line buflen input buf = LineDone line rest ->
  exists text, line = text ++ [NUL] /\ Forall (fun c => c <> NUL) text.
Proof.
  induction input as [|c input IH]; intros buflen buf line rest Hbuf;
    [discriminate|].
  cbn [read_line].
  destruct ((c =? LF) && bool_decide (1 <= length buf)%nat
            && bool_decide (last buf = Some CR)) eqn:Hend.
  - intros [= <- <-]. exists (buf ++ [c]). split.
    + by rewrite <- app_assoc.
    + apply Forall_app. split; [assumption|].
      apply Forall_singleton.
      apply andb_prop in Hend as [Hend _]. apply andb_prop in Hend as [Hc _].
      apply Z.eqb_eq in Hc. subst c. discriminate.
  - assert (Forall (fun c => c <> NUL)
              (buf ++ [if c =? NUL then QUESTION_MARK else c])) as Hbuf'.
    { apply Forall_app. split; [assumption|].
      apply Forall_singleton.
      destruct (c =? NUL) eqn:Hc; [discriminate|].
      by apply Z.eqb_neq. }
    destruct (_ =? buflen); [destruct (in_int_range _); [|discriminate]|];
      by apply IH.
Qed.

Lemma cstr_terminated text :
  Forall (fun c => c <> NUL) text -> cstr (text ++ [NUL]) = text.
Proof.
  induction 1 as [|c text Hc _ IH]; [reflexivity|].
  simpl. rewrite (proj2 (Z.eqb_neq _ _) Hc). by rewrite IH.
Qed.

(** A byte that does not end the line is stored; as long as fewer than
    [2 ^ 30] bytes are stored, doubling the size of the buffer stays within
    [int]. *)
Lemma read_line_store (buflen : Z) (c : byte) (rest buf : list byte) :
  (c =? LF) && bool_decide (1 <= length buf)%nat
    && bool_decide (last buf = Some CR) = false ->
  Z.of_nat (length buf) + 1 < 2 ^ 30 ->
  exists buflen',
    read_line buflen (c :: rest) buf
    = read_line buflen' rest (buf ++ [if c =? NUL then QUESTION_MARK else c]).
Proof.
  intros Hend Hroom. cbn [read_line]. rewrite Hend.
  destruct (_ =? buflen) eqn:Hfull; [|by eexists].
  apply Z.eqb_eq in Hfull. rewrite length_app in Hfull. cbn [length] in Hfull.
  replace (in_int_range (buflen * 2)) with true; [by eexists|].
  symmetry. unfold in_int_range, INT_MIN, INT_MAX.
  change (2 ^ 30) with 1073741824 in Hroom.
  apply andb_true_intro. split; apply Z.leb_le; lia.
Qed.

Lemma stored_not_nul c : ServerLoop.stored c <> NUL.
Proof.
  unfold ServerLoop.stored. destruct (c =? NUL) eqn:Hc; [discriminate|].
  by apply Z.eqb_neq.
Qed.

Lemma stored_is_cr c : ServerLoop.stored c = CR -> c = CR.
Proof.
  unfold ServerLoop.stored. destruct (c =? NUL) eqn:Hc; [discriminate|done].
Qed.

(** A byte that is not the LF after a stored CR does not end the line. *)
Lemma read_line_goes_on (c : byte) (buf : list byte) :
  ~ (last buf = Some CR /\ c = LF) ->
  (c =? LF) && bool_decide (1 <= length buf)%nat
    && bool_decide (last buf = Some CR) = false.
Proof.
  intros Hjoin. apply andb_false_iff.
  destruct (c =? LF) eqn:Hc; [|by left].
  right. apply bool_decide_eq_false. intros Hlast.
  apply Hjoin. split; [assumption|]. by apply Z.eqb_eq in Hc.
Qed.

(** Two neighbours of a line without CR LF inside never end the line. *)
Lemma read_line_join (c : byte) (input buf : list byte) :
  (forall i, ~ ((c :: input) !! i = Some CR /\ (c :: input) !! S i = Some LF)) ->
  ~ (last (buf ++ [ServerLoop.stored c]) = Some CR /\ head input = Some LF).
Proof.
  intros Hpairs. rewrite last_snoc. intros [[= Hc] Hhead].
  apply (Hpairs 0%nat). split.
  - simpl. f_equal. by apply stored_is_cr.
  - simpl. by destruct input.
Qed.

Lemma read_line_frames_from : forall (line : list byte) (buflen : Z)
    (buf rest : list byte),
  (forall i, ~ (line !! i = Some CR /\ line !! S i = Some LF)) ->
  ~ (last buf = Some CR /\ head line = Some LF) ->
  Z.of_nat (length buf + length line) + 2 <= 2 ^ 30 ->
  read_line buflen (line ++ CR :: LF :: rest) buf
  = LineDone (buf ++ (ServerLoop.stored <$> line) ++ [CR; LF; NUL]) rest.
Proof.
  induction line as [|c line IH]; intros buflen buf rest Hpairs Hjoin Hroom.
  - cbn [app fmap list_fmap].
    destruct (read_line_store buflen CR (LF :: rest) buf) as [buflen' ->];
      [reflexivity|cbn [length] in Hroom; lia|].
    change (if CR =? NUL then QUESTION_MARK else CR) with CR.
    cbn [read_line]. change (LF =? LF) with true.
    rewrite bool_decide_eq_true_2 by (rewrite length_app; simpl; lia).
    rewrite bool_decide_eq_true_2 by apply last_snoc.
    cbn [andb]. by rewrite <- app_assoc.
  - cbn [app].
    destruct (read_line_store buflen c (line ++ CR :: LF :: rest) buf)
      as [buflen' ->].
    + apply read_line_goes_on. intros [Hlast ->]. by apply Hjoin.
    + cbn [length] in Hroom. lia.
    + fold (ServerLoop.stored c). rewrite IH.
      * rewrite fmap_cons, <- app_assoc. reflexivity.
      * intros i. apply (Hpairs (S i)).
      * by apply read_line_join.
      * rewrite length_app. cbn [length] in *. lia.
Qed.

Lemma read_line_unterminated_from : forall (input : list byte) (buflen : Z)
    (buf : list byte),
  (forall i, ~ (input !! i = Some CR /\ input !! S i = Some LF)) ->
  ~ (last buf = Some CR /\ head input = Some LF) ->
  Z.of_nat (length buf + length input) < 2 ^ 30 ->
  read_line buflen input buf = LineEnd.
Proof.
  induction input as [|c input IH]; intros buflen buf Hpairs Hjoin Hroom;
    [reflexivity|].
  destruct (read_line_store buflen c input buf) as [buflen' ->].
  - apply read_line_goes_on. intros [Hlast ->]. by apply Hjoin.
  - cbn [length] in Hroom. lia.
  - fold (ServerLoop.stored c). apply IH.
    + intros i. apply (Hpairs (S i)).
    + by apply read_line_join.
    + rewrite length_app. cbn [length] in *. lia.
Qed.

(** Once the buffer is full at a size whose double leaves the range of
    [int], storing one more byte is the signed overflow of [buflen]. *)
Lemma read_line_overflow (buflen : Z) (c : byte) (rest buf : list byte) :
  ~ (last buf = Some CR /\ c = LF) ->
  Z.of_nat (length buf) + 1 = buflen ->
  INT_MAX < buflen * 2 ->
  read_line buflen (c :: rest) buf = LineOverflow.
Proof.
  intros Hjoin Hfull Hbig. cbn [read_line].
  rewrite read_line_goes_on by assumption.
  rewrite length_app. cbn [length].
  rewrite (proj2 (Z.eqb_eq _ _)) by lia.
  replace (in_int_range (buflen * 2)) with false; [reflexivity|].
  symmetry. unfold in_int_range. apply andb_false_iff. right.
  apply Z.leb_gt. assumption.
Qed.

Lemma read_line_ack (BUF_SIZE : Z) rest :
  read_line BUF_SIZE (ACK_NEWLINE ++ rest) [] = LineDone (ACK_NEWLINE ++ [NUL]) rest.
Proof.
  change (ACK_NEWLINE ++ rest)
    with (bytes_of_string "ACK" ++ CR :: LF :: rest).
  rewrite read_line_frames_from; [reflexivity| | |].
  - intros i [Hcr Hlf]. destruct i as [|[|[|i]]]; discriminate.
  - intros [Hlast _]. discriminate.
  - change (2 ^ 30) with 1073741824. simpl. lia.
Qed.

Lemma parse_metadata_not_ack line md :
  parse_metadata line = Some md -> line <> ACK_NEWLINE.
Proof. intros Hparse ->. discriminate. Qed.

(** C7: a line that is literally ACK CR LF makes [play_audio] return 0; the
    five bytes of the line are all it reads (what follows stays in the
    socket), nothing is played, swapped or logged, and the rest of the state
    is untouched. *)
Theorem play_audio_ack_is_noop (BUF_SIZE : Z) (s : Server) (fd : Z)
    (sk : Socket)
    (rest : list byte) :
  sockets s !! fd = Some sk ->
  pending sk = ACK_NEWLINE ++ rest ->
  exists s',
    play_audio BUF_SIZE fd s = Ok 0 s' /\
    s' = set_sockets (<[fd := mkSocket rest (peer_closed sk)]> (sockets s)) s /\
    sockets s' !! fd = Some (mkSocket rest (peer_closed sk)) /\
    played s' = played s /\ swaps s' = swaps s /\ log s' = log s.
Proof.
  intros Hfd Hpending. eexists. split.
  - unfold play_audio, bind, read_header.
    rewrite Hfd, Hpending, read_line_ack. reflexivity.
  - split; [reflexivity|]. simpl. rewrite lookup_insert_eq. auto.
Qed.

Lemma play_audio_ack_is_noop_witness :
  exists s',
    play_audio 4 7 (server_with (ACK_NEWLINE ++ header "0:16:1:16000:1" ++ [1; 2]) false)
      = Ok 0 s' /\
    s' = set_sockets
           (<[7 := mkSocket (header "0:16:1:16000:1" ++ [1; 2]) false]>
              (sockets (server_with (ACK_NEWLINE ++ header "0:16:1:16000:1" ++ [1; 2]) false)))
           (server_with (ACK_NEWLINE ++ header "0:16:1:16000:1" ++ [1; 2]) false) /\
    sockets s' !! 7 = Some (mkSocket (header "0:16:1:16000:1" ++ [1; 2]) false) /\
    played s' = [] /\ swaps s' = [] /\ log s' = [].
Proof.
  apply (play_audio_ack_is_noop 4
           (server_with (ACK_NEWLINE ++ header "0:16:1:16000:1" ++ [1; 2]) false)
           7
           (mkSocket (ACK_NEWLINE ++ header "0:16:1:16000:1" ++ [1; 2]) false)
           (header "0:16:1:16000:1" ++ [1; 2])).
  - reflexivity.
  - reflexivity.
Defined.

(** A complete big-endian mono frame on the little-endian sample device:
    both samples are swapped and the track is played. *)
Example play_audio_complete_frame :
  match play_audio 4 7
          (server_with (header "1:16:1:16000:2" ++ [1; 2; 3; 4; 9]) false) with
  | Ok status s' =>
      status = 0 /\
      played s' = [mkAudioTrack 16 1 16000 2 [2; 1; 4; 3]] /\
      swaps s' = [0; 2] /\
      sockets s' !! 7 = Some (mkSocket [9] false)
  | _ => False
  end.
Proof. vm_compute. repeat split. Qed.




(** The same rejection on a zero and on a negative count. *)
Example play_audio_zero_samples :
  exists s',
    play_audio 4 7 (server_with (header "0:16:1:16000:0") false) = Ok (-1) s' /\
    played s' = [].
Proof. eexists. split; reflexivity. Qed.

Example play_audio_negative_samples :
  exists s',
    play_audio 4 7 (server_with (header "0:16:1:16000:-4" ++ [1; 2]) false)
      = Ok (-1) s' /\
    played s' = [] /\ sockets s' !! 7 = Some (mkSocket [1; 2] false).
Proof. eexists. split; [reflexivity|]. split; reflexivity. Qed.



(** ** The readability handler *)

(** Peer gone: the record leaves the queue and is freed, its descriptor is
    closed by the one [close] call the handler makes, its source is
    destroyed, and the handler asks for the source to be dropped. *)
Lemma incoming_peer_gone (BUF_SIZE : Z) (s : Server) (fd0 : Z) (p : ptr)
    (rec : TAudioFDSetElement) (sk : Socket) :
  heap s !! p = Some rec ->
  sockets s !! fd rec = Some sk ->
  pending sk = [] ->
  exists s',
    audio_process_incoming BUF_SIZE fd0 p s = Ok false s' /\
    module_data_list s' = g_queue_remove p (module_data_list s) /\
    heap s' = delete p (heap s) /\
    sockets s' = delete (fd rec) (sockets s) /\
    closed s' = closed s ++ [fd rec] /\
    destroyed s' = destroyed s ++ option_list (source rec) /\
    played s' = played s /\ swaps s' = swaps s /\
    log s' = log s ++ ["Info: Module has gone."%string].
Proof.
  intros Hp Hfd Hpending.
  unfold audio_process_incoming, bind at 1, deref. rewrite Hp.
  unfold bind at 1, ioctl_FIONREAD. rewrite Hfd, Hpending. simpl.
  unfold bind, MSG, modify, free_fd_set, deref. simpl. rewrite Hp.
  destruct (source rec) as [src|] eqn:Hsrc; simpl;
    (eexists; split; [reflexivity|]; simpl; rewrite ?app_nil_r; auto 10).
Qed.

(** Bytes readable, decode failed: the failure is logged and the handler
    asks to be called again. *)
Lemma incoming_decode_failure (BUF_SIZE : Z) (s s1 : Server) (fd0 : Z) (p : ptr)
    (rec : TAudioFDSetElement) (sk : Socket) :
  heap s !! p = Some rec ->
  sockets s !! fd rec = Some sk ->
  pending sk <> [] ->
  play_audio BUF_SIZE (fd rec) s = Ok (-1) s1 ->
  audio_process_incoming BUF_SIZE fd0 p s
  = Ok true (set_log (log s1 ++ ["Error: Failed to serve client on fd!"%string]) s1).
Proof.
  intros Hp Hfd Hpending Hplay.
  unfold audio_process_incoming, bind at 1, deref. rewrite Hp.
  unfold bind at 1, ioctl_FIONREAD. rewrite Hfd.
  destruct (pending sk) as [|c r]; [done|].
  replace (Z.of_nat (length (c :: r)) =? 0) with false
    by (symmetry; apply Z.eqb_neq; simpl; lia).
  unfold bind at 1. rewrite Hplay. reflexivity.
Qed.

Lemma g_queue_remove_NoDup p q : NoDup q -> p ∉ g_queue_remove p q.
Proof.
  induction 1 as [|x q Hx Hq IH]; simpl; [apply not_elem_of_nil|].
  destruct (x =? p) eqn:Hxp.
  - apply Z.eqb_eq in Hxp. by subst x.
  - apply Z.eqb_neq in Hxp. rewrite not_elem_of_cons. auto.
Qed.

Lemma g_queue_remove_elem_of p q x : x ∈ g_queue_remove p q -> x ∈ q.
Proof.
  induction q as [|y q IH]; simpl; [done|].
  destruct (y =? p).
  - intros Hx. by apply list_elem_of_further.
  - rewrite !elem_of_cons. intros [->|Hx]; auto.
Qed.

Lemma g_queue_remove_keeps_NoDup p q : NoDup q -> NoDup (g_queue_remove p q).
Proof.
  induction 1 as [|y q Hy Hq IH]; simpl; [constructor|].
  destruct (y =? p); [assumption|].
  constructor; [|assumption].
  intros Hin. apply Hy. eapply g_queue_remove_elem_of, Hin.
Qed.

(** ** Freeing records *)

Lemma free_fd_set_live (s : Server) (p : ptr) (rec : TAudioFDSetElement) :
  heap s !! p = Some rec ->
  exists s',
    free_fd_set (Some p) s = Ok tt s' /\
    heap s' = delete p (heap s) /\
    closed s' = closed s ++ [fd rec] /\
    sockets s' = delete (fd rec) (sockets s) /\
    module_data_list s' = module_data_list s.
Proof.
  intros Hp. unfold free_fd_set, bind at 1, deref. rewrite Hp.
  unfold bind, sys_close, modify.
  destruct (source rec); simpl; (eexists; split; [reflexivity|]; auto).
Qed.

(** Freeing a record that is no longer allocated has no defined behaviour:
    whoever calls [free_fd_set] must do so at most once per record. *)
Lemma free_fd_set_freed (s : Server) (p : ptr) :
  heap s !! p = None -> free_fd_set (Some p) s = Undefined (Dangling p).
Proof.
  intros Hp. unfold free_fd_set, bind at 1, deref. by rewrite Hp.
Qed.

(** The final sweep closes the descriptor of every record still queued,
    once each, and frees the records. *)
Lemma g_queue_free_full_closes (q : list ptr) : forall s : Server,
  NoDup q ->
  (forall p, p ∈ q -> is_Some (heap s !! p)) ->
  exists s',
    g_queue_free_full q s = Ok tt s' /\
    closed s' = closed s ++ omap (fd_at s) q /\
    forall p, p ∈ q -> heap s' !! p = None.
Proof.
  induction q as [|p q IH]; intros s Hnodup Hlive.
  - exists s. simpl. rewrite app_nil_r. split; [done|]. split; [done|].
    intros p Hp. by apply elem_of_nil in Hp.
  - apply NoDup_cons in Hnodup as [Hp Hnodup].
    destruct (Hlive p) as [rec Hrec]; [apply list_elem_of_here|].
    destruct (free_fd_set_live s p rec Hrec)
      as (s1 & Hfree & Hheap1 & Hclosed1 & _ & _).
    assert (forall x, x ∈ q -> heap s1 !! x = heap s !! x) as Hsame.
    { intros x Hx. rewrite Hheap1. apply lookup_delete_ne. by intros ->. }
    destruct (IH s1 Hnodup) as (s' & Hsweep & Hclosed' & Hfreed).
    { intros x Hx. rewrite Hsame by assumption.
      apply Hlive. by apply list_elem_of_further. }
    exists s'. split; [|split].
    + cbn [g_queue_free_full]. unfold bind at 1. by rewrite Hfree.
    + rewrite Hclosed', Hclosed1. cbn [omap list_omap]. unfold fd_at at 2.
      rewrite Hrec. cbn [fmap option_fmap option_map].
      rewrite <- app_assoc. cbn [app]. do 2 f_equal.
      apply list_omap_ext.
      apply Forall2_same_length_lookup_2; [done|].
      intros i x y Hx Hy. assert (x = y) as <- by congruence.
      unfold fd_at. rewrite Hsame; [done|].
      eapply list_elem_of_lookup_2, Hx.
    + intros x. rewrite elem_of_cons. intros [->|Hx]; [|by apply Hfreed].
      assert (keeps : forall l (t : Server),
                p ∉ l -> heap t !! p = None ->
                forall t', g_queue_free_full l t = Ok tt t' ->
                heap t' !! p = None).
      { clear. induction l as [|y l IHl]; intros t Hnotin Hnone t'.
        - intros [= <-]. assumption.
        - cbn [g_queue_free_full]. unfold bind at 1.
          destruct (free_fd_set (Some y) t) as [[] t1| |] eqn:Hy;
            try discriminate.
          apply IHl.
          + intros Hin. apply Hnotin. by apply list_elem_of_further.
          + unfold free_fd_set, bind at 1, deref in Hy.
            destruct (heap t !! y) as [r|] eqn:Hr; [|discriminate].
            unfold bind, sys_close, modify in Hy.
            destruct (source r); simpl in Hy; injection Hy as <-; simpl;
              (rewrite lookup_delete_ne; [assumption|];
               intros ->; apply Hnotin, list_elem_of_here). }
      eapply keeps; [exact Hp| |exact Hsweep].
      rewrite Hheap1. apply lookup_delete_eq.
Qed.

(** X28: a disconnect followed, at any later time the queue is swept, by the
    end of the playback thread: as long as descriptors identify records, the
    departed connection's descriptor is closed once in all. *)
Lemma disconnect_then_sweep_closes_once (BUF_SIZE : Z) (s : Server) (fd0 : Z)
    (p : ptr)
    (rec : TAudioFDSetElement) (sk : Socket) :
  NoDup (module_data_list s) ->
  (forall q, q ∈ module_data_list s -> is_Some (heap s !! q)) ->
  (forall q r, q ∈ module_data_list s -> q <> p ->
               heap s !! q = Some r -> fd r <> fd rec) ->
  heap s !! p = Some rec ->
  sockets s !! fd rec = Some sk ->
  pending sk = [] ->
  exists s1 s2,
    audio_process_incoming BUF_SIZE fd0 p s = Ok false s1 /\
    g_queue_free_full (module_data_list s1) s1 = Ok tt s2 /\
    count_occ Z.eq_dec (closed s2) (fd rec)
      = S (count_occ Z.eq_dec (closed s) (fd rec)).
Proof.
  intros Hnodup Hlive Huniq Hp Hfd Hpending.
  destruct (incoming_peer_gone BUF_SIZE s fd0 p rec sk Hp Hfd Hpending)
    as (s1 & Hrun & Hlist & Hheap & _ & Hclosed & _).
  assert (forall q, q ∈ module_data_list s1 -> q ∈ module_data_list s /\ q <> p)
    as Hrest.
  { intros q Hq. rewrite Hlist in Hq. split.
    - eapply g_queue_remove_elem_of, Hq.
    - intros ->. by apply (g_queue_remove_NoDup p (module_data_list s)). }
  destruct (g_queue_free_full_closes (module_data_list s1) s1)
    as (s2 & Hsweep & Hclosed2 & _).
  { rewrite Hlist. by apply g_queue_remove_keeps_NoDup. }
  { intros q Hq. destruct (Hrest q Hq) as [Hin Hne].
    rewrite Hheap, lookup_delete_ne by done. by apply Hlive. }
  exists s1, s2. split; [assumption|]. split; [assumption|].
  rewrite Hclosed2, Hclosed, !count_occ_app. simpl.
  destruct (Z.eq_dec (fd rec) (fd rec)) as [_|Hne]; [|done].
  rewrite (proj1 (count_occ_not_In Z.eq_dec
                    (omap (fd_at s1) (module_data_list s1)) (fd rec))); [lia|].
  rewrite <- list_elem_of_In, list_elem_of_omap.
  intros (q & Hq & Hfdq). destruct (Hrest q Hq) as [Hin Hne].
  unfold fd_at in Hfdq. rewrite Hheap, lookup_delete_ne in Hfdq by done.
  destruct (heap s !! q) as [r|] eqn:Hr; [|discriminate].
  injection Hfdq as Hfdq. by apply (Huniq q r).
Qed.

(** C3: on a readability event for the connection recorded at [p], if no
    byte is readable the record is removed from the connection set and
    freed, the handler makes exactly one [close] call, on the record's
    descriptor, which is no longer open afterwards, and asks for its source
    to be dropped; if bytes are readable and [play_audio] returns -1, the
    failure is logged and nothing else happens to the connection: the record
    stays in the set and in memory, no descriptor is closed, the socket is
    still open and the handler stays registered. *)
Theorem incoming_disconnect_or_tolerated_failure (BUF_SIZE : Z) (s : Server)
    (fd0 : Z)
    (p : ptr) (rec : TAudioFDSetElement) (sk : Socket) :
  heap s !! p = Some rec ->
  sockets s !! fd rec = Some sk ->
  (pending sk = [] ->
   exists s',
     audio_process_incoming BUF_SIZE fd0 p s = Ok false s' /\
     module_data_list s' = g_queue_remove p (module_data_list s) /\
     (NoDup (module_data_list s) -> p ∉ module_data_list s') /\
     heap s' !! p = None /\
     closed s' = closed s ++ [fd rec] /\
     sockets s' !! fd rec = None /\
     destroyed s' = destroyed s ++ option_list (source rec) /\
     played s' = played s) /\
  (pending sk <> [] ->
   forall s1, play_audio BUF_SIZE (fd rec) s = Ok (-1) s1 ->
   exists s',
     audio_process_incoming BUF_SIZE fd0 p s = Ok true s' /\
     log s' = log s1 ++ ["Error: Failed to serve client on fd!"%string] /\
     module_data_list s' = module_data_list s /\
     heap s' !! p = Some rec /\
     closed s' = closed s /\
     destroyed s' = destroyed s /\
     is_Some (sockets s' !! fd rec)).
Proof.
  intros Hp Hfd. split.
  - intros Hpending.
    destruct (incoming_peer_gone BUF_SIZE s fd0 p rec sk Hp Hfd Hpending)
      as (s' & Hrun & Hlist & Hheap & Hsock & Hclosed & Hdestroyed & Hplayed & _).
    exists s'. split; [assumption|]. split; [assumption|].
    split; [intros Hnodup; rewrite Hlist; by apply g_queue_remove_NoDup|].
    split; [rewrite Hheap; apply lookup_delete_eq|].
    split; [assumption|].
    split; [rewrite Hsock; apply lookup_delete_eq|]. auto.
  - intros Hpending s1 Hplay.
    destruct (preserves_play_audio BUF_SIZE _ _ _ _ Hplay)
      as (Hheap & Hlist & Hclosed & Hdestroyed & _ & Hdom).
    eexists. split; [eapply incoming_decode_failure; eassumption|].
    simpl. split; [reflexivity|]. split; [assumption|].
    split; [by rewrite Hheap|]. split; [assumption|]. split; [assumption|].
    apply elem_of_dom. rewrite Hdom. apply elem_of_dom. eauto.
Qed.

Lemma incoming_disconnect_or_tolerated_failure_witness :
  (exists s',
     audio_process_incoming 4 7 100 (server_with [] true) = Ok false s' /\
     module_data_list s' = g_queue_remove 100 [100] /\
     (NoDup (module_data_list (server_with [] true)) -> 100 ∉ module_data_list s') /\
     heap s' !! 100 = None /\
     closed s' = [7] /\
     sockets s' !! 7 = None /\
     destroyed s' = [55] /\
     played s' = []) /\
  (exists s1,
     play_audio 4 7 (server_with (header "0:16:1" ++ [1; 2]) false) = Ok (-1) s1 /\
     exists s',
       audio_process_incoming 4 7 100 (server_with (header "0:16:1" ++ [1; 2]) false)
         = Ok true s' /\
       log s' = log s1 ++ ["Error: Failed to serve client on fd!"%string] /\
       module_data_list s' = [100] /\
       heap s' !! 100 = Some (mkFDSet 7 (Some 55) None) /\
       closed s' = [] /\
       destroyed s' = [] /\
       is_Some (sockets s' !! 7)).
Proof.
  split.
  - apply (incoming_disconnect_or_tolerated_failure 4 (server_with [] true) 7 100
             (mkFDSet 7 (Some 55) None) (mkSocket [] true) eq_refl eq_refl).
    reflexivity.
  - eexists. split; [reflexivity|].
    apply (proj2 (incoming_disconnect_or_tolerated_failure 4
                    (server_with (header "0:16:1" ++ [1; 2]) false) 7 100
                    (mkFDSet 7 (Some 55) None)
                    (mkSocket (header "0:16:1" ++ [1; 2]) false)
                    eq_refl eq_refl)).
    + discriminate.
    + reflexivity.
Defined.





(** ** The swap loop against the decoder's allocation *)

(** On a buffer of [num_samples * 2] bytes, which is what [play_audio]
    allocates, the conversion block leaves the allocation as soon as the
    track has two channels or more. *)
Lemma swap_samples_overruns (track : AudioTrack) (s : Server) :
  1 <= num_samples track -> 2 <= num_channels track ->
  num_samples track * 2 * num_channels track <= INT_MAX ->
  Z.of_nat (length (samples track)) = num_samples track * 2 ->
  swap_samples track s
  = Undefined (OutOfBounds (num_samples track * 2) (length (samples track))).
Proof.
  intros Hn Hc Hnc Hlen. unfold swap_samples, in_int_range.
  assert (INT_MIN <= 0) by (unfold INT_MIN; lia).
  assert (num_samples track * 2 <= num_samples track * 2 * num_channels track)
    by nia.
  rewrite !(proj2 (Z.leb_le _ _)) by lia. simpl.
  replace (num_samples track * 2 * num_channels track)
    with (num_samples track * num_channels track * 2) by lia.
  rewrite swap_trips_even by nia.
  pose proof (swap_loop_overrun (Z.to_nat (num_samples track * num_channels track))
                [] (samples track) []) as Hloop.
  rewrite app_nil_l in Hloop.
  change (Z.of_nat (length (@nil byte))) with 0 in Hloop.
  rewrite Hloop.
  - unfold fault. rewrite Hlen. reflexivity.
  - nia.
  - replace (length (samples track)) with (2 * Z.to_nat (num_samples track))%nat
      by lia.
    rewrite Nat.even_mul. reflexivity.
Qed.

(** A [read] that finds at least the bytes it asks for returns exactly
    those and leaves the others in the socket. *)
Lemma sys_read_full (s : Server) (fd : Z) (sk : Socket) (count : Z) :
  sockets s !! fd = Some sk ->
  0 < count <= Z.of_nat (length (pending sk)) ->
  sys_read fd count s
  = Ok (count, take (Z.to_nat count) (pending sk))
       (set_sockets
          (<[fd := mkSocket (drop (Z.to_nat count) (pending sk))
                            (peer_closed sk)]> (sockets s)) s).
Proof.
  intros Hfd Hcount. unfold sys_read. rewrite Hfd.
  destruct (pending sk) as [|c r] eqn:Hpending; [simpl in Hcount; lia|].
  rewrite length_take. do 2 f_equal. lia.
Qed.

(** C9 fails on the code.  Whenever a frame with two channels or more, in a
    format other than the device's, arrives with its whole payload,
    [play_audio] allocates and fills [num_samples * 2] bytes and hands them
    to [spd_audio_play], whose swap loop is bound by
    [num_samples * 2 * num_channels]: the loop leaves the allocation at
    offset [num_samples * 2], the first byte after it. *)
Theorem play_audio_stereo_swap_leaves_buffer (BUF_SIZE : Z) (s : Server)
    (fd : Z)
    (sk : Socket) (buf rest : list byte) (md : Metadata) (dev : AudioID)
    (play : AudioTrack -> Z) :
  sockets s !! fd = Some sk ->
  read_line BUF_SIZE (pending sk) [] = LineDone buf rest ->
  parse_metadata (cstr buf) = Some md ->
  1 <= md_num_samples md ->
  2 <= md_num_channels md ->
  md_num_samples md * 2 * md_num_channels md <= INT_MAX ->
  md_num_samples md * 2 <= Z.of_nat (length rest) ->
  audio_id s = Some dev ->
  function_play dev = Some play ->
  md_format md <> format dev ->
  play_audio BUF_SIZE fd s
  = Undefined (OutOfBounds (md_num_samples md * 2)
                 (Z.to_nat (md_num_samples md * 2))).
Proof.
  intros Hfd Hline Hparse Hn Hc Hnc Hfull Hid Hplay Hfmt.
  assert ((md_num_samples md <=? 0) = false) as Hpos by (apply Z.leb_gt; lia).
  assert (md_num_samples md * 2 <= INT_MAX) as Hn2 by nia.
  unfold play_audio. unfold bind at 1. unfold read_header.
  rewrite Hfd, Hline.
  rewrite bool_decide_eq_false_2 by (eapply parse_metadata_not_ack, Hparse).
  rewrite Hparse, Hpos.
  unfold bind at 1.
  rewrite (sys_read_full _ fd (mkSocket rest (peer_closed sk)))
    by (first [apply lookup_insert_eq | simpl; lia]).
  cbv beta iota. cbn [pending peer_closed].
  rewrite to_int_id by (unfold INT_MIN; lia).
  unfold to_size_t.
  rewrite Z.mod_small by (unfold INT_MAX in Hn2; lia).
  rewrite Z.eqb_refl. cbn [negb].
  unfold bind at 1, gets. cbn [audio_id set_sockets]. rewrite Hid.
  unfold bind at 1, spd_audio_play. rewrite Hplay.
  cbn [md_format]. rewrite (proj2 (Z.eqb_neq _ _) Hfmt).
  unfold bind at 1.
  assert (length (take (Z.to_nat (md_num_samples md * 2)) rest)
          = Z.to_nat (md_num_samples md * 2)) as Hgot
    by (rewrite length_take; lia).
  assert (fill_samples (md_num_samples md)
            (take (Z.to_nat (md_num_samples md * 2)) rest)
          = take (Z.to_nat (md_num_samples md * 2)) rest) as Hfill.
  { unfold fill_samples. rewrite Hgot, Nat.sub_diag. apply app_nil_r. }
  rewrite Hfill.
  rewrite swap_samples_overruns; cbn [num_samples num_channels samples];
    try assumption.
  - by rewrite Hgot.
  - rewrite Hgot. lia.
Qed.

(** The smallest such frame: one stereo sample, big-endian, on the
    little-endian sample device.  Two bytes are allocated, the loop is bound
    by four, and its second round accesses offset 2. *)
Lemma play_audio_stereo_swap_leaves_buffer_witness :
  play_audio 4 7 (server_with (header "1:16:2:16000:1" ++ [1; 2]) false)
  = Undefined (OutOfBounds 2 2).
Proof.
  apply (play_audio_stereo_swap_leaves_buffer 4
           (server_with (header "1:16:2:16000:1" ++ [1; 2]) false) 7
           (mkSocket (header "1:16:2:16000:1" ++ [1; 2]) false)
           (header "1:16:2:16000:1" ++ [NUL]) [1; 2]
           (mkMetadata 1 16 2 16000 1) dev_le (fun _ => 0)).
  - reflexivity.
  - reflexivity.
  - reflexivity.
  - simpl. lia.
  - simpl. lia.
  - simpl. unfold INT_MAX. lia.
  - simpl. lia.
  - reflexivity.
  - reflexivity.
  - discriminate.
Defined.

End AudioServerFacts.

(** * More properties of the audio server: framing, decoding, connections *)
Module ServerLoopFacts.
Import AudioServer ServerLoop.

#[local] Arguments to_int : simpl never.
#[local] Arguments to_size_t : simpl never.

(** ** Framing of the header line *)

Lemma cstr_of_text (text : list byte) :
  Forall (fun c => c <> NUL) text -> cstr (text ++ [NUL]) = text.
Proof.
  induction 1 as [|c text Hc _ IH]; [reflexivity|].
  simpl. rewrite (proj2 (Z.eqb_neq _ _) Hc). by rewrite IH.
Qed.

(** X1: the header loop ends at the first CR LF.  For a line without a
    CR LF pair inside that, with its CR LF, is at most [2 ^ 30] bytes long
    (so that doubling the [int] size of the buffer never overflows, whatever
    size the buffer starts with), followed by CR LF and anything else, the
    loop stores the line with every NUL replaced by a question mark, the
    CR LF and a terminating NUL, and leaves what follows in the socket; the
    C string handed to the parser is the stored line with its CR LF. *)
Theorem header_line_framing (BUF_SIZE : Z) (line rest : list byte) :
  (forall i, ~ (line !! i = Some CR /\ line !! S i = Some LF)) ->
  Z.of_nat (length line) + 2 <= 2 ^ 30 ->
  read_line BUF_SIZE (line ++ [CR; LF] ++ rest) []
    = LineDone ((stored <$> line) ++ [CR; LF; NUL]) rest /\
  cstr ((stored <$> line) ++ [CR; LF; NUL]) = (stored <$> line) ++ [CR; LF].
Proof.
  intros Hpairs Hroom. split.
  - apply (AudioServerFacts.read_line_frames_from line BUF_SIZE [] rest Hpairs).
    + intros [Hlast _]. discriminate.
    + cbn [length]. lia.
  - replace ((stored <$> line) ++ [CR; LF; NUL])
      with (((stored <$> line) ++ [CR; LF]) ++ [NUL])
      by (by rewrite <- app_assoc).
    apply cstr_of_text. apply Forall_app. split.
    + apply Forall_fmap, Forall_forall. intros c _.
      apply AudioServerFacts.stored_not_nul.
    + repeat constructor; discriminate.
Qed.

Lemma header_line_framing_witness :
  read_line 4 ([65; 0; 10; 66] ++ [CR; LF] ++ [67; 68]) []
    = LineDone ((stored <$> [65; 0; 10; 66]) ++ [CR; LF; NUL]) [67; 68] /\
  cstr ((stored <$> [65; 0; 10; 66]) ++ [CR; LF; NUL])
    = (stored <$> [65; 0; 10; 66]) ++ [CR; LF].
Proof.
  apply (header_line_framing 4 [65; 0; 10; 66] [67; 68]).
  - intros i [Hcr Hlf].
    destruct i as [|[|[|[|i]]]]; simpl in Hcr, Hlf; discriminate.
  - vm_compute. discriminate.
Defined.

(** X2: a header that is never terminated.  When the pending bytes, fewer
    than [2 ^ 30] of them (so that the [int] size of the buffer does not
    overflow), hold no CR LF, [play_audio] reads them all; if the peer has
    closed it then returns -1 with the socket empty, having played nothing;
    if the peer is still there it waits for more. *)
Theorem play_audio_unterminated_header (BUF_SIZE : Z) (s : Server) (fd : Z)
    (sk : Socket) :
  sockets s !! fd = Some sk ->
  (forall i, ~ (pending sk !! i = Some CR /\ pending sk !! S i = Some LF)) ->
  Z.of_nat (length (pending sk)) < 2 ^ 30 ->
  if peer_closed sk then
    exists s',
      play_audio BUF_SIZE fd s = Ok (-1) s' /\
      sockets s' !! fd = Some (mkSocket [] true) /\
      played s' = played s /\
      log s' = log s ++ ["ERROR: Read 0 bytes from fd"%string]
  else play_audio BUF_SIZE fd s = Blocked.
Proof.
  intros Hfd Hpairs Hroom.
  assert (read_line BUF_SIZE (pending sk) [] = LineEnd) as Hline.
  { apply AudioServerFacts.read_line_unterminated_from; [assumption| |].
    - intros [Hlast _]. discriminate.
    - cbn [length]. lia. }
  destruct (peer_closed sk) eqn:Hpeer.
  - unfold play_audio. unfold bind at 1. unfold read_header.
    rewrite Hfd, Hline, Hpeer.
    eexists. split; [reflexivity|]. simpl. rewrite lookup_insert_eq. auto.
  - unfold play_audio. unfold bind at 1. unfold read_header.
    by rewrite Hfd, Hline, Hpeer.
Qed.

Lemma play_audio_unterminated_header_witness :
  (exists s',
     play_audio 4 7 (server_with (bytes_of_string "0:16:1:16000:2") true)
       = Ok (-1) s' /\
     sockets s' !! 7 = Some (mkSocket [] true) /\
     played s' = [] /\
     log s' = [] ++ ["ERROR: Read 0 bytes from fd"%string]) /\
  play_audio 4 7 (server_with (bytes_of_string "0:16:1:16000:2") false) = Blocked.
Proof.
  split.
  - apply (play_audio_unterminated_header 4
             (server_with (bytes_of_string "0:16:1:16000:2") true) 7
             (mkSocket (bytes_of_string "0:16:1:16000:2") true) eq_refl).
    + intros i [Hcr Hlf]. simpl in Hcr.
      do 15 (destruct i as [|i]; [discriminate|]). discriminate.
    + vm_compute. reflexivity.
  - apply (play_audio_unterminated_header 4
             (server_with (bytes_of_string "0:16:1:16000:2") false) 7
             (mkSocket (bytes_of_string "0:16:1:16000:2") false) eq_refl).
    + intros i [Hcr Hlf]. simpl in Hcr.
      do 15 (destruct i as [|i]; [discriminate|]). discriminate.
    + vm_compute. reflexivity.
Defined.

(** ** Malformed headers *)

Lemma split_at_none d s : split_at d s = None <-> count_byte d s = 0%nat.
Proof.
  induction s as [|c s IH]; simpl; [done|].
  destruct (c =? d); [done|].
  destruct (split_at d s) as [[a b]|]; split; intros H;
    first [discriminate | by apply IH | apply IH in H; discriminate | done].
Qed.

Lemma split_at_some d s a b :
  split_at d s = Some (a, b) -> count_byte d s = S (count_byte d b).
Proof.
  revert a. induction s as [|c s IH]; intros a; simpl; [discriminate|].
  destruct (c =? d); [by intros [= _ <-]|].
  destruct (split_at d s) as [[a' b']|]; [|discriminate].
  intros [= _ <-]. by apply (IH a').
Qed.

Lemma g_strsplit_from_length d k : forall s,
  length (g_strsplit_from d k s) = S (Nat.min k (count_byte d s)).
Proof.
  induction k as [|k IH]; intros s; [reflexivity|].
  simpl. destruct (split_at d s) as [[a b]|] eqn:Hsplit.
  - simpl. rewrite IH. rewrite (split_at_some _ _ _ _ Hsplit). reflexivity.
  - apply split_at_none in Hsplit. rewrite Hsplit. reflexivity.
Qed.

Lemma parse_metadata_none_iff (line : list byte) :
  parse_metadata line = None <-> (count_byte COLON line < 4)%nat.
Proof.
  unfold parse_metadata, g_strsplit.
  destruct line as [|c line]; [simpl; split; [lia|done]|].
  change (Z.to_nat (5 - 1)) with 4%nat.
  change (5 <? 1) with false. cbv iota.
  pose proof (g_strsplit_from_length COLON 4 (c :: line)) as Hlen.
  remember (count_byte COLON (c :: line)) as colons.
  destruct (g_strsplit_from COLON 4 (c :: line))
    as [|m0 [|m1 [|m2 [|m3 [|m4 tl]]]]]; cbn [length] in Hlen;
    split; intros H; first [done | lia | discriminate].
Qed.

(** X3: a header is rejected as malformed exactly when it has fewer than
    four colons.  [play_audio] then returns -1 right after the line: the
    bytes that follow stay in the socket, nothing is played and the error is
    logged (the keep-alive line, which has no colon, is the one exception
    and is accepted before the fields are looked at). *)
Theorem play_audio_malformed_header (BUF_SIZE : Z) (s : Server) (fd : Z)
    (sk : Socket)
    (buf rest : list byte) :
  sockets s !! fd = Some sk ->
  read_line BUF_SIZE (pending sk) [] = LineDone buf rest ->
  cstr buf <> ACK_NEWLINE ->
  (parse_metadata (cstr buf) = None <-> (count_byte COLON (cstr buf) < 4)%nat) /\
  ((count_byte COLON (cstr buf) < 4)%nat ->
   exists s',
     play_audio BUF_SIZE fd s = Ok (-1) s' /\
     sockets s' !! fd = Some (mkSocket rest (peer_closed sk)) /\
     played s' = played s /\
     log s' = log s ++ ["Error: Unable to read Audiotrack metadata!"%string]).
Proof.
  intros Hfd Hline Hack. split; [apply parse_metadata_none_iff|].
  intros Hcount. apply parse_metadata_none_iff in Hcount.
  unfold play_audio. unfold bind at 1. unfold read_header.
  rewrite Hfd, Hline. rewrite bool_decide_eq_false_2 by assumption.
  rewrite Hcount.
  eexists. split; [reflexivity|]. simpl. rewrite lookup_insert_eq. auto.
Qed.

Lemma play_audio_malformed_header_witness :
  (parse_metadata (header "1:16:2:16000") = None
   <-> (count_byte COLON (header "1:16:2:16000") < 4)%nat) /\
  exists s',
    play_audio 4 7 (server_with (header "1:16:2:16000" ++ [1; 2]) false)
      = Ok (-1) s' /\
    sockets s' !! 7 = Some (mkSocket [1; 2] false) /\
    played s' = [] /\
    log s' = [] ++ ["Error: Unable to read Audiotrack metadata!"%string].
Proof.
  destruct (play_audio_malformed_header 4
              (server_with (header "1:16:2:16000" ++ [1; 2]) false) 7
              (mkSocket (header "1:16:2:16000" ++ [1; 2]) false)
              (header "1:16:2:16000" ++ [NUL]) [1; 2] eq_refl eq_refl)
    as [Hiff Hrejected]; [discriminate|].
  split; [exact Hiff|]. apply Hrejected. simpl. lia.
Defined.

(** ** Complete frames *)

(** With the whole payload pending, [play_audio] consumes the header line and
    exactly [num_samples * 2] payload bytes and goes on to [spd_audio_play]
    with a track made of the header fields and those bytes. *)
Lemma play_audio_reaches_play (BUF_SIZE : Z) (s : Server) (fd : Z) (sk : Socket)
    (buf rest : list byte) (md : Metadata) :
  sockets s !! fd = Some sk ->
  read_line BUF_SIZE (pending sk) [] = LineDone buf rest ->
  parse_metadata (cstr buf) = Some md ->
  1 <= md_num_samples md ->
  md_num_samples md * 2 <= INT_MAX ->
  md_num_samples md * 2 <= Z.of_nat (length rest) ->
  let payload := take (Z.to_nat (md_num_samples md * 2)) rest in
  let track :=
    mkAudioTrack (md_bits md) (md_num_channels md) (md_sample_rate md)
      (md_num_samples md) payload in
  play_audio BUF_SIZE fd s
  = (status <- spd_audio_play (audio_id s) track (md_format md);;
     if status <? 0
     then MSG "Error: unable to play audio";;; ret (-1)
     else ret 0)
      (set_sockets
         (<[fd := mkSocket (drop (Z.to_nat (md_num_samples md * 2)) rest)
                           (peer_closed sk)]> (sockets s)) s).
Proof.
  intros Hfd Hline Hparse Hn Hn2 Hfull payload track.
  assert ((md_num_samples md <=? 0) = false) as Hpos by (apply Z.leb_gt; lia).
  unfold play_audio. unfold bind at 1. unfold read_header.
  rewrite Hfd, Hline.
  rewrite bool_decide_eq_false_2
    by (eapply AudioServerFacts.parse_metadata_not_ack, Hparse).
  rewrite Hparse, Hpos.
  unfold bind at 1.
  rewrite (AudioServerFacts.sys_read_full _ fd (mkSocket rest (peer_closed sk)))
    by (first [apply lookup_insert_eq | simpl; lia]).
  cbv beta iota. cbn [pending peer_closed].
  rewrite AudioServerFacts.to_int_id by (unfold INT_MIN; lia).
  unfold to_size_t.
  rewrite Z.mod_small by (unfold INT_MAX in Hn2; lia).
  rewrite Z.eqb_refl. cbn [negb].
  unfold bind at 1, gets. cbn [audio_id set_sockets sockets].
  rewrite insert_insert_eq.
  subst track payload.
  assert (fill_samples (md_num_samples md)
            (take (Z.to_nat (md_num_samples md * 2)) rest)
          = take (Z.to_nat (md_num_samples md * 2)) rest) as ->.
  { unfold fill_samples. rewrite length_take.
    replace (Z.to_nat (md_num_samples md * 2)
             - Z.to_nat (md_num_samples md * 2) `min` length rest)%nat
      with 0%nat by lia.
    apply app_nil_r. }
  reflexivity.
Qed.

(** X4: a complete frame is played once, with its payload intact.  When the
    header is followed by its whole payload and the device has a [play]
    entry, [play_audio] reads the header line and exactly [num_samples * 2]
    bytes (later bytes stay in the socket) and calls [play] once with the
    header's fields and those bytes, as they are for the device's own
    format and with the two bytes of every sample exchanged for a mono frame
    in the other format; it returns 0 when [play] reports a status of 0 or
    more, and -1 (logged) otherwise. *)
Theorem play_audio_complete_frame_played (BUF_SIZE : Z) (s : Server) (fd : Z)
    (sk : Socket)
    (buf rest : list byte) (md : Metadata) (dev : AudioID)
    (play : AudioTrack -> Z) :
  sockets s !! fd = Some sk ->
  read_line BUF_SIZE (pending sk) [] = LineDone buf rest ->
  parse_metadata (cstr buf) = Some md ->
  1 <= md_num_samples md ->
  md_num_samples md * 2 <= INT_MAX ->
  md_num_samples md * 2 <= Z.of_nat (length rest) ->
  audio_id s = Some dev ->
  function_play dev = Some play ->
  md_format md = format dev \/ md_num_channels md = 1 ->
  let payload := take (Z.to_nat (md_num_samples md * 2)) rest in
  let track :=
    mkAudioTrack (md_bits md) (md_num_channels md) (md_sample_rate md)
      (md_num_samples md)
      (if md_format md =? format dev then payload
       else swap_pairs (Z.to_nat (md_num_samples md)) payload) in
  exists s',
    play_audio BUF_SIZE fd s = Ok (if play track <? 0 then -1 else 0) s' /\
    played s' = played s ++ [track] /\
    sockets s' !! fd
      = Some (mkSocket (drop (Z.to_nat (md_num_samples md * 2)) rest)
                       (peer_closed sk)) /\
    log s' = log s ++ (if play track <? 0
                       then ["Error: unable to play audio"%string] else []).
Proof.
  intros Hfd Hline Hparse Hn Hn2 Hfull Hid Hplay Hfmt payload track.
  rewrite (play_audio_reaches_play BUF_SIZE s fd sk buf rest md) by assumption.
  fold payload. rewrite Hid.
  unfold bind at 1, spd_audio_play. rewrite Hplay.
  destruct (md_format md =? format dev) eqn:Heq.
  - unfold bind, ret, modify. cbn [played set_played].
    fold track. destruct (play track <? 0); simpl;
      (eexists; split; [reflexivity|]; simpl;
       rewrite lookup_insert_eq, ?app_nil_r; auto).
  - destruct Hfmt as [Hsame|Hmono];
      [apply Z.eqb_neq in Heq; contradiction|].
    unfold bind at 1.
    rewrite AudioServerFacts.swap_samples_spec;
      cbn [num_samples num_channels samples bits sample_rate];
      try (unfold payload; rewrite ?length_take, ?Hmono; lia).
    replace (md_num_samples md * md_num_channels md) with (md_num_samples md)
      by (rewrite Hmono; lia).
    fold track.
    unfold bind, ret, modify. cbn [played set_played set_swaps].
    destruct (play track <? 0); simpl;
      (eexists; split; [reflexivity|]; simpl;
       rewrite lookup_insert_eq, ?app_nil_r; auto).
Qed.

Lemma play_audio_complete_frame_played_witness :
  exists s',
    play_audio 4 7 (server_with (header "1:16:1:16000:2" ++ [1; 2; 3; 4; 9]) false)
      = Ok 0 s' /\
    played s' = [] ++ [mkAudioTrack 16 1 16000 2 [2; 1; 4; 3]] /\
    sockets s' !! 7 = Some (mkSocket [9] false) /\
    log s' = [] ++ [].
Proof.
  apply (play_audio_complete_frame_played 4
           (server_with (header "1:16:1:16000:2" ++ [1; 2; 3; 4; 9]) false) 7
           (mkSocket (header "1:16:1:16000:2" ++ [1; 2; 3; 4; 9]) false)
           (header "1:16:1:16000:2" ++ [NUL]) [1; 2; 3; 4; 9]
           (mkMetadata 1 16 1 16000 2) dev_le (fun _ => 0)).
  - reflexivity.
  - reflexivity.
  - reflexivity.
  - simpl. lia.
  - simpl. unfold INT_MAX. lia.
  - simpl. lia.
  - reflexivity.
  - reflexivity.
  - right. reflexivity.
Defined.

(** X5: without a usable device the server still keeps the stream in step.
    When no device was opened, or the device has no [play] entry, a complete
    frame is consumed like any other (header line and [num_samples * 2]
    bytes), nothing is played or swapped, and [play_audio] returns -1 with
    the failure logged. *)
Theorem play_audio_without_device (BUF_SIZE : Z) (s : Server) (fd : Z)
    (sk : Socket)
    (buf rest : list byte) (md : Metadata) :
  sockets s !! fd = Some sk ->
  read_line BUF_SIZE (pending sk) [] = LineDone buf rest ->
  parse_metadata (cstr buf) = Some md ->
  1 <= md_num_samples md ->
  md_num_samples md * 2 <= INT_MAX ->
  md_num_samples md * 2 <= Z.of_nat (length rest) ->
  (audio_id s = None \/
   exists dev, audio_id s = Some dev /\ function_play dev = None) ->
  exists s',
    play_audio BUF_SIZE fd s = Ok (-1) s' /\
    played s' = played s /\ swaps s' = swaps s /\
    sockets s' !! fd
      = Some (mkSocket (drop (Z.to_nat (md_num_samples md * 2)) rest)
                       (peer_closed sk)) /\
    log s' = log s ++ ["Error: unable to play audio"%string].
Proof.
  intros Hfd Hline Hparse Hn Hn2 Hfull Hnodev.
  rewrite (play_audio_reaches_play BUF_SIZE s fd sk buf rest md) by assumption.
  assert (forall track fmt, spd_audio_play (audio_id s) track fmt = ret (-1))
    as Hplay.
  { intros track fmt. destruct Hnodev as [->|(dev & -> & Hnone)];
      [reflexivity|]. unfold spd_audio_play. by rewrite Hnone. }
  rewrite Hplay. unfold bind, ret, MSG, modify. simpl.
  eexists. split; [reflexivity|]. simpl. rewrite lookup_insert_eq. auto.
Qed.

Lemma play_audio_without_device_witness :
  exists s',
    play_audio 4 7
      (set_audio_id_none (server_with (header "0:16:1:16000:1" ++ [1; 2; 9]) false))
      = Ok (-1) s' /\
    played s' = [] /\ swaps s' = [] /\
    sockets s' !! 7 = Some (mkSocket [9] false) /\
    log s' = [] ++ ["Error: unable to play audio"%string].
Proof.
  apply (play_audio_without_device 4
           (set_audio_id_none (server_with (header "0:16:1:16000:1" ++ [1; 2; 9]) false))
           7 (mkSocket (header "0:16:1:16000:1" ++ [1; 2; 9]) false)
           (header "0:16:1:16000:1" ++ [NUL]) [1; 2; 9]
           (mkMetadata 0 16 1 16000 1)).
  - reflexivity.
  - reflexivity.
  - reflexivity.
  - simpl. lia.
  - simpl. unfold INT_MAX. lia.
  - simpl. lia.
  - left. reflexivity.
Defined.

(** ** When the decoder waits, and what it consumes *)

Lemma spd_audio_play_never_waits id track fmt s :
  spd_audio_play id track fmt s <> Blocked.
Proof.
  unfold spd_audio_play.
  destruct id as [dev|]; [|discriminate].
  destruct (function_play dev) as [play|]; [|discriminate].
  unfold bind at 1.
  destruct (fmt =? format dev); [discriminate|].
  unfold swap_samples.
  destruct (negb (in_int_range (num_samples track * 2))); [discriminate|].
  destruct (negb (in_int_range (num_samples track * 2 * num_channels track)));
    [discriminate|].
  destruct (swap_loop _ _ _ _); discriminate.
Qed.

(** X6: [play_audio] waits only for a peer that is still connected.  If the
    call does not return because a [read] waits for bytes, then the
    descriptor is an open socket whose peer has not closed; once the peer
    has closed, every call returns (or has no defined behaviour): the event
    loop is never stuck on a departed producer. *)
Theorem play_audio_waits_only_for_live_peer (BUF_SIZE : Z) (s : Server)
    (fd : Z) :
  play_audio BUF_SIZE fd s = Blocked ->
  exists sk, sockets s !! fd = Some sk /\ peer_closed sk = false.
Proof.
  unfold play_audio. unfold bind at 1. unfold read_header.
  destruct (sockets s !! fd) as [sk|] eqn:Hfd; [|discriminate].
  intros Hblocked. exists sk. split; [reflexivity|].
  destruct (peer_closed sk) eqn:Hpeer; [exfalso|reflexivity].
  destruct (read_line BUF_SIZE (pending sk) []) as [buf rest| |];
    [|discriminate|discriminate].
  destruct (bool_decide (cstr buf = ACK_NEWLINE)); [discriminate|].
  destruct (parse_metadata (cstr buf)) as [md|]; [|discriminate].
  destruct (md_num_samples md <=? 0); [discriminate|].
  unfold bind at 1, sys_read in Hblocked.
  cbn [sockets set_sockets] in Hblocked.
  rewrite lookup_insert_eq in Hblocked. cbn [pending peer_closed] in Hblocked.
  destruct rest as [|c rest].
  - rewrite orb_true_r in Hblocked.
    destruct (negb _); [discriminate|].
    unfold bind at 1, gets in Hblocked. unfold bind at 1 in Hblocked.
    destruct (spd_audio_play _ _ _ _) as [status s1| |] eqn:Hplay;
      [destruct (status <? 0); discriminate
      |by apply spd_audio_play_never_waits in Hplay|discriminate].
  - destruct (negb _); [discriminate|].
    unfold bind at 1, gets in Hblocked. unfold bind at 1 in Hblocked.
    destruct (spd_audio_play _ _ _ _) as [status s1| |] eqn:Hplay;
      [destruct (status <? 0); discriminate
      |by apply spd_audio_play_never_waits in Hplay|discriminate].
Qed.

(** A producer that sent a header and nothing of the payload yet. *)
Lemma play_audio_waits_only_for_live_peer_witness :
  play_audio 4 7 (server_with (header "0:16:1:16000:2") false) = Blocked /\
  exists sk,
    sockets (server_with (header "0:16:1:16000:2") false) !! 7 = Some sk /\
    peer_closed sk = false.
Proof.
  split; [reflexivity|].
  apply (play_audio_waits_only_for_live_peer 4
           (server_with (header "0:16:1:16000:2") false) 7).
  reflexivity.
Defined.

Lemma drains_refl fd s : drains fd s s.
Proof. intros sk Hsk. exists sk. auto. Qed.

Lemma drains_trans fd s1 s2 s3 :
  drains fd s1 s2 -> drains fd s2 s3 -> drains fd s1 s3.
Proof.
  intros H12 H23 sk Hsk.
  destruct (H12 sk Hsk) as (sk2 & Hsk2 & Hlen2 & Hpeer2).
  destruct (H23 sk2 Hsk2) as (sk3 & Hsk3 & Hlen3 & Hpeer3).
  exists sk3. split; [assumption|]. split; [lia|congruence].
Qed.

Lemma respects_bind {A B} R (m : M A) (k : A -> M B) :
  (forall s1 s2 s3, R s1 s2 -> R s2 s3 -> R s1 s3) ->
  respects R m -> (forall a, respects R (k a)) -> respects R (bind m k).
Proof.
  intros Htrans Hm Hk s b s'. unfold bind.
  destruct (m s) as [a s1| |] eqn:Hms; try discriminate.
  intros Hks. eapply Htrans; [eapply Hm|eapply Hk]; eassumption.
Qed.

Lemma drains_same_sockets fd s s' : sockets s' = sockets s -> drains fd s s'.
Proof. intros Heq sk Hsk. exists sk. rewrite Heq. auto. Qed.

Lemma respects_drains_sys_read fd fd' count :
  respects (drains fd) (sys_read fd' count).
Proof.
  intros s a s'. unfold sys_read.
  destruct (sockets s !! fd') as [sk'|] eqn:Hfd'.
  - destruct (pending sk') as [|c r] eqn:Hpending.
    + destruct ((count =? 0) || peer_closed sk'); [|discriminate].
      intros [= _ <-]. apply drains_refl.
    + intros [= _ <-] sk Hsk. cbn [sockets set_sockets].
      destruct (decide (fd' = fd)) as [->|Hne].
      * rewrite lookup_insert_eq. eexists. split; [reflexivity|].
        assert (sk = sk') as -> by congruence.
        cbn [pending peer_closed]. rewrite length_drop, Hpending. split; [lia|done].
      * rewrite lookup_insert_ne by done. exists sk. auto.
  - intros [= _ <-]. apply drains_refl.
Qed.

Lemma respects_drains_spd_audio_play fd id track fmt :
  respects (drains fd) (spd_audio_play id track fmt).
Proof.
  intros s a s'. unfold spd_audio_play.
  destruct id as [dev|]; [|intros [= _ <-]; apply drains_refl].
  destruct (function_play dev) as [play|];
    [|intros [= _ <-]; apply drains_refl].
  unfold bind at 1.
  destruct (fmt =? format dev).
  - intros [= _ <-]. by apply drains_same_sockets.
  - unfold swap_samples.
    destruct (negb (in_int_range (num_samples track * 2))); [discriminate|].
    destruct (negb (in_int_range (num_samples track * 2 * num_channels track)));
      [discriminate|].
    destruct (swap_loop _ _ _ _); [|discriminate].
    intros [= _ <-]. by apply drains_same_sockets.
Qed.

Lemma read_line_shrinks : forall input buflen buf line rest,
  read_line buflen input buf = LineDone line rest ->
  (length rest < length input)%nat.
Proof.
  induction input as [|c input IH]; intros buflen buf line rest;
    [discriminate|].
  cbn [read_line]. destruct (_ && _).
  - intros [= _ <-]. simpl. lia.
  - destruct (_ =? buflen); [destruct (in_int_range _); [|discriminate]|];
      intros Hline; apply IH in Hline; simpl; lia.
Qed.

(** Every call of [play_audio] on a socket with pending bytes that returns
    has consumed at least one of them and added none. *)
Lemma play_audio_consumes (BUF_SIZE : Z) (s s' : Server) (fd : Z) (sk : Socket)
    (status : Z) :
  sockets s !! fd = Some sk ->
  pending sk <> [] ->
  play_audio BUF_SIZE fd s = Ok status s' ->
  exists sk', sockets s' !! fd = Some sk' /\
    (length (pending sk') < length (pending sk))%nat /\
    peer_closed sk' = peer_closed sk.
Proof.
  intros Hfd Hpending. unfold play_audio. unfold bind at 1. unfold read_header.
  rewrite Hfd.
  assert (forall (s1 : Server) (k : M Z) (sk1 : Socket),
            sockets s1 !! fd = Some sk1 ->
            (length (pending sk1) < length (pending sk))%nat ->
            peer_closed sk1 = peer_closed sk ->
            respects (drains fd) k ->
            k s1 = Ok status s' ->
            exists sk', sockets s' !! fd = Some sk' /\
              (length (pending sk') < length (pending sk))%nat /\
              peer_closed sk' = peer_closed sk) as Hrest.
  { intros s1 k sk1 Hsk1 Hlen1 Hpeer1 Hk Hrun.
    destruct (Hk _ _ _ Hrun sk1 Hsk1) as (sk' & Hsk' & Hlen' & Hpeer').
    exists sk'. split; [assumption|]. split; [lia|congruence]. }
  assert (forall msg (r : Z), respects (drains fd) (MSG msg;;; ret r)) as Hmsg.
  { intros msg r s1 a s2 [= _ <-]. by apply drains_same_sockets. }
  destruct (read_line BUF_SIZE (pending sk) []) as [buf rest| |] eqn:Hline;
    [| |discriminate].
  - apply read_line_shrinks in Hline.
    apply (Hrest _ _ (mkSocket rest (peer_closed sk)));
      [apply lookup_insert_eq|exact Hline|reflexivity|].
    destruct (bool_decide (cstr buf = ACK_NEWLINE));
      [intros s1 a s2 [= _ <-]; apply drains_refl|].
    destruct (parse_metadata (cstr buf)) as [md|]; [|apply Hmsg].
    destruct (md_num_samples md <=? 0); [apply Hmsg|].
    apply respects_bind;
      [apply drains_trans|apply respects_drains_sys_read|].
    intros [n got]. destruct (negb _); [apply Hmsg|].
    apply respects_bind;
      [apply drains_trans|intros s1 a s2 [= _ <-]; apply drains_refl|].
    intros id. apply respects_bind;
      [apply drains_trans|apply respects_drains_spd_audio_play|].
    intros st. destruct (st <? 0); [apply Hmsg|].
    intros s1 a s2 [= _ <-]. apply drains_refl.
  - destruct (peer_closed sk) eqn:Hpeer; [|discriminate].
    apply (Hrest _ _ (mkSocket [] true));
      [apply lookup_insert_eq| |reflexivity|apply Hmsg].
    destruct (pending sk); [done|simpl; lia].
Qed.

(** X7: the handler makes progress.  Whenever it is called with bytes
    readable and returns, it asks to stay registered, the record, the queue
    and the set of open descriptors are as before, and the connection's
    socket holds strictly fewer pending bytes: a connection cannot keep the
    event loop busy without being drained. *)
Theorem incoming_readable_makes_progress (BUF_SIZE : Z) (s s' : Server)
    (fd0 : Z) (p : ptr)
    (rec : TAudioFDSetElement) (sk : Socket) (again : bool) :
  heap s !! p = Some rec ->
  sockets s !! fd rec = Some sk ->
  pending sk <> [] ->
  audio_process_incoming BUF_SIZE fd0 p s = Ok again s' ->
  again = true /\
  keeps_connections s s' /\
  exists sk', sockets s' !! fd rec = Some sk' /\
    (length (pending sk') < length (pending sk))%nat /\
    peer_closed sk' = peer_closed sk.
Proof.
  intros Hp Hfd Hpending.
  unfold audio_process_incoming, bind at 1, deref. rewrite Hp.
  unfold bind at 1, ioctl_FIONREAD. rewrite Hfd.
  replace (Z.of_nat (length (pending sk)) =? 0) with false
    by (symmetry; apply Z.eqb_neq; destruct (pending sk); [done|simpl; lia]).
  unfold bind at 1.
  destruct (play_audio BUF_SIZE (fd rec) s) as [status s1| |] eqn:Hplay;
    try discriminate.
  pose proof (AudioServerFacts.preserves_play_audio BUF_SIZE _ _ _ _ Hplay) as Hkeeps.
  destruct (play_audio_consumes BUF_SIZE s s1 (fd rec) sk status Hfd Hpending Hplay)
    as (sk' & Hsk' & Hlen & Hpeer).
  destruct (status =? -1); intros [= <- <-];
    (split; [reflexivity|]; split; [exact Hkeeps|];
     exists sk'; simpl; auto).
Qed.

Lemma incoming_readable_makes_progress_witness :
  exists s',
    audio_process_incoming 4 7 100
      (server_with (header "0:16:1:16000:1" ++ [1; 2; 9]) false) = Ok true s' /\
    true = true /\
    keeps_connections
      (server_with (header "0:16:1:16000:1" ++ [1; 2; 9]) false) s' /\
    exists sk', sockets s' !! 7 = Some sk' /\
      (length (pending sk') < 19)%nat /\
      peer_closed sk' = false.
Proof.
  eexists. split; [reflexivity|].
  apply (incoming_readable_makes_progress 4
           (server_with (header "0:16:1:16000:1" ++ [1; 2; 9]) false) _ 7 100
           (mkFDSet 7 (Some 55) None)
           (mkSocket (header "0:16:1:16000:1" ++ [1; 2; 9]) false) true).
  - reflexivity.
  - reflexivity.
  - discriminate.
  - reflexivity.
Defined.

(** ** The connection set as an invariant of the event loop *)






(** X8: accepting a connection keeps the connection set consistent.  When
    [accept] hands out a descriptor that was not open and the allocator an
    address that was not in use, [speechd_audio_connection_new] returns 0,
    the new record is queued last, after the existing ones in their order,
    it carries the new descriptor and source, and the set is consistent
    again.  When [accept] fails, -1 is returned and nothing but the log
    changes. *)
Theorem connection_new_keeps_wf (s : Server) (listening : Z)
    (module_socket : Z) (sk : Socket) (p : ptr)
    (defaults : TAudioFDSetElement) (src : Z) :
  connections_wf s ->
  sockets s !! module_socket = None ->
  heap s !! p = None ->
  (exists s',
     speechd_audio_connection_new listening (Some (module_socket, sk))
       (Some (p, defaults)) src s = Ok 0 s' /\
     module_data_list s' = module_data_list s ++ [p] /\
     heap s' !! p
       = Some (mkFDSet module_socket (Some src) (output_module defaults)) /\
     sockets s' !! module_socket = Some sk /\
     connections_wf s') /\
  (exists s',
     speechd_audio_connection_new listening None (Some (p, defaults)) src s
       = Ok (-1) s' /\
     keeps_connections s s' /\ sockets s' = sockets s).
Proof.
  intros (Hnodup & Hlive & Huniq) Hfresh_fd Hfresh_p. split.
  - eexists. split; [reflexivity|]. cbn.
    rewrite !lookup_insert_eq.
    split; [reflexivity|]. split; [reflexivity|]. split; [reflexivity|].
    assert (p ∉ module_data_list s) as Hnotin.
    { intros Hin. destruct (Hlive p Hin) as (rec & Hrec & _). congruence. }
    assert (forall q, q ∈ module_data_list s -> q <> p) as Hne
      by (intros q Hq ->; contradiction).
    assert (forall q rq, q ∈ module_data_list s -> heap s !! q = Some rq ->
                         fd rq <> module_socket) as Hfd_ne.
    { intros q rq Hq Hrq Heq. destruct (Hlive q Hq) as (rec & Hrec & Hopen).
      assert (rec = rq) as -> by congruence.
      rewrite Heq, Hfresh_fd in Hopen. by destruct Hopen. }
    unfold connections_wf. cbn.
    split; [|split].
    + apply NoDup_app. split; [assumption|]. split; [|apply NoDup_singleton].
      intros q Hq Hq'. apply list_elem_of_singleton in Hq'. by apply (Hne q).
    + intros q Hq. apply elem_of_app in Hq as [Hq|Hq].
      * destruct (Hlive q Hq) as (rec & Hrec & Hopen).
        exists rec. rewrite lookup_insert_ne by (symmetry; by apply Hne).
        split; [assumption|].
        rewrite lookup_insert_ne by (symmetry; by eapply Hfd_ne).
        assumption.
      * apply list_elem_of_singleton in Hq as ->.
        rewrite lookup_insert_eq. eexists. split; [reflexivity|].
        cbn. rewrite lookup_insert_eq. eauto.
    + intros q1 q2 r1 r2 Hq1 Hq2.
      apply elem_of_app in Hq1 as [Hq1|Hq1];
        apply elem_of_app in Hq2 as [Hq2|Hq2].
      * rewrite !lookup_insert_ne by (symmetry; by apply Hne).
        by apply Huniq.
      * apply list_elem_of_singleton in Hq2 as ->.
        rewrite lookup_insert_ne by (symmetry; by apply Hne).
        rewrite lookup_insert_eq. intros Hr1 [= <-] Heq. cbn in Heq.
        by destruct (Hfd_ne q1 r1 Hq1 Hr1).
      * apply list_elem_of_singleton in Hq1 as ->.
        rewrite lookup_insert_eq.
        rewrite lookup_insert_ne by (symmetry; by apply Hne).
        intros [= <-] Hr2 Heq. cbn in Heq.
        by destruct (Hfd_ne q2 r2 Hq2 Hr2).
      * apply list_elem_of_singleton in Hq1 as ->.
        by apply list_elem_of_singleton in Hq2 as ->.
  - eexists. split; [reflexivity|]. split; [|reflexivity]. repeat split.
Qed.

Lemma server_with_wf data peer_gone : connections_wf (server_with data peer_gone).
Proof.
  unfold connections_wf, server_with. cbn. split; [|split].
  - apply NoDup_singleton.
  - intros p Hp. apply list_elem_of_singleton in Hp as ->.
    eexists. split; [reflexivity|]. cbn. eexists. reflexivity.
  - intros p q rp rq Hp Hq.
    apply list_elem_of_singleton in Hp as ->.
    by apply list_elem_of_singleton in Hq as ->.
Qed.

Lemma server_two_wf data7 data8 : connections_wf (server_two data7 data8).
Proof.
  unfold connections_wf, server_two. cbn. split; [|split].
  - apply NoDup_cons. split; [|apply NoDup_singleton].
    intros Hin. by apply list_elem_of_singleton in Hin.
  - intros p Hp. apply elem_of_cons in Hp as [->|Hp];
      [|apply list_elem_of_singleton in Hp as ->];
      (eexists; split; [reflexivity|]; cbn; eexists; reflexivity).
  - intros p q rp rq Hp Hq.
    apply elem_of_cons in Hp as [->|Hp];
      [|apply list_elem_of_singleton in Hp as ->];
      (apply elem_of_cons in Hq as [->|Hq];
       [|apply list_elem_of_singleton in Hq as ->]);
      try done; intros [= <-] [= <-]; cbn; discriminate.
Qed.

Lemma connection_new_keeps_wf_witness :
  (exists s',
     speechd_audio_connection_new 3 (Some (9, mkSocket [] false))
       (Some (102, mkFDSet 0 None None)) 57 (server_two [] []) = Ok 0 s' /\
     module_data_list s' = [100; 101] ++ [102] /\
     heap s' !! 102 = Some (mkFDSet 9 (Some 57) None) /\
     sockets s' !! 9 = Some (mkSocket [] false) /\
     connections_wf s') /\
  (exists s',
     speechd_audio_connection_new 3 None (Some (102, mkFDSet 0 None None)) 57
       (server_two [] []) = Ok (-1) s' /\
     keeps_connections (server_two [] []) s' /\
     sockets s' = sockets (server_two [] [])).
Proof.
  apply (connection_new_keeps_wf (server_two [] []) 3 9 (mkSocket [] false)
           102 (mkFDSet 0 None None) 57).
  - apply server_two_wf.
  - reflexivity.
  - reflexivity.
Defined.



(** ** The final sweep *)

Lemma sweep_closes_sockets (q : list ptr) : forall s s' : Server,
  g_queue_free_full q s = Ok tt s' ->
  (forall x, sockets s !! x = None -> sockets s' !! x = None) /\
  exists l, closed s' = closed s ++ l /\
            forall x, x ∈ l -> sockets s' !! x = None.
Proof.
  induction q as [|p q IH]; intros s s'.
  - intros [= <-]. split; [done|]. exists []. rewrite app_nil_r.
    split; [done|]. intros x Hx. by apply elem_of_nil in Hx.
  - cbn [g_queue_free_full]. unfold bind at 1.
    destruct (free_fd_set (Some p) s) as [[] s1| |] eqn:Hfree;
      try discriminate.
    intros Hsweep. destruct (IH s1 s' Hsweep) as (Hmono & l & Hclosed & Hl).
    unfold free_fd_set, bind at 1, deref in Hfree.
    destruct (heap s !! p) as [rec|] eqn:Hrec; [|discriminate].
    assert (sockets s1 = delete (fd rec) (sockets s)
            /\ closed s1 = closed s ++ [fd rec]) as [Hsock1 Hclosed1].
    { unfold bind, sys_close, modify in Hfree.
      destruct (source rec); simpl in Hfree; injection Hfree as <-; done. }
    split.
    + intros x Hx. apply Hmono. rewrite Hsock1.
      destruct (decide (fd rec = x)) as [->|Hne];
        [apply lookup_delete_eq|by rewrite lookup_delete_ne].
    + exists (fd rec :: l). rewrite Hclosed, Hclosed1, <- app_assoc.
      split; [done|]. intros x Hx. apply elem_of_cons in Hx as [->|Hx].
      * apply Hmono. rewrite Hsock1. apply lookup_delete_eq.
      * by apply Hl.
Qed.

Lemma NoDup_omap_inj {A B} (f : A -> option B) (l : list A) :
  NoDup l ->
  (forall x y z, x ∈ l -> y ∈ l -> f x = Some z -> f y = Some z -> x = y) ->
  NoDup (omap f l).
Proof.
  induction 1 as [|x l Hx Hl IH]; intros Hinj; [constructor|].
  cbn [omap list_omap]. destruct (f x) as [z|] eqn:Hfx.
  - constructor.
    + intros Hin. apply list_elem_of_omap in Hin as (y & Hy & Hfy).
      apply Hx. rewrite (Hinj x y z); [done|apply list_elem_of_here| |done|done].
      by apply list_elem_of_further.
    + apply IH. intros a b c Ha Hb. apply Hinj; by apply list_elem_of_further.
  - apply IH. intros a b c Ha Hb. apply Hinj; by apply list_elem_of_further.
Qed.

(** X10: the final sweep releases every connection exactly once.  On a
    consistent connection set, [g_queue_free_full] with [free_fd_set] runs
    to the end, makes one [close] call per queued record, in queue order and
    on pairwise different descriptors, and afterwards no queued record is
    allocated and none of those descriptors is open. *)
Theorem final_sweep_releases_all (s : Server) :
  connections_wf s ->
  exists s',
    g_queue_free_full (module_data_list s) s = Ok tt s' /\
    closed s' = closed s ++ omap (fd_at s) (module_data_list s) /\
    length (omap (fd_at s) (module_data_list s)) = length (module_data_list s) /\
    NoDup (omap (fd_at s) (module_data_list s)) /\
    (forall p, p ∈ module_data_list s -> heap s' !! p = None) /\
    (forall x, x ∈ omap (fd_at s) (module_data_list s) -> sockets s' !! x = None).
Proof.
  intros (Hnodup & Hlive & Huniq).
  destruct (AudioServerFacts.g_queue_free_full_closes (module_data_list s) s Hnodup)
    as (s' & Hsweep & Hclosed & Hfreed).
  { intros p Hp. destruct (Hlive p Hp) as (rec & Hrec & _). by exists rec. }
  exists s'. split; [assumption|]. split; [assumption|].
  split; [|split; [|split; [assumption|]]].
  - assert (forall l : list ptr,
              (forall p, p ∈ l -> is_Some (heap s !! p)) ->
              length (omap (fd_at s) l) = length l) as Hlen.
    { induction l as [|p l IHl]; intros Hall; [reflexivity|].
      cbn [omap list_omap]. unfold fd_at at 1.
      destruct (Hall p) as [rec Hrec]; [apply list_elem_of_here|].
      rewrite Hrec. cbn. f_equal. apply IHl.
      intros q Hq. apply Hall. by apply list_elem_of_further. }
    apply Hlen. intros p Hp.
    destruct (Hlive p Hp) as (rec & Hrec & _). by exists rec.
  - apply NoDup_omap_inj; [assumption|].
    intros p q x Hp Hq. unfold fd_at.
    destruct (heap s !! p) as [rp|] eqn:Hrp; [|discriminate].
    destruct (heap s !! q) as [rq|] eqn:Hrq; [|discriminate].
    cbn. intros [= Hfp] [= Hfq]. apply (Huniq p q rp rq); congruence.
  - destruct (sweep_closes_sockets _ _ _ Hsweep) as (_ & l & Hclosed' & Hl).
    rewrite Hclosed in Hclosed'. apply app_inv_head in Hclosed'.
    by rewrite Hclosed'.
Qed.

Lemma final_sweep_releases_all_witness :
  exists s',
    g_queue_free_full [100; 101] (server_two [1] []) = Ok tt s' /\
    closed s' = [] ++ [7; 8] /\
    length (omap (fd_at (server_two [1] [])) [100; 101]) = 2%nat /\
    NoDup (omap (fd_at (server_two [1] [])) [100; 101]) /\
    (forall p, p ∈ [100; 101] -> heap s' !! p = None) /\
    (forall x, x ∈ omap (fd_at (server_two [1] [])) [100; 101] ->
               sockets s' !! x = None).
Proof.
  apply (final_sweep_releases_all (server_two [1] [])).
  apply server_two_wf.
Defined.

(** The departed connection of a server with two connections: its
    descriptor is closed once by the handler and not again by the sweep. *)
Lemma disconnect_then_sweep_closes_once_witness :
  exists s1 s2,
    audio_process_incoming 4 8 101 (server_two [1] []) = Ok false s1 /\
    g_queue_free_full (module_data_list s1) s1 = Ok tt s2 /\
    count_occ Z.eq_dec (closed s2) 8
      = S (count_occ Z.eq_dec (closed (server_two [1] [])) 8).
Proof.
  apply (AudioServerFacts.disconnect_then_sweep_closes_once 4
           (server_two [1] []) 8 101 (mkFDSet 8 (Some 56) None)
           (mkSocket [] true)).
  - apply server_two_wf.
  - intros q Hq. destruct (proj1 (proj2 (server_two_wf [1] [])) q Hq)
      as (rec & Hrec & _). by exists rec.
  - intros q r Hq Hne Hr Hfd.
    apply Hne. apply (proj2 (proj2 (server_two_wf [1] [])) q 101 r
                        (mkFDSet 8 (Some 56) None) Hq).
    + apply list_elem_of_further, list_elem_of_here.
    + exact Hr.
    + reflexivity.
    + exact Hfd.
  - reflexivity.
  - reflexivity.
  - reflexivity.
Defined.

End ServerLoopFacts.

(** * Properties of the voice selection *)
Module VoicesFacts.
Import Voices.

Lemma streq_eq a b : streq a b = true <-> a = b.
Proof. apply String.eqb_eq. Qed.

Lemma streq_sym a b : streq a b = streq b a.
Proof. apply String.eqb_sym. Qed.

(** X11: [sort_voice] is a fair comparison: exchanging the two voices
    negates the result (so a voice compared with itself gives 0), and the
    result lies between -3 and 3. *)
Theorem sort_voice_antisymmetric (a b : BaratinooVoiceInfo) (lang : string)
    (voice_code : SPDVoiceType) :
  sort_voice a b lang voice_code = - sort_voice b a lang voice_code /\
  sort_voice a a lang voice_code = 0 /\
  -3 <= sort_voice a b lang voice_code <= 3.
Proof.
  assert (forall x y, sort_voice x y lang voice_code
                      = - sort_voice y x lang voice_code
                      /\ -3 <= sort_voice x y lang voice_code <= 3) as Hsym.
  { intros x y. unfold sort_voice. rewrite (streq_sym (gender y) (gender x)).
    destruct (streq lang (iso639 x)), (streq lang (iso639 y)),
      (streq (gender x) (gender y)),
      (streq (wanted_gender voice_code) (gender x)),
      (streq (wanted_gender voice_code) (gender y));
      cbn [negb];
      destruct voice_code;
      destruct (age x =? 0), (age y =? 0); cbn [negb andb];
      destruct (age x <=? 15), (age y <=? 15), (age x >? 15), (age y >? 15);
      lia. }
  split; [apply Hsym|]. split; [|apply Hsym].
  pose proof (proj1 (Hsym a a)). lia.
Qed.

(** The comparison is a difference of scores whenever the ages can be
    compared one by one. *)
Lemma sort_voice_score (a b : BaratinooVoiceInfo) (lang : string)
    (voice_code : SPDVoiceType) :
  ages_comparable voice_code a b ->
  sort_voice a b lang voice_code
  = score lang voice_code b - score lang voice_code a.
Proof.
  intros Hages. unfold sort_voice, score.
  destruct (streq (gender a) (gender b)) eqn:Hg.
  - apply streq_eq in Hg. rewrite Hg.
    destruct (streq lang (iso639 a)), (streq lang (iso639 b)),
      (streq (wanted_gender voice_code) (gender b)); cbn [negb];
      destruct Hages as [->|[->|[[Ha Hb]|[Ha Hb]]]];
      try (apply Z.eqb_neq in Ha; apply Z.eqb_neq in Hb; rewrite ?Ha, ?Hb);
      try destruct voice_code; cbn [negb andb];
      repeat match goal with
             | |- context [?x =? ?y] => destruct (Z.eqb_spec x y)
             | |- context [?x <=? ?y] => destruct (Z.leb_spec x y)
             | |- context [?x >? ?y] => destruct (Z.gtb_spec x y)
             end; cbn [negb andb]; lia.
  - destruct (streq lang (iso639 a)), (streq lang (iso639 b)),
      (streq (wanted_gender voice_code) (gender a)),
      (streq (wanted_gender voice_code) (gender b)); cbn [negb];
      destruct Hages as [->|[->|[[Ha Hb]|[Ha Hb]]]];
      try (apply Z.eqb_neq in Ha; apply Z.eqb_neq in Hb; rewrite ?Ha, ?Hb);
      try destruct voice_code; cbn [negb andb];
      repeat match goal with
             | |- context [?x =? ?y] => destruct (Z.eqb_spec x y)
             | |- context [?x <=? ?y] => destruct (Z.leb_spec x y)
             | |- context [?x >? ?y] => destruct (Z.gtb_spec x y)
             end; cbn [negb andb]; lia.
Qed.

Lemma voice_offset_nonneg voice_code : 0 <= voice_offset voice_code <= 2.
Proof. destruct voice_code; simpl; lia. Qed.

(** What the selection loop maintains: the state points at a voice already
    seen, and no voice seen after it is strictly preferred to it. *)
Lemma selection_loop_later (lang : string) (voice_code : SPDVoiceType)
    (offset : Z) : forall (rest seen : list BaratinooVoiceInfo) (st : Selection),
  0 <= offset ->
  seen !! Z.to_nat (best_match st) = Some (best_info st) ->
  0 <= best_match st < Z.of_nat (length seen) ->
  (forall j w, (Z.to_nat (best_match st) < j)%nat -> seen !! j = Some w ->
               sort_voice (best_info st) w lang voice_code <= 0) ->
  let st' := selection_loop lang voice_code offset (Z.of_nat (length seen))
               rest st in
  (seen ++ rest) !! Z.to_nat (best_match st') = Some (best_info st') /\
  0 <= best_match st' < Z.of_nat (length (seen ++ rest)) /\
  (forall j w, (Z.to_nat (best_match st') < j)%nat ->
               (seen ++ rest) !! j = Some w ->
               sort_voice (best_info st') w lang voice_code <= 0).
Proof.
  induction rest as [|info rest IH]; intros seen st Hoffset Hbest Hrange Hlater.
  - simpl. rewrite app_nil_r. auto.
  - cbn [selection_loop].
    replace (seen ++ info :: rest) with ((seen ++ [info]) ++ rest)
      by (by rewrite <- app_assoc).
    replace (Z.of_nat (length seen) + 1)
      with (Z.of_nat (length (seen ++ [info])))
      by (rewrite length_app; simpl; lia).
    apply IH; [assumption| | |];
      unfold selection_step;
      destruct (Z.geb_spec (sort_voice (best_info st) info lang voice_code) 0)
        as [Hge|Hlt].
    + destruct (Z.gtb_spec (sort_voice (best_info st) info lang voice_code) 0)
        as [Hgt|Hle];
        [rewrite (proj2 (Z.leb_le 0 offset)) by lia
        |destruct (nth_match st <=? offset)];
        cbn [best_match best_info];
        first [ rewrite Nat2Z.id; apply list_lookup_middle; reflexivity
              | apply lookup_app_l_Some; assumption ].
    + by apply lookup_app_l_Some.
    + rewrite length_app. simpl.
      destruct (Z.gtb_spec (sort_voice (best_info st) info lang voice_code) 0)
        as [Hgt|Hle];
        [rewrite (proj2 (Z.leb_le 0 offset)) by lia
        |destruct (nth_match st <=? offset)];
        cbn [best_match]; lia.
    + rewrite length_app. simpl. lia.
    + destruct (Z.gtb_spec (sort_voice (best_info st) info lang voice_code) 0)
        as [Hgt|Hle];
        [rewrite (proj2 (Z.leb_le 0 offset)) by lia
        |destruct (nth_match st <=? offset)];
        cbn [best_match best_info]; intros j w Hj Hw.
      * rewrite Nat2Z.id in Hj.
        apply lookup_lt_Some in Hw. rewrite length_app in Hw. simpl in Hw. lia.
      * rewrite Nat2Z.id in Hj.
        apply lookup_lt_Some in Hw. rewrite length_app in Hw. simpl in Hw. lia.
      * destruct (decide (j < length seen)%nat) as [Hin|Hout].
        -- rewrite lookup_app_l in Hw by assumption. by apply (Hlater j).
        -- assert (j = length seen) as ->.
           { apply lookup_lt_Some in Hw. rewrite length_app in Hw.
             simpl in Hw. lia. }
           rewrite list_lookup_middle in Hw by reflexivity.
           injection Hw as <-. lia.
    + intros j w Hj Hw.
      destruct (decide (j < length seen)%nat) as [Hin|Hout].
      * rewrite lookup_app_l in Hw by assumption. by apply (Hlater j).
      * assert (j = length seen) as ->.
        { apply lookup_lt_Some in Hw. rewrite length_app in Hw.
          simpl in Hw. lia. }
        rewrite list_lookup_middle in Hw by reflexivity.
        injection Hw as <-. lia.
Qed.

(** X12: the selected voice exists and nothing after it is better.  With no
    voice enumerated the current voice is kept.  Otherwise the new voice is
    the index of an enumerated voice, and [sort_voice] prefers no voice that
    comes later in the enumeration to it. *)
Theorem selected_voice_is_valid (voices : list BaratinooVoiceInfo)
    (lang : string) (voice_code : SPDVoiceType) (current : Z) :
  let chosen := baratinoo_set_language_and_voice voices lang voice_code current in
  match voices with
  | [] => chosen = current
  | _ =>
      0 <= chosen < Z.of_nat (length voices) /\
      exists v, voices !! Z.to_nat chosen = Some v /\
        forall j w, (Z.to_nat chosen < j)%nat -> voices !! j = Some w ->
                    sort_voice v w lang voice_code <= 0
  end.
Proof.
  destruct voices as [|first rest]; [reflexivity|].
  unfold baratinoo_set_language_and_voice.
  pose proof (voice_offset_nonneg voice_code) as Hoffset.
  destruct (selection_loop_later lang voice_code (voice_offset voice_code)
              rest [first] (mkSelection 0 first 1)) as (Hbest & Hrange & Hlater).
  - lia.
  - reflexivity.
  - simpl. lia.
  - intros j w Hj Hw. simpl in Hj.
    destruct j; [lia|]. simpl in Hw. by destruct j.
  - change (Z.of_nat (length [first])) with 1 in *.
    change ([first] ++ rest) with (first :: rest) in *.
    cbv zeta.
    rewrite (proj2 (Z.ltb_ge _ 0)) by lia.
    split; [assumption|]. eauto.
Qed.

Lemma selected_voice_is_valid_witness :
  0 <= 1 < Z.of_nat (length sample_voices) /\
  exists v, sample_voices !! Z.to_nat 1 = Some v /\
    forall j w, (Z.to_nat 1 < j)%nat -> sample_voices !! j = Some w ->
                sort_voice v w "fr" SPD_FEMALE1 <= 0.
Proof. exact (selected_voice_is_valid sample_voices "fr" SPD_FEMALE1 0). Defined.

Lemma count_scoring_app lang voice_code m l1 l2 :
  count_scoring lang voice_code m (l1 ++ l2)
  = (count_scoring lang voice_code m l1 + count_scoring lang voice_code m l2)%nat.
Proof.
  induction l1 as [|v l1 IH]; [reflexivity|].
  simpl. destruct (score lang voice_code v =? m); rewrite IH; reflexivity.
Qed.

Lemma count_scoring_below lang voice_code m l :
  (forall w, w ∈ l -> score lang voice_code w < m) ->
  count_scoring lang voice_code m l = 0%nat.
Proof.
  induction l as [|v l IH]; intros Hlow; [reflexivity|].
  simpl. destruct (Z.eqb_spec (score lang voice_code v) m) as [Heq|_].
  - specialize (Hlow v (list_elem_of_here _ _)). lia.
  - apply IH. intros w Hw. apply Hlow. by apply list_elem_of_further.
Qed.

(** What the loop maintains when scores decide: the state points at a best
    scoring voice among those seen, [nth_match] counts the voices seen with
    that score, and the number of them before the chosen one is [offset],
    or all but one of them when there are no more than [offset]. *)
Lemma selection_loop_ranked (lang : string) (voice_code : SPDVoiceType)
    (offset : Z) : forall (rest seen : list BaratinooVoiceInfo) (st : Selection),
  0 <= offset ->
  (forall a b, a ∈ seen ++ rest -> b ∈ seen ++ rest ->
               ages_comparable voice_code a b) ->
  seen !! Z.to_nat (best_match st) = Some (best_info st) ->
  0 <= best_match st < Z.of_nat (length seen) ->
  (forall w, w ∈ seen ->
     score lang voice_code w <= score lang voice_code (best_info st)) ->
  nth_match st
    = Z.of_nat (count_scoring lang voice_code
                  (score lang voice_code (best_info st)) seen) ->
  Z.of_nat (count_scoring lang voice_code
              (score lang voice_code (best_info st))
              (take (Z.to_nat (best_match st)) seen))
    = Z.min offset (nth_match st - 1) ->
  let st' := selection_loop lang voice_code offset (Z.of_nat (length seen))
               rest st in
  (seen ++ rest) !! Z.to_nat (best_match st') = Some (best_info st') /\
  0 <= best_match st' < Z.of_nat (length (seen ++ rest)) /\
  (forall w, w ∈ seen ++ rest ->
     score lang voice_code w <= score lang voice_code (best_info st')) /\
  nth_match st'
    = Z.of_nat (count_scoring lang voice_code
                  (score lang voice_code (best_info st')) (seen ++ rest)) /\
  Z.of_nat (count_scoring lang voice_code
              (score lang voice_code (best_info st'))
              (take (Z.to_nat (best_match st')) (seen ++ rest)))
    = Z.min offset (nth_match st' - 1).
Proof.
  induction rest as [|info rest IH];
    intros seen st Hoffset Hages Hbest Hrange Hmax Hnth Hbefore.
  - simpl. rewrite app_nil_r. auto.
  - cbn [selection_loop].
    assert (sort_voice (best_info st) info lang voice_code
            = score lang voice_code info
              - score lang voice_code (best_info st)) as Hcmp.
    { apply sort_voice_score. apply Hages.
      - apply elem_of_app. left. eapply list_elem_of_lookup_2, Hbest.
      - apply elem_of_app. right. apply list_elem_of_here. }
    replace (seen ++ info :: rest) with ((seen ++ [info]) ++ rest) in *
      by (by rewrite <- app_assoc).
    replace (Z.of_nat (length seen) + 1)
      with (Z.of_nat (length (seen ++ [info])))
      by (rewrite length_app; simpl; lia).
    assert (length (seen ++ [info]) = S (length seen)) as Hlen
      by (rewrite length_app; simpl; lia).
    assert (forall m, count_scoring lang voice_code m (seen ++ [info])
                      = (count_scoring lang voice_code m seen
                         + if (score lang voice_code info =? m)%Z
                           then 1 else 0)%nat)
      as Hcount.
    { intros m. rewrite count_scoring_app. simpl.
      by destruct (score lang voice_code info =? m). }
    apply IH; [assumption|assumption| | | | |]; unfold selection_step;
      rewrite Hcmp;
      destruct (Z.geb_spec (score lang voice_code info
                            - score lang voice_code (best_info st)) 0)
        as [Hge|Hlt];
      try (destruct (Z.gtb_spec (score lang voice_code info
                                 - score lang voice_code (best_info st)) 0)
             as [Hgt|Hle];
           [rewrite (proj2 (Z.leb_le 0 offset)) by lia
           |destruct (Z.leb_spec (nth_match st) offset) as [Hsel|Hkeep]]);
      cbn [best_match best_info nth_match];
      rewrite ?Nat2Z.id, ?Hlen.
    (* the chosen voice is in the list *)
    + apply list_lookup_middle; reflexivity.
    + apply list_lookup_middle; reflexivity.
    + by apply lookup_app_l_Some.
    + by apply lookup_app_l_Some.
    (* its index is in range *)
    + lia.
    + lia.
    + lia.
    + lia.
    (* it scores best *)
    + intros w Hw. apply elem_of_app in Hw as [Hw|Hw];
        [specialize (Hmax w Hw); lia
        |apply list_elem_of_singleton in Hw as ->; lia].
    + intros w Hw. apply elem_of_app in Hw as [Hw|Hw];
        [specialize (Hmax w Hw); lia
        |apply list_elem_of_singleton in Hw as ->; lia].
    + intros w Hw. apply elem_of_app in Hw as [Hw|Hw];
        [by apply Hmax|apply list_elem_of_singleton in Hw as ->; lia].
    + intros w Hw. apply elem_of_app in Hw as [Hw|Hw];
        [by apply Hmax|apply list_elem_of_singleton in Hw as ->; lia].
    (* nth_match counts the best scoring voices *)
    + rewrite Hcount, Z.eqb_refl.
      rewrite count_scoring_below; [lia|].
      intros w Hw. specialize (Hmax w Hw). lia.
    + assert (score lang voice_code info
              = score lang voice_code (best_info st)) as Heq by lia.
      rewrite Hcount, Z.eqb_refl, Heq. lia.
    + assert (score lang voice_code info
              = score lang voice_code (best_info st)) as Heq by lia.
      rewrite Hcount, Heq, Z.eqb_refl. lia.
    + rewrite Hcount.
      rewrite (proj2 (Z.eqb_neq _ _)) by lia. lia.
    (* and the rank of the chosen one is right *)
    + rewrite take_app_length.
      rewrite count_scoring_below; [lia|].
      intros w Hw. specialize (Hmax w Hw). lia.
    + assert (score lang voice_code info
              = score lang voice_code (best_info st)) as Heq by lia.
      rewrite take_app_length, Heq. lia.
    + rewrite take_app_le by lia. lia.
    + rewrite take_app_le by lia. lia.
Qed.

(** X13: which voice is selected.  When the ages of the enumerated voices
    can be compared one by one, the selected voice scores best (language,
    gender and age class, one point each), and among the voices with that
    score it is the first for the codes ..1 and the child codes, the second
    for ..2 and the third for ..3, or the last of them when there are not
    that many. *)
Theorem selected_voice_is_nth_best (voices : list BaratinooVoiceInfo)
    (lang : string) (voice_code : SPDVoiceType) (current : Z) :
  voices <> [] ->
  (forall a b, a ∈ voices -> b ∈ voices -> ages_comparable voice_code a b) ->
  let chosen := baratinoo_set_language_and_voice voices lang voice_code current in
  exists v,
    voices !! Z.to_nat chosen = Some v /\
    (forall w, w ∈ voices -> score lang voice_code w <= score lang voice_code v) /\
    Z.of_nat (count_scoring lang voice_code (score lang voice_code v)
                (take (Z.to_nat chosen) voices))
      = Z.min (voice_offset voice_code)
          (Z.of_nat (count_scoring lang voice_code (score lang voice_code v)
                       voices) - 1).
Proof.
  intros Hvoices Hages chosen. subst chosen.
  destruct voices as [|first rest]; [done|].
  unfold baratinoo_set_language_and_voice.
  pose proof (voice_offset_nonneg voice_code) as Hoffset.
  destruct (selection_loop_ranked lang voice_code (voice_offset voice_code)
              rest [first] (mkSelection 0 first 1))
    as (Hbest & Hrange & Hmax & Hnth & Hbefore).
  - lia.
  - exact Hages.
  - reflexivity.
  - simpl. lia.
  - intros w Hw. apply list_elem_of_singleton in Hw as ->. simpl. lia.
  - simpl. rewrite Z.eqb_refl. reflexivity.
  - simpl. lia.
  - change (Z.of_nat (length [first])) with 1 in *.
    change ([first] ++ rest) with (first :: rest) in *.
    rewrite (proj2 (Z.ltb_ge _ 0)) by lia.
    eexists. split; [exact Hbest|]. split; [exact Hmax|].
    rewrite Hbefore, Hnth. reflexivity.
Qed.

Lemma sample_voices_comparable voice_code a b :
  a ∈ sample_voices -> b ∈ sample_voices -> ages_comparable voice_code a b.
Proof.
  intros Ha Hb. right. right. left.
  unfold sample_voices in *.
  repeat (apply elem_of_cons in Ha as [->|Ha]);
    try (by apply elem_of_nil in Ha);
    repeat (apply elem_of_cons in Hb as [->|Hb]);
    try (by apply elem_of_nil in Hb);
    split; discriminate.
Qed.

(** A request for the second French male voice among the samples: Marc is
    English, Agnes is female and Loic is a child; Philippe and Yann both
    score 3, and the second of them, at index 4, is taken. *)
Lemma selected_voice_is_nth_best_witness :
  exists v,
    sample_voices !! Z.to_nat 4 = Some v /\
    (forall w, w ∈ sample_voices ->
       score "fr" SPD_MALE2 w <= score "fr" SPD_MALE2 v) /\
    Z.of_nat (count_scoring "fr" SPD_MALE2 (score "fr" SPD_MALE2 v)
                (take (Z.to_nat 4) sample_voices))
      = Z.min (voice_offset SPD_MALE2)
          (Z.of_nat (count_scoring "fr" SPD_MALE2 (score "fr" SPD_MALE2 v)
                       sample_voices) - 1).
Proof.
  apply (selected_voice_is_nth_best sample_voices "fr" SPD_MALE2 0).
  - discriminate.
  - apply sample_voices_comparable.
Defined.

Lemma find_voice_named_spec (wanted : string) :
  forall (voices : list BaratinooVoiceInfo) (i : Z),
  match find_voice_named wanted i voices with
  | Some r =>
      i <= r /\
      exists v, voices !! Z.to_nat (r - i) = Some v /\ name v = wanted /\
        forall j w, (j < Z.to_nat (r - i))%nat -> voices !! j = Some w ->
                    name w <> wanted
  | None => forall w, w ∈ voices -> name w <> wanted
  end.
Proof.
  induction voices as [|info rest IH]; intros i.
  - simpl. intros w Hw. by apply elem_of_nil in Hw.
  - simpl. destruct (streq wanted (name info)) eqn:Hname.
    + split; [lia|]. exists info. rewrite Z.sub_diag. simpl.
      split; [reflexivity|]. split; [symmetry; by apply streq_eq|].
      intros j w Hj. lia.
    + assert (name info <> wanted) as Hne.
      { intros Heq. rewrite <- Heq in Hname.
        by rewrite (proj2 (streq_eq _ _) eq_refl) in Hname. }
      specialize (IH (i + 1)).
      destruct (find_voice_named wanted (i + 1) rest) as [r|].
      * destruct IH as (Hle & v & Hv & Hnamev & Hfirst).
        split; [lia|]. exists v.
        replace (Z.to_nat (r - i)) with (S (Z.to_nat (r - (i + 1)))) by lia.
        split; [exact Hv|]. split; [exact Hnamev|].
        intros j w Hj Hw. destruct j as [|j].
        -- simpl in Hw. by injection Hw as <-.
        -- simpl in Hw. apply (Hfirst j w); [lia|exact Hw].
      * intros w Hw. apply elem_of_cons in Hw as [->|Hw]; [exact Hne|].
        by apply IH.
Qed.

(** X14: selecting a voice by name takes the first voice of that name.
    With a NULL name, or when no enumerated voice has the name, the current
    voice is kept; otherwise the new voice is the index of the first
    enumerated voice with exactly that name. *)
Theorem synthesis_voice_is_first_match (voices : list BaratinooVoiceInfo)
    (wanted : string) (current : Z) :
  baratinoo_set_synthesis_voice voices None current = current /\
  let chosen := baratinoo_set_synthesis_voice voices (Some wanted) current in
  (chosen = current /\ forall w, w ∈ voices -> name w <> wanted) \/
  (0 <= chosen < Z.of_nat (length voices) /\
   exists v, voices !! Z.to_nat chosen = Some v /\ name v = wanted /\
     forall j w, (j < Z.to_nat chosen)%nat -> voices !! j = Some w ->
                 name w <> wanted).
Proof.
  split; [reflexivity|]. unfold baratinoo_set_synthesis_voice.
  pose proof (find_voice_named_spec wanted voices 0) as Hspec.
  destruct (find_voice_named wanted 0 voices) as [r|].
  - right. destruct Hspec as (Hle & v & Hv & Hname & Hfirst).
    rewrite Z.sub_0_r in *.
    split; [|eauto].
    apply lookup_lt_Some in Hv. lia.
  - left. auto.
Qed.

Lemma synthesis_voice_is_first_match_witness :
  baratinoo_set_synthesis_voice sample_voices None 0 = 0 /\
  ((2 = 0 /\ forall w, w ∈ sample_voices -> name w <> "Philippe"%string) \/
   (0 <= 2 < Z.of_nat (length sample_voices) /\
    exists v, sample_voices !! Z.to_nat 2 = Some v /\
      name v = "Philippe"%string /\
      forall j w, (j < Z.to_nat 2)%nat -> sample_voices !! j = Some w ->
                  name w <> "Philippe"%string)).
Proof. exact (synthesis_voice_is_first_match sample_voices "Philippe" 0). Defined.

End VoicesFacts.

(** * Properties of the synthesis thread and of the session as a whole *)
Module EngineLoopFacts.
Import Baratinoo EngineLoop.

Lemma session_eta (s : Session) :
  mkSession (baratinoo_stop_requested s) (baratinoo_close_requested s)
    (baratinoo_semaphore s) (baratinoo_text_buffer s) (baratinoo_voice s)
    (submitted s) (deleted s) (tts_output s) = s.
Proof. by destruct s. Qed.

Lemma push_tracks_nil t : push_tracks [] t = t.
Proof.
  destruct t as [s e p]. unfold push_tracks, with_session. simpl.
  rewrite app_nil_r. by rewrite session_eta.
Qed.

Lemma push_tracks_app l1 l2 t :
  push_tracks l2 (push_tracks l1 t) = push_tracks (l1 ++ l2) t.
Proof.
  unfold push_tracks, with_session. simpl. by rewrite app_assoc.
Qed.

(** With no stop pending, the chunks of a call all reach
    [module_tts_output], in order, and nothing else changes. *)
Lemma happen_chunks (hs : list Happening) : forall t : Thread,
  only_chunks hs ->
  baratinoo_stop_requested (session t) = false ->
  foldl (fun t h => happen h t) t hs = push_tracks (tracks_of hs) t.
Proof.
  induction hs as [|h hs IH]; intros t Honly Hstop.
  - simpl. by rewrite push_tracks_nil.
  - assert (only_chunks hs) as Honly'
      by (intros x Hx; apply Honly; by apply list_elem_of_further).
    destruct h as [address len|];
      [|by destruct (Honly StopRequest (list_elem_of_here _ _))].
    cbn [foldl tracks_of].
    assert (happen (Chunk address len) t = push_tracks [track_of address len] t)
      as ->.
    { unfold happen, push_tracks, with_session, baratinoo_output_signal_cb,
        push_tts_output, track_of.
      by rewrite Hstop. }
    rewrite IH; [|assumption|exact Hstop].
    apply push_tracks_app.
Qed.

(** X15: while the stop flag is set nothing reaches the output.
    [module_stop] leaves the flag set, and until the synthesis thread clears
    it again (which it does after [BCpurge]), whatever chunks the engine
    hands to the output callback and whatever further stops are requested,
    the session stays exactly as [module_stop] left it: no chunk is
    forwarded and the semaphore is not posted again.  What happens once the
    thread has cleared the flag is not part of this statement. *)
Theorem stop_silences_output (hs : list Happening) (t : Thread) :
  baratinoo_stop_requested
    (session (with_session (fun s => snd (module_stop s)) t)) = true /\
  foldl (fun t h => happen h t) (with_session (fun s => snd (module_stop s)) t) hs
  = with_session (fun s => snd (module_stop s)) t /\
  tts_output (session (foldl (fun t h => happen h t)
                         (with_session (fun s => snd (module_stop s)) t) hs))
  = tts_output (session t).
Proof.
  assert (forall t' : Thread,
            baratinoo_stop_requested (session t') = true ->
            foldl (fun t h => happen h t) t' hs = t') as Hquiet.
  { induction hs as [|h hs IH]; intros t' Hstop; [reflexivity|].
    cbn [foldl].
    assert (happen h t' = t') as ->.
    { destruct t' as [s e p]. simpl in Hstop.
      destruct h as [address len|]; unfold happen, with_session; simpl;
        unfold baratinoo_output_signal_cb, module_stop; by rewrite Hstop. }
    by apply IH. }
  assert (baratinoo_stop_requested
            (session (with_session (fun s => snd (module_stop s)) t)) = true)
    as Hstopped.
  { unfold with_session, module_stop. simpl.
    by destruct (baratinoo_stop_requested (session t)) eqn:Hs. }
  split; [exact Hstopped|].
  rewrite (Hquiet _ Hstopped). split; [reflexivity|].
  unfold with_session, module_stop. simpl.
  by destruct (baratinoo_stop_requested (session t)).
Qed.

(** The loop over slices that keep the engine running and bring no stop:
    all their chunks are forwarded and the loop goes on with what follows. *)
Lemma tts_loop_running (engine : Engine) (slices : list Slice) :
  forall (fuel : nat) (tail : list Slice) (state : BARATINOOC_STATE) (t : Thread),
  (forall sl, sl ∈ slices ->
     still_running (outcome sl) = true /\ only_chunks (happenings sl)) ->
  baratinoo_close_requested (session t) = false ->
  baratinoo_stop_requested (session t) = false ->
  exists state',
    tts_loop (length slices + fuel) engine (slices ++ tail) state t
    = tts_loop fuel engine tail state'
        (push_tracks (concat (tracks_of <$> (happenings <$> slices))) t).
Proof.
  induction slices as [|sl slices IH]; intros fuel tail state t Hall Hclose Hstop.
  - exists state. simpl. by rewrite push_tracks_nil.
  - destruct (Hall sl (list_elem_of_here _ _)) as [Hrun Honly].
    cbn [length Nat.add app tts_loop]. rewrite Hclose, Hstop, Hrun.
    rewrite happen_chunks by assumption.
    destruct (IH fuel tail (outcome sl)
                (push_tracks (tracks_of (happenings sl)) t)) as [state' Hloop].
    + intros x Hx. apply Hall. by apply list_elem_of_further.
    + exact Hclose.
    + exact Hstop.
    + exists state'. rewrite Hloop, push_tracks_app. reflexivity.
Qed.

Lemma happen_quiet (hs : list Happening) : forall t : Thread,
  baratinoo_stop_requested (session t) = true ->
  foldl (fun t h => happen h t) t hs = t.
Proof.
  induction hs as [|h hs IH]; intros t Hstop; [reflexivity|].
  cbn [foldl].
  assert (happen h t = t) as ->.
  { destruct t as [s e p]. simpl in Hstop.
    destruct h as [address len|]; unfold happen, with_session; simpl;
      unfold baratinoo_output_signal_cb, module_stop; by rewrite Hstop. }
  by apply IH.
Qed.

(** The call during which a stop arrives: the chunks before it are
    forwarded, the flag is set and the semaphore posted once, and what comes
    after it in the same call is dropped. *)
Lemma happen_stop_arrives (pre post : list Happening) (t : Thread) :
  only_chunks pre ->
  baratinoo_stop_requested (session t) = false ->
  foldl (fun t h => happen h t) t (pre ++ StopRequest :: post)
  = with_session (fun s => sem_post (set_stop_requested true s))
      (push_tracks (tracks_of pre) t).
Proof.
  intros Honly Hstop. rewrite foldl_app.
  rewrite (happen_chunks pre t Honly Hstop).
  cbn [foldl].
  assert (happen StopRequest (push_tracks (tracks_of pre) t)
          = with_session (fun s => sem_post (set_stop_requested true s))
              (push_tracks (tracks_of pre) t)) as ->.
  { unfold happen, with_session, module_stop, push_tracks. simpl.
    by rewrite Hstop. }
  by apply happen_quiet.
Qed.

(** X16: an utterance that nobody interrupts is delivered whole.  When the
    thread is woken with a buffer pending, the engine accepts it and its
    calls bring chunks only until one of them reports a state other than
    running, the thread reports the beginning, forwards every chunk to
    [module_tts_output] in the order produced, reports the end, deletes the
    buffer and leaves the session idle, with one semaphore count taken and
    no purge made. *)
Theorem utterance_delivered_whole (engine : Engine) (slices : list Slice)
    (final : Slice) (t : Thread) (buffer : BCinputTextBuffer) (n : nat) :
  baratinoo_close_requested (session t) = false ->
  baratinoo_stop_requested (session t) = false ->
  baratinoo_semaphore (session t) = S n ->
  baratinoo_text_buffer (session t) = Some buffer ->
  BCinputTextBufferSetInEngine engine buffer = BARATINOO_READY ->
  (forall sl, sl ∈ slices ->
     still_running (outcome sl) = true /\ only_chunks (happenings sl)) ->
  still_running (outcome final) = false ->
  only_chunks (happenings final) ->
  exists t',
    speak_thread_pass engine (slices ++ [final]) t = PassDone [] t' /\
    events t' = events t ++ [EventBegin; EventEnd] /\
    tts_output (session t')
      = tts_output (session t)
        ++ concat (tracks_of <$> (happenings <$> (slices ++ [final]))) /\
    baratinoo_speaking (session t') = false /\
    deleted (session t') = deleted (session t) ++ [buffer] /\
    baratinoo_semaphore (session t') = n /\
    baratinoo_stop_requested (session t') = false /\
    purges t' = purges t.
Proof.
  intros Hclose Hstop Hsem Hbuf Hready Hrunning Hfinal Honly.
  unfold speak_thread_pass. rewrite Hclose, Hsem.
  cbn [with_session session sem_wait_taken baratinoo_text_buffer].
  rewrite Hbuf, Hready.
  replace (2 * length (slices ++ [final]) + 2)%nat
    with (length slices + (S (length slices + 3)))%nat
    by (rewrite length_app; simpl; lia).
  destruct (tts_loop_running engine slices (S (length slices + 3)) [final]
              BARATINOO_READY
              (report EventBegin (with_session sem_wait_taken t)))
    as [state' ->]; [assumption|exact Hclose|exact Hstop|].
  cbn [tts_loop]. cbn [push_tracks with_session session report sem_wait_taken
                       baratinoo_close_requested baratinoo_stop_requested].
  rewrite Hclose, Hstop, Hfinal.
  rewrite happen_chunks by (first [assumption | exact Hstop]).
  eexists. split; [reflexivity|].
  cbn. rewrite Hsem. rewrite !fmap_app, concat_app. cbn.
  rewrite app_nil_r, <- !app_assoc. auto 10.
Qed.

Lemma utterance_delivered_whole_witness :
  exists t',
    speak_thread_pass engine_ok
      ([mkSlice [Chunk [1; 2; 3; 4] 4] BARATINOO_RUNNING]
       ++ [mkSlice [Chunk [5; 6] 2] BARATINOO_INITIALIZED])
      (thread_of session_queued) = PassDone [] t' /\
    events t' = [] ++ [EventBegin; EventEnd] /\
    tts_output (session t')
      = [] ++ concat (tracks_of <$> (happenings <$>
                        ([mkSlice [Chunk [1; 2; 3; 4] 4] BARATINOO_RUNNING]
                         ++ [mkSlice [Chunk [5; 6] 2] BARATINOO_INITIALIZED]))) /\
    baratinoo_speaking (session t') = false /\
    deleted (session t') = [] ++ [1] /\
    baratinoo_semaphore (session t') = 0%nat /\
    baratinoo_stop_requested (session t') = false /\
    purges t' = 0%nat.
Proof.
  apply (utterance_delivered_whole engine_ok
           [mkSlice [Chunk [1; 2; 3; 4] 4] BARATINOO_RUNNING]
           (mkSlice [Chunk [5; 6] 2] BARATINOO_INITIALIZED)
           (thread_of session_queued) 1 0).
  - reflexivity.
  - reflexivity.
  - reflexivity.
  - reflexivity.
  - reflexivity.
  - intros sl Hsl. apply list_elem_of_singleton in Hsl as ->.
    split; [reflexivity|].
    intros h Hh. apply list_elem_of_singleton in Hh as ->. discriminate.
  - reflexivity.
  - intros h Hh. apply list_elem_of_singleton in Hh as ->. discriminate.
Defined.

(** X17: a stop in the middle of an utterance.  When a stop request takes
    effect during an engine call that leaves the engine running, and
    [BCpurge] brings the engine out of the running state, then the chunks
    produced before the request were forwarded and no later one is; the
    thread purges the engine once, clears the flag, reports the end, deletes
    the buffer and leaves the session idle; the calls left in the script are
    never made; and the semaphore holds the count of the stop request, so
    the thread wakes once more and finds nothing to do. *)
Theorem stop_cuts_utterance (engine : Engine) (slices rest : list Slice)
    (pre post : list Happening) (state : BARATINOOC_STATE) (t : Thread)
    (buffer : BCinputTextBuffer) (n : nat) :
  baratinoo_close_requested (session t) = false ->
  baratinoo_stop_requested (session t) = false ->
  baratinoo_semaphore (session t) = S n ->
  baratinoo_text_buffer (session t) = Some buffer ->
  BCinputTextBufferSetInEngine engine buffer = BARATINOO_READY ->
  (forall sl, sl ∈ slices ->
     still_running (outcome sl) = true /\ only_chunks (happenings sl)) ->
  only_chunks pre ->
  still_running state = true ->
  still_running (BCpurge engine) = false ->
  exists t',
    speak_thread_pass engine
      (slices ++ mkSlice (pre ++ StopRequest :: post) state :: rest) t
      = PassDone rest t' /\
    events t' = events t ++ [EventBegin; EventEnd] /\
    tts_output (session t')
      = tts_output (session t)
        ++ concat (tracks_of <$> (happenings <$> slices)) ++ tracks_of pre /\
    purges t' = S (purges t) /\
    baratinoo_stop_requested (session t') = false /\
    baratinoo_speaking (session t') = false /\
    deleted (session t') = deleted (session t) ++ [buffer] /\
    baratinoo_semaphore (session t') = S n.
Proof.
  intros Hclose Hstop Hsem Hbuf Hready Hrunning Honly Hstate Hpurge.
  unfold speak_thread_pass. rewrite Hclose, Hsem.
  cbn [with_session session sem_wait_taken baratinoo_text_buffer].
  rewrite Hbuf, Hready.
  replace (2 * length (slices ++ mkSlice (pre ++ StopRequest :: post) state :: rest)
           + 2)%nat
    with (length slices
          + (S (S (length slices + 2 * length rest + 2))))%nat
    by (rewrite length_app; simpl; lia).
  destruct (tts_loop_running engine slices
              (S (S (length slices + 2 * length rest + 2)))
              (mkSlice (pre ++ StopRequest :: post) state :: rest)
              BARATINOO_READY
              (report EventBegin (with_session sem_wait_taken t)))
    as [state' ->]; [assumption|exact Hclose|exact Hstop|].
  cbn [tts_loop]. cbn [push_tracks with_session session happenings outcome
                       report sem_wait_taken
                       baratinoo_close_requested baratinoo_stop_requested].
  rewrite Hclose, Hstop, Hstate.
  rewrite happen_stop_arrives by (first [assumption | exact Hstop]).
  cbn [push_tracks with_session session sem_post set_stop_requested
       report sem_wait_taken
       baratinoo_close_requested baratinoo_stop_requested].
  rewrite Hclose, Hpurge.
  eexists. split; [reflexivity|].
  cbn. rewrite Hsem. rewrite <- !app_assoc. auto 10.
Qed.

Lemma stop_cuts_utterance_witness :
  exists t',
    speak_thread_pass engine_ok
      ([] ++ mkSlice ([Chunk [1; 2; 3; 4] 4] ++ StopRequest :: [Chunk [7; 8] 2])
                     BARATINOO_RUNNING
          :: [mkSlice [Chunk [5; 6] 2] BARATINOO_INITIALIZED])
      (thread_of session_queued)
      = PassDone [mkSlice [Chunk [5; 6] 2] BARATINOO_INITIALIZED] t' /\
    events t' = [] ++ [EventBegin; EventEnd] /\
    tts_output (session t')
      = [] ++ concat (tracks_of <$> (happenings <$> []))
        ++ tracks_of [Chunk [1; 2; 3; 4] 4] /\
    purges t' = 1%nat /\
    baratinoo_stop_requested (session t') = false /\
    baratinoo_speaking (session t') = false /\
    deleted (session t') = [] ++ [1] /\
    baratinoo_semaphore (session t') = 1%nat.
Proof.
  apply (stop_cuts_utterance engine_ok []
           [mkSlice [Chunk [5; 6] 2] BARATINOO_INITIALIZED]
           [Chunk [1; 2; 3; 4] 4] [Chunk [7; 8] 2] BARATINOO_RUNNING
           (thread_of session_queued) 1 0).
  - reflexivity.
  - reflexivity.
  - reflexivity.
  - reflexivity.
  - reflexivity.
  - intros sl Hsl. by apply elem_of_nil in Hsl.
  - intros h Hh. apply list_elem_of_singleton in Hh as ->. discriminate.
  - reflexivity.
  - reflexivity.
Defined.

Section Requests.

Variable BCinputTextBufferNew : Z -> option BCinputTextBuffer.
Variable BCinputTextBufferInit : BCinputTextBuffer -> string -> bool.
Variable module_strip_ssml : string -> string.
Variable update_voice : Z -> Z.

Local Abbreviation speak :=
  (module_speak BCinputTextBufferNew BCinputTextBufferInit module_strip_ssml
     update_voice).

(** X18: the semaphore is posted exactly when a text was handed to the
    engine.  Every call of [module_speak] either changes neither the texts
    submitted nor the semaphore and returns 0, or submits the stripped text
    in a new buffer, which becomes the pending one, clears the stop flag,
    posts the semaphore once and returns the byte count. *)
Theorem speak_posts_iff_submitted (data : string) (bytes : Z) (msgtype : Z)
    (s : Session) :
  let '(r, s') := speak data bytes msgtype s in
  (r = 0 /\ submitted s' = submitted s /\
   baratinoo_semaphore s' = baratinoo_semaphore s /\
   tts_output s' = tts_output s) \/
  (exists buffer,
     r = to_int bytes /\
     submitted s' = submitted s ++ [(buffer, module_strip_ssml data)] /\
     baratinoo_semaphore s' = S (baratinoo_semaphore s) /\
     baratinoo_text_buffer s' = Some buffer /\
     baratinoo_stop_requested s' = false /\
     tts_output s' = tts_output s).
Proof.
  unfold module_speak.
  destruct (baratinoo_speaking s); [left; auto|].
  cbn [set_text_buffer baratinoo_text_buffer set_voice baratinoo_voice
       set_stop_requested].
  destruct (BCinputTextBufferNew _) as [buffer|]; [|left; auto].
  destruct (BCinputTextBufferInit buffer (module_strip_ssml data));
    [right; exists buffer; cbn; auto 10|left; auto].
Qed.

(** X19: a text the engine refuses leaves the session busy.  When the
    engine allocates the buffer but fails to initialise it, [module_speak]
    returns 0 without posting the semaphore and passes the buffer to
    [BCinputTextBufferDelete], but the session still holds it as pending:
    the session reports that it is speaking, a pause is answered as while
    speaking, and every further [module_speak] is rejected unchanged. *)
Theorem refused_text_leaves_session_busy (data : string) (bytes : Z)
    (msgtype : Z) (s : Session) (buffer : BCinputTextBuffer) :
  baratinoo_speaking s = false ->
  BCinputTextBufferNew (update_voice (baratinoo_voice s)) = Some buffer ->
  BCinputTextBufferInit buffer (module_strip_ssml data) = false ->
  let '(r, s') := speak data bytes msgtype s in
  r = 0 /\
  baratinoo_semaphore s' = baratinoo_semaphore s /\
  submitted s' = submitted s /\
  deleted s' = deleted s ++ [buffer] /\
  baratinoo_text_buffer s' = Some buffer /\
  baratinoo_speaking s' = true /\
  forall data' bytes' msgtype', speak data' bytes' msgtype' s' = (0, s').
Proof.
  intros Hidle Hnew Hinit. unfold module_speak at 1. rewrite Hidle.
  cbn [set_text_buffer baratinoo_text_buffer set_voice baratinoo_voice
       set_stop_requested].
  rewrite Hnew, Hinit.
  repeat split.
Qed.

End Requests.

Lemma refused_text_leaves_session_busy_witness :
  let '(r, s') :=
    module_speak stub_new (fun _ _ => false) stub_strip stub_voice
      "hello" 5 0 session_idle in
  r = 0 /\
  baratinoo_semaphore s' = baratinoo_semaphore session_idle /\
  submitted s' = submitted session_idle /\
  deleted s' = deleted session_idle ++ [1] /\
  baratinoo_text_buffer s' = Some 1 /\
  baratinoo_speaking s' = true /\
  forall data' bytes' msgtype',
    module_speak stub_new (fun _ _ => false) stub_strip stub_voice
      data' bytes' msgtype' s' = (0, s').
Proof.
  apply (refused_text_leaves_session_busy stub_new (fun _ _ => false)
           stub_strip stub_voice "hello" 5 0 session_idle 1).
  - reflexivity.
  - reflexivity.
  - reflexivity.
Defined.

(** X20: pausing is stopping.  While a message is being spoken
    [module_pause] leaves the session exactly as [module_stop] does and
    returns the failure value, all bits set; while idle it changes nothing
    and returns 0; and a second pause right after the first never changes
    the session again. *)
Theorem pause_is_stop (s : Session) :
  (baratinoo_speaking s = true ->
   module_pause s = (2 ^ 64 - 1, snd (module_stop s))) /\
  (baratinoo_speaking s = false -> module_pause s = (0, s)) /\
  snd (module_pause (snd (module_pause s))) = snd (module_pause s).
Proof.
  unfold module_pause.
  destruct (baratinoo_speaking s) eqn:Hspeaking.
  - split; [reflexivity|]. split; [discriminate|].
    cbn [snd].
    assert (baratinoo_speaking (snd (module_stop s)) = true) as ->.
    { unfold module_stop.
      destruct (baratinoo_stop_requested s); simpl; [assumption|].
      unfold baratinoo_speaking in *. simpl. assumption. }
    cbn [snd]. unfold module_stop.
    destruct (baratinoo_stop_requested s) eqn:Hstop; simpl;
      [by rewrite Hstop|reflexivity].
  - split; [discriminate|]. split; [reflexivity|].
    cbn [snd]. by rewrite Hspeaking.
Qed.

Lemma pause_is_stop_witness :
  module_pause session_speaking = (2 ^ 64 - 1, snd (module_stop session_speaking)) /\
  module_pause session_idle = (0, session_idle) /\
  snd (module_pause (snd (module_pause session_speaking)))
    = snd (module_pause session_speaking).
Proof.
  split; [|split].
  - apply (pause_is_stop session_speaking). reflexivity.
  - apply (pause_is_stop session_idle). reflexivity.
  - apply (pause_is_stop session_speaking).
Defined.

(** X21: a message stopped before the thread got to it is never heard,
    provided the engine takes the buffer and the purge ends the synthesis.
    After an accepted [module_speak] followed by [module_stop], when
    [BCinputTextBufferSetInEngine] answers ready and [BCpurge] answers a
    state other than running or event, the thread's next round reports the
    beginning and the end of the message, purges the engine once without a
    single [BCprocessLoop] call, forwards nothing to the output, and leaves
    the session idle with the stop flag clear and one semaphore count left
    over.  (An engine that does not take the buffer is X22; a purge that
    leaves the engine running lets the loop go on to [BCprocessLoop].) *)
Theorem stopped_before_start_is_silent (engine : Engine)
    (BCinputTextBufferNew : Z -> option BCinputTextBuffer)
    (BCinputTextBufferInit : BCinputTextBuffer -> string -> bool)
    (module_strip_ssml : string -> string) (update_voice : Z -> Z)
    (data : string) (bytes msgtype : Z) (s : Session) (script : list Slice)
    (buffer : BCinputTextBuffer) (reported : list SpeechEvent) (purged : nat) :
  baratinoo_speaking s = false ->
  baratinoo_close_requested s = false ->
  BCinputTextBufferNew (update_voice (baratinoo_voice s)) = Some buffer ->
  BCinputTextBufferInit buffer (module_strip_ssml data) = true ->
  BCinputTextBufferSetInEngine engine buffer = BARATINOO_READY ->
  still_running (BCpurge engine) = false ->
  let s1 := snd (module_speak BCinputTextBufferNew BCinputTextBufferInit
                   module_strip_ssml update_voice data bytes msgtype s) in
  let s2 := snd (module_stop s1) in
  exists t',
    speak_thread_pass engine script (mkThread s2 reported purged)
      = PassDone script t' /\
    events t' = reported ++ [EventBegin; EventEnd] /\
    purges t' = S purged /\
    tts_output (session t') = tts_output s /\
    baratinoo_speaking (session t') = false /\
    baratinoo_stop_requested (session t') = false /\
    baratinoo_semaphore (session t') = S (baratinoo_semaphore s) /\
    deleted (session t') = deleted s ++ [buffer].
Proof.
  intros Hidle Hclose Hnew Hinit Hready Hpurge s1 s2. subst s2 s1.
  unfold module_speak. rewrite Hidle.
  cbn [set_text_buffer baratinoo_text_buffer set_voice baratinoo_voice
       set_stop_requested].
  rewrite Hnew, Hinit.
  unfold module_stop, speak_thread_pass. cbn. rewrite Hclose.
  rewrite Hready.
  replace (length script + (length script + 0) + 2)%nat
    with (S (S (2 * length script))) by lia.
  cbn [tts_loop]. cbn. rewrite Hclose, Hpurge.
  eexists. split; [reflexivity|]. cbn. rewrite <- app_assoc. repeat split.
Qed.

Lemma stopped_before_start_is_silent_witness :
  exists t',
    speak_thread_pass engine_ok script_two
      (mkThread
         (snd (module_stop
                 (snd (module_speak stub_new stub_init stub_strip stub_voice
                         "hello" 5 0 session_idle)))) [] 0)
      = PassDone script_two t' /\
    events t' = [] ++ [EventBegin; EventEnd] /\
    purges t' = 1%nat /\
    tts_output (session t') = tts_output session_idle /\
    baratinoo_speaking (session t') = false /\
    baratinoo_stop_requested (session t') = false /\
    baratinoo_semaphore (session t') = S (baratinoo_semaphore session_idle) /\
    deleted (session t') = deleted session_idle ++ [1].
Proof.
  apply (stopped_before_start_is_silent engine_ok stub_new stub_init stub_strip
           stub_voice "hello" 5 0 session_idle script_two 1 [] 0).
  - reflexivity.
  - reflexivity.
  - reflexivity.
  - reflexivity.
  - reflexivity.
  - reflexivity.
Defined.

(** X22: a buffer the engine does not take leaves the session busy.  When
    the thread is woken with a buffer pending and
    [BCinputTextBufferSetInEngine] answers anything but ready, the round
    ends at once: no event is reported, nothing is forwarded, no engine call
    is made, and the buffer stays pending, so the session keeps reporting
    that it is speaking. *)
Theorem unready_engine_leaves_session_busy (engine : Engine)
    (script : list Slice) (t : Thread) (buffer : BCinputTextBuffer) (n : nat) :
  baratinoo_close_requested (session t) = false ->
  baratinoo_semaphore (session t) = S n ->
  baratinoo_text_buffer (session t) = Some buffer ->
  BCinputTextBufferSetInEngine engine buffer <> BARATINOO_READY ->
  exists t',
    speak_thread_pass engine script t = PassDone script t' /\
    session t' = sem_wait_taken (session t) /\
    baratinoo_semaphore (session t') = n /\
    baratinoo_speaking (session t') = true /\
    events t' = events t /\ purges t' = purges t /\
    tts_output (session t') = tts_output (session t) /\
    deleted (session t') = deleted (session t).
Proof.
  intros Hclose Hsem Hbuf Hstate.
  unfold speak_thread_pass. rewrite Hclose, Hsem.
  cbn [with_session session sem_wait_taken baratinoo_text_buffer].
  rewrite Hbuf.
  exists (with_session sem_wait_taken t). split.
  - by destruct (BCinputTextBufferSetInEngine engine buffer).
  - unfold baratinoo_speaking. cbn. rewrite Hsem, Hbuf. auto 10.
Qed.

Lemma unready_engine_leaves_session_busy_witness :
  exists t',
    speak_thread_pass (mkEngine (fun _ => BARATINOO_OTHER_STATE) BARATINOO_INITIALIZED)
      script_two (thread_of session_queued) = PassDone script_two t' /\
    session t' = sem_wait_taken session_queued /\
    baratinoo_semaphore (session t') = 0%nat /\
    baratinoo_speaking (session t') = true /\
    events t' = [] /\ purges t' = 0%nat /\
    tts_output (session t') = [] /\
    deleted (session t') = [].
Proof.
  apply (unready_engine_leaves_session_busy
           (mkEngine (fun _ => BARATINOO_OTHER_STATE) BARATINOO_INITIALIZED)
           script_two (thread_of session_queued) 1 0).
  - reflexivity.
  - reflexivity.
  - reflexivity.
  - discriminate.
Defined.

End EngineLoopFacts.

(** * Properties of the markup conversion *)
Module MarkupFacts.
Import Markup.

Lemma attribute_index_from_spec (name : list byte) :
  forall (names : list (list byte)) (i : Z),
  let r := attribute_index_from i names name in
  (r = -1 /\ forall n, n ∈ names -> n <> name) \/
  (i <= r /\ names !! Z.to_nat (r - i) = Some name /\
   forall j n, (j < Z.to_nat (r - i))%nat -> names !! j = Some n -> n <> name).
Proof.
  induction names as [|n names IH]; intros i; cbn zeta.
  - left. split; [reflexivity|]. intros n Hn. by apply elem_of_nil in Hn.
  - simpl. destruct (bool_decide (n = name)) eqn:Hn.
    + apply bool_decide_eq_true in Hn as ->. right.
      rewrite Z.sub_diag. split; [lia|]. split; [reflexivity|].
      intros j n Hj. simpl in Hj. lia.
    + apply bool_decide_eq_false in Hn.
      destruct (IH (i + 1)) as [[Hr Hnone]|(Hle & Hat & Hfirst)].
      * left. split; [exact Hr|].
        intros x Hx. apply elem_of_cons in Hx as [->|Hx]; [exact Hn|].
        by apply Hnone.
      * right. split; [lia|].
        replace (Z.to_nat (attribute_index_from (i + 1) names name - i))
          with (S (Z.to_nat (attribute_index_from (i + 1) names name - (i + 1))))
          by lia.
        split; [exact Hat|].
        intros j x Hj Hx. destruct j as [|j].
        -- simpl in Hx. by injection Hx as <-.
        -- simpl in Hx. apply (Hfirst j x); [lia|exact Hx].
Qed.

(** X23: [attribute_index] finds the first attribute of the given name.  It
    returns -1 for a NULL array and when no entry equals the name; otherwise
    it returns the index of an entry that equals the name and that no equal
    entry precedes. *)
Theorem attribute_index_first_match (names : list (list byte))
    (name : list byte) :
  attribute_index None name = -1 /\
  let r := attribute_index (Some names) name in
  (r = -1 /\ forall n, n ∈ names -> n <> name) \/
  (0 <= r < Z.of_nat (length names) /\
   names !! Z.to_nat r = Some name /\
   forall j n, (j < Z.to_nat r)%nat -> names !! j = Some n -> n <> name).
Proof.
  split; [reflexivity|]. cbn zeta. unfold attribute_index.
  destruct (attribute_index_from_spec name names 0)
    as [[Hr Hnone]|(Hle & Hat & Hfirst)].
  - left. auto.
  - right. rewrite Z.sub_0_r in *. split; [|auto].
    apply lookup_lt_Some in Hat. lia.
Qed.

Lemma attribute_index_first_match_witness :
  attribute_index None (bytes_of_string "name") = -1 /\
  ((1 = -1 /\
    forall n, n ∈ [bytes_of_string "id"; bytes_of_string "name";
                    bytes_of_string "name"] -> n <> bytes_of_string "name") \/
   (0 <= 1 < 3 /\
    [bytes_of_string "id"; bytes_of_string "name"; bytes_of_string "name"]
      !! Z.to_nat 1 = Some (bytes_of_string "name") /\
    forall j n, (j < Z.to_nat 1)%nat ->
      [bytes_of_string "id"; bytes_of_string "name"; bytes_of_string "name"]
        !! j = Some n -> n <> bytes_of_string "name")).
Proof.
  exact (attribute_index_first_match
           [bytes_of_string "id"; bytes_of_string "name"; bytes_of_string "name"]
           (bytes_of_string "name")).
Defined.

Lemma ssml2baratinoo_text_appends : forall (text buffer : list byte),
  ssml2baratinoo_text text buffer = buffer ++ concat (escaped <$> text).
Proof.
  induction text as [|c text IH]; intros buffer.
  - simpl. by rewrite app_nil_r.
  - simpl. rewrite IH. by rewrite <- app_assoc.
Qed.

Lemma escaped_injective : forall (t1 t2 : list byte),
  concat (escaped <$> t1) = concat (escaped <$> t2) -> t1 = t2.
Proof.
  induction t1 as [|c1 t1 IH]; intros [|c2 t2]; [done| | |].
  - simpl. unfold escaped. destruct (c2 =? BACKSLASH); discriminate.
  - simpl. unfold escaped. destruct (c1 =? BACKSLASH); discriminate.
  - simpl. unfold escaped.
    destruct (Z.eqb_spec c1 BACKSLASH) as [->|Hc1];
      destruct (Z.eqb_spec c2 BACKSLASH) as [->|Hc2]; simpl.
    + intros [= Heq]. f_equal. by apply IH.
    + intros [= Hc _]. by subst c2.
    + intros [= Hc _]. by subst c1.
    + intros [= -> Heq]. f_equal. by apply IH.
Qed.

Lemma escaped_length (text : list byte) :
  length (concat (escaped <$> text))
  = (length text + 3 * length (filter (fun c => c = BACKSLASH) text))%nat.
Proof.
  induction text as [|c text IH]; [reflexivity|].
  rewrite fmap_cons. cbn [concat]. rewrite length_app, IH. unfold escaped.
  rewrite filter_cons.
  destruct (Z.eqb_spec c BACKSLASH) as [->|Hc].
  - rewrite decide_True by reflexivity. simpl. lia.
  - rewrite decide_False by assumption. simpl. lia.
Qed.

(** X24: the text conversion only appends and loses nothing.
    [ssml2baratinoo_text] leaves the buffer's content in place and appends
    the text byte by byte, with each backslash (byte 92) replaced by the
    four bytes 92 92 123 125, a backslash pair and an empty brace pair, and
    every other byte as it is.  So the buffer grows by the length of the
    text plus 3 per backslash, a text without backslash is appended
    unchanged, and two different texts are never converted to the same
    bytes. *)
Theorem text_escaping_is_faithful (text other buffer : list byte) :
  ssml2baratinoo_text text buffer
    = buffer ++ concat ((fun c => if c =? 92 then [92; 92; 123; 125] else [c])
                          <$> text) /\
  length (ssml2baratinoo_text text buffer)
    = (length buffer + length text
       + 3 * length (filter (fun c => (c = 92)%Z) text))%nat /\
  (92 ∉ text -> ssml2baratinoo_text text buffer = buffer ++ text) /\
  (ssml2baratinoo_text other buffer = ssml2baratinoo_text text buffer ->
   other = text).
Proof.
  split; [exact (ssml2baratinoo_text_appends text buffer)|].
  split.
  { rewrite ssml2baratinoo_text_appends, length_app, escaped_length.
    unfold BACKSLASH. lia. }
  split.
  - rewrite ssml2baratinoo_text_appends. intros Hnone. f_equal.
    induction text as [|c text IH]; [reflexivity|].
    apply not_elem_of_cons in Hnone as [Hc Hnone].
    rewrite fmap_cons. cbn [concat]. unfold escaped at 1.
    rewrite (proj2 (Z.eqb_neq c BACKSLASH)) by (intros ->; by apply Hc).
    simpl. f_equal. by apply IH.
  - rewrite !ssml2baratinoo_text_appends. intros Heq.
    apply app_inv_head in Heq. by apply escaped_injective.
Qed.

Lemma text_escaping_is_faithful_witness :
  ssml2baratinoo_text (bytes_of_string "a\b") (bytes_of_string "x")
    = bytes_of_string "x" ++ [97; 92; 92; 123; 125; 98] /\
  length (ssml2baratinoo_text (bytes_of_string "a\b") (bytes_of_string "x"))
    = (1 + 3 + 3 * 1)%nat /\
  (92 ∉ bytes_of_string "a\b" ->
   ssml2baratinoo_text (bytes_of_string "a\b") (bytes_of_string "x")
   = bytes_of_string "x" ++ bytes_of_string "a\b") /\
  (ssml2baratinoo_text (bytes_of_string "ab") (bytes_of_string "x")
   = ssml2baratinoo_text (bytes_of_string "a\b") (bytes_of_string "x") ->
   bytes_of_string "ab" = bytes_of_string "a\b").
Proof.
  exact (text_escaping_is_faithful (bytes_of_string "a\b")
           (bytes_of_string "ab") (bytes_of_string "x")).
Defined.

Lemma attribute_index_from_absent (name : list byte) :
  forall (names : list (list byte)) (i : Z),
  (forall n, n ∈ names -> n <> name) ->
  attribute_index_from i names name = -1.
Proof.
  induction names as [|n names IH]; intros i Hnone; [reflexivity|].
  simpl. rewrite bool_decide_eq_false_2
    by (apply Hnone, list_elem_of_here).
  apply IH. intros x Hx. apply Hnone. by apply list_elem_of_further.
Qed.

Lemma attribute_index_from_found (name : list byte) :
  forall (pre post : list (list byte)) (i : Z),
  (forall n, n ∈ pre -> n <> name) ->
  attribute_index_from i (pre ++ name :: post) name = i + Z.of_nat (length pre).
Proof.
  induction pre as [|n pre IH]; intros post i Hnone.
  - simpl. rewrite bool_decide_eq_true_2 by reflexivity. lia.
  - simpl. rewrite bool_decide_eq_false_2
      by (apply Hnone, list_elem_of_here).
    rewrite IH by (intros x Hx; apply Hnone; by apply list_elem_of_further).
    lia.
Qed.

(** X25: what a start tag contributes.  A [mark] element appends the mark
    command with the value of its first [name] attribute, and with an empty
    argument when it has none; an element that is neither [mark] nor
    [emphasis] appends nothing, neither at its start nor at its end. *)
Theorem mark_takes_first_name (buffer value : list byte)
    (pre post : list (list byte * list byte)) (element : list byte) :
  (forall p, p ∈ pre -> p.1 <> bytes_of_string "name") ->
  ssml2baratinoo_start_element (bytes_of_string "mark")
    (pre ++ (bytes_of_string "name", value) :: post) buffer
    = buffer ++ bytes_of_string "\mark{" ++ value ++ bytes_of_string "}" /\
  ssml2baratinoo_start_element (bytes_of_string "mark") pre buffer
    = buffer ++ bytes_of_string "\mark{}" /\
  (element <> bytes_of_string "mark" ->
   element <> bytes_of_string "emphasis" ->
   ssml2baratinoo_start_element element pre buffer = buffer /\
   ssml2baratinoo_end_element element buffer = buffer).
Proof.
  intros Hpre.
  assert (forall n, n ∈ pre.*1 -> n <> bytes_of_string "name") as Hnames.
  { intros n Hn. apply list_elem_of_fmap in Hn as (p & -> & Hp). by apply Hpre. }
  split; [|split].
  - unfold ssml2baratinoo_start_element.
    rewrite bool_decide_eq_true_2 by reflexivity.
    unfold attribute_index. rewrite fmap_app, fmap_cons. cbn [fst].
    rewrite attribute_index_from_found by assumption.
    rewrite (proj2 (Z.ltb_ge _ 0)) by lia.
    replace (Z.to_nat (0 + Z.of_nat (length pre.*1))) with (length pre)
      by (rewrite length_fmap; lia).
    rewrite list_lookup_middle by reflexivity. reflexivity.
  - unfold ssml2baratinoo_start_element.
    rewrite bool_decide_eq_true_2 by reflexivity.
    unfold attribute_index.
    rewrite attribute_index_from_absent by assumption. reflexivity.
  - intros Hmark Hemph.
    unfold ssml2baratinoo_start_element, ssml2baratinoo_end_element.
    by rewrite !bool_decide_eq_false_2 by assumption.
Qed.

Lemma mark_takes_first_name_witness :
  ssml2baratinoo_start_element (bytes_of_string "mark")
    ([(bytes_of_string "id", bytes_of_string "7")]
     ++ (bytes_of_string "name", bytes_of_string "m1")
        :: [(bytes_of_string "name", bytes_of_string "m2")])
    (bytes_of_string "Hi ")
    = bytes_of_string "Hi " ++ bytes_of_string "\mark{" ++ bytes_of_string "m1"
      ++ bytes_of_string "}" /\
  ssml2baratinoo_start_element (bytes_of_string "mark")
    [(bytes_of_string "id", bytes_of_string "7")] (bytes_of_string "Hi ")
    = bytes_of_string "Hi " ++ bytes_of_string "\mark{}" /\
  (bytes_of_string "speak" <> bytes_of_string "mark" ->
   bytes_of_string "speak" <> bytes_of_string "emphasis" ->
   ssml2baratinoo_start_element (bytes_of_string "speak")
     [(bytes_of_string "id", bytes_of_string "7")] (bytes_of_string "Hi ")
     = bytes_of_string "Hi " /\
   ssml2baratinoo_end_element (bytes_of_string "speak") (bytes_of_string "Hi ")
     = bytes_of_string "Hi ").
Proof.
  apply (mark_takes_first_name (bytes_of_string "Hi ") (bytes_of_string "m1")
           [(bytes_of_string "id", bytes_of_string "7")]
           [(bytes_of_string "name", bytes_of_string "m2")]
           (bytes_of_string "speak")).
  intros p Hp. apply list_elem_of_singleton in Hp as ->. discriminate.
Defined.

End MarkupFacts.


(** * Properties of the start of the playback thread *)
Module StartupFacts.
Import AudioServer Startup.

Section Open.

Variable SPD_AUDIO_LIB_PREFIX : list byte.
Variable loader : Loader.
Variable big_endian_host : bool.

#[local] Abbreviation spd_audio_open :=
  (spd_audio_open SPD_AUDIO_LIB_PREFIX loader big_endian_host).
#[local] Abbreviation open_outputs :=
  (open_outputs SPD_AUDIO_LIB_PREFIX loader big_endian_host).
#[local] Abbreviation speechd_play_start :=
  (speechd_play_start SPD_AUDIO_LIB_PREFIX loader big_endian_host).

Lemma spd_audio_open_format (name : list byte) (id : AudioID) :
  (spd_audio_open name).1 = Some id ->
  format id = (if big_endian_host then SPD_AUDIO_BE else SPD_AUDIO_LE) /\
  (spd_audio_open name).2 = None.
Proof.
  unfold Startup.spd_audio_open.
  repeat match goal with
         | |- context [if ?b then _ else _] =>
             lazymatch b with
             | big_endian_host => fail
             | _ => destruct b; cbn [fst snd]; try discriminate
             end
         | |- context [match ?x with _ => _ end] =>
             lazymatch x with
             | big_endian_host => fail
             | _ => destruct x; cbn [fst snd]; try discriminate
             end
         end.
  intros [= <-]. split; reflexivity.
Qed.

Lemma set_audio_id_twice (a b : option AudioID) (s : Server) :
  set_audio_id a (set_audio_id b s) = set_audio_id a s.
Proof. reflexivity. Qed.

Lemma open_outputs_found (name : list byte) (id : AudioID)
    (post : list (list byte)) :
  (spd_audio_open name).1 = Some id ->
  forall (pre tried : list (list byte)) (error : option OpenError) (s : Server),
  (forall n, n ∈ pre -> (spd_audio_open n).1 = None) ->
  open_outputs (pre ++ name :: post) tried error s
    = Ok (true, tried ++ pre ++ [name], None)
         (set_audio_id (Some (mkAudioID (function_play id) (format id) 85)) s).
Proof.
  intros Hopen. induction pre as [|n pre IH]; intros tried error s Hpre.
  - cbn [app Startup.open_outputs].
    destruct (spd_audio_open_format name id Hopen) as [_ Herr].
    destruct (spd_audio_open name) as [got err]. cbn [fst snd] in Hopen, Herr.
    subst got err. reflexivity.
  - cbn [app Startup.open_outputs].
    pose proof (Hpre n (list_elem_of_here _ _)) as Hn.
    destruct (spd_audio_open n) as [got err]. cbn [fst] in Hn. subst got.
    unfold bind at 1. unfold modify at 1.
    rewrite IH by (intros x Hx; apply Hpre; by apply list_elem_of_further).
    rewrite set_audio_id_twice, <- app_assoc. reflexivity.
Qed.

Lemma open_outputs_none :
  forall (outputs tried : list (list byte)) (error : option OpenError)
         (s : Server),
  (forall n, n ∈ outputs -> (spd_audio_open n).1 = None) ->
  exists error',
    open_outputs outputs tried error s
      = Ok (false, tried ++ outputs, error')
           (match outputs with [] => s | _ => set_audio_id None s end).
Proof.
  induction outputs as [|n outputs IH]; intros tried error s Hall.
  - exists error. cbn [Startup.open_outputs]. by rewrite app_nil_r.
  - cbn [Startup.open_outputs].
    pose proof (Hall n (list_elem_of_here _ _)) as Hn.
    destruct (spd_audio_open n) as [got err]. cbn [fst] in Hn. subst got.
    unfold bind at 1. unfold modify at 1.
    destruct (IH (tried ++ [n]) err (set_audio_id None s)) as [error' ->].
    { intros x Hx. apply Hall. by apply list_elem_of_further. }
    exists error'. rewrite <- app_assoc. cbn [app].
    destruct outputs; reflexivity.
Qed.

(** X26: the first output method that opens is the one used.  When the
    configured list names, after methods that all fail to open, a method
    that opens, the playback thread starts with that device, its volume set
    to 85 and its format the host's byte order; the methods after it are
    never tried, no failure is logged and the queue of connections is
    empty. *)
Theorem first_opening_output_is_used (methods name : list byte)
    (pre post : list (list byte)) (id : AudioID) (s : Server) :
  g_strsplit methods COMMA 0 = pre ++ name :: post ->
  (forall n, n ∈ pre -> (spd_audio_open n).1 = None) ->
  (spd_audio_open name).1 = Some id ->
  exists s',
    speechd_play_start (Some methods) s = Ok (Some (pre ++ [name])) s' /\
    audio_id s' = Some (mkAudioID (function_play id) (format id) 85) /\
    format id = (if big_endian_host then SPD_AUDIO_BE else SPD_AUDIO_LE) /\
    module_data_list s' = [] /\
    log s' = log s /\ sockets s' = sockets s /\ played s' = played s.
Proof.
  intros Hsplit Hpre Hopen.
  unfold Startup.speechd_play_start. rewrite Hsplit.
  unfold bind at 1. unfold modify at 1.
  unfold bind at 1. rewrite (open_outputs_found name id post Hopen) by assumption.
  eexists. split; [reflexivity|].
  repeat split. apply (spd_audio_open_format name id Hopen).
Qed.

(** X27: when no configured output method opens, the playback thread still
    starts, without a device.  Every method of the list is tried once, in
    order; [audio_id] is NULL afterwards, the failure is logged once and the
    queue of connections is empty. *)
Theorem no_output_opens_then_no_device (methods : list byte) (s : Server) :
  methods <> [] ->
  (forall n, n ∈ g_strsplit methods COMMA 0 -> (spd_audio_open n).1 = None) ->
  exists s',
    speechd_play_start (Some methods) s
      = Ok (Some (g_strsplit methods COMMA 0)) s' /\
    audio_id s' = None /\
    module_data_list s' = [] /\
    log s' = log s ++ ["Opening sound device failed."%string] /\
    sockets s' = sockets s /\ played s' = played s.
Proof.
  intros Hne Hall.
  assert (g_strsplit methods COMMA 0 <> []) as Hsome.
  { destruct methods as [|c methods]; [done|].
    unfold g_strsplit. cbn [Z.ltb Z.compare length].
    cbn [g_strsplit_from]. by destruct (split_at COMMA (c :: methods)) as [[]|]. }
  unfold Startup.speechd_play_start.
  unfold bind at 1. unfold modify at 1.
  unfold bind at 1.
  destruct (open_outputs_none (g_strsplit methods COMMA 0) [] None
              (set_module_data_list [] s) Hall) as [error' ->].
  destruct (g_strsplit methods COMMA 0) as [|o outputs]; [done|].
  eexists. split; [reflexivity|]. repeat split.
Qed.

End Open.

Lemma first_opening_output_is_used_witness :
  exists s',
    speechd_play_start (bytes_of_string "spd_") loader_three false
      (Some (bytes_of_string "oss,alsa,pulse")) server_fresh
      = Ok (Some ([bytes_of_string "oss"] ++ [bytes_of_string "alsa"])) s' /\
    audio_id s'
      = Some (mkAudioID
                (function_play (mkAudioID (Some (fun _ => 0)) SPD_AUDIO_LE 0))
                (format (mkAudioID (Some (fun _ => 0)) SPD_AUDIO_LE 0)) 85) /\
    format (mkAudioID (Some (fun _ => 0)) SPD_AUDIO_LE 0)
      = (if false then SPD_AUDIO_BE else SPD_AUDIO_LE) /\
    module_data_list s' = [] /\
    log s' = log server_fresh /\ sockets s' = sockets server_fresh /\
    played s' = played server_fresh.
Proof.
  apply (first_opening_output_is_used (bytes_of_string "spd_") loader_three
           false (bytes_of_string "oss,alsa,pulse") (bytes_of_string "alsa")
           [bytes_of_string "oss"] [bytes_of_string "pulse"]
           (mkAudioID (Some (fun _ => 0)) SPD_AUDIO_LE 0) server_fresh).
  - reflexivity.
  - intros n Hn. apply list_elem_of_singleton in Hn as ->. reflexivity.
  - reflexivity.
Defined.

Lemma no_output_opens_then_no_device_witness :
  exists s',
    speechd_play_start (bytes_of_string "spd_") loader_three false
      (Some (bytes_of_string "oss,nas")) server_fresh
      = Ok (Some (g_strsplit (bytes_of_string "oss,nas") COMMA 0)) s' /\
    audio_id s' = None /\
    module_data_list s' = [] /\
    log s' = log server_fresh ++ ["Opening sound device failed."%string] /\
    sockets s' = sockets server_fresh /\ played s' = played server_fresh.
Proof.
  apply (no_output_opens_then_no_device (bytes_of_string "spd_") loader_three
           false (bytes_of_string "oss,nas") server_fresh).
  - discriminate.
  - intros n Hn. vm_compute in Hn.
    inversion Hn as [|? ? ? Hn']; subst; [reflexivity|].
    apply list_elem_of_singleton in Hn' as ->. reflexivity.
Defined.

End StartupFacts.
